(** * Whoosh based full text search (weblate/trans/search.py)

    A shallow embedding of [Fulltext] and of the two batched celery tasks
    [update_fulltext] and [delete_fulltext].

    - The index store (whoosh's file storage) is an explicit [Store]: the
      shards by name, the names whose storage cannot be opened, the shards
      whose write lock another writer holds, and a log of the writer and
      searcher scopes that ran.
    - Python exceptions are the [Raise] results of a state-and-error monad;
      the store survives a raise, as the files on disk do.
    - Python sets and dicts are stdpp's [gset] and [gmap]; iteration over
      them is [elements] and [map_to_list] (some order, as in Python).
    - Relevance scores are Python floats: binary64 numbers with their
      rounding, the kernel's primitive floats ([PrimFloat]).
    - What whoosh contributes to searching (the query parser, matching,
      scoring, key terms) is a parameter, the class [Engine]. *)

From Stdlib Require Import ZArith Floats String List Lia.
From stdpp Require Import base gmap strings list fin_maps fin_sets sorting.

#[global] Set Warnings "-register-all,-clear-no-such-hyp".
Open Scope string_scope.

(** ** Data model *)

(** weblate.lang.models.Language: only [code] is read here. *)
Record Language := { code : string }.

#[global] Instance Language_eq_dec : EqDecision Language.
Proof. solve_decision. Defined.

(** weblate.trans.models.Unit: one row per (string, translation); the
    language is the one of the unit's translation. *)
Record Unit := {
  unit_pk : Z;
  unit_source : string;
  unit_context : string;
  unit_location : string;
  unit_target : string;
  unit_comment : string;
  unit_language : Language;   (* unit.translation.language *)
}.

(** A stored document: field name to text.  The [pk] field (NUMERIC,
    stored, unique) is the key of the shard. *)
Abbreviation Doc := (list (string * string)).
Abbreviation Shard := (gmap Z Doc).

Inductive Schema := TargetSchema | SourceSchema.

(** whoosh.query: the queries this module builds. *)
Inductive Query :=
| Parsed (field text : string)          (* QueryParser(field, schema).parse(text) *)
| Term (field word : string) (boost : float)
| Or (subqueries : list Query).

Inductive WriteOp :=
| UpdateDocument (pk : Z) (fields : Doc)
| DeleteByTerm (field : string) (value : Z).

Inductive WriterKind := BufferedWriter | IndexWriter | AsyncWriter.

Inductive Event :=
| WriterScope (kind : WriterKind) (name : string) (ops : list WriteOp)
| Deferred (name : string) (ops : list WriteOp)
| Searched (name : string) (q : Query) (limit : option nat).

Record Store := {
  shards : gmap string Shard;   (* the indices that exist, by name *)
  unreadable : gset string;     (* names whose storage cannot be opened *)
  locked : gset string;         (* shards write-locked by somebody else *)
  log : list Event;             (* scopes that ran, oldest first *)
}.

Definition docs_of (st : Store) (name : string) : Shard :=
  default ∅ (shards st !! name).

(** ** Exceptions and the monad *)

Inductive exn :=
| IOError | LockError | TypeError | ValueError | ZeroDivisionError
| QueryParserError.   (* whoosh.qparser.QueryParserError *)

#[global] Instance exn_eq_dec : EqDecision exn.
Proof. solve_decision. Defined.

Inductive result (A : Type) :=
| Ok (a : A)
| Raise (e : exn).
Arguments Ok {A} a.
Arguments Raise {A} e.

Definition M (A : Type) : Type := Store → result A * Store.

Definition ret {A} (a : A) : M A := λ st, (Ok a, st).

Definition raise {A} (e : exn) : M A := λ st, (Raise e, st).

Definition bind {A B} (m : M A) (k : A → M B) : M B := λ st,
  match m st with
  | (Ok a, st') => k a st'
  | (Raise e, st') => (Raise e, st')
  end.

Notation "x ⇐ m ;; k" := (bind m (λ x, k))
  (at level 100, m at next level, right associativity, only parsing).
Notation "m ;;; k" := (bind m (λ _, k))
  (at level 100, right associativity, only parsing).

(** [try: m except e: handler] *)
Definition try_except {A} (m : M A) (e : exn) (handler : M A) : M A := λ st,
  match m st with
  | (Raise e', st') => if decide (e' = e) then handler st' else (Raise e', st')
  | r => r
  end.

(** [for x in l: body x] *)
Fixpoint for_each {A} (l : list A) (body : A → M unit) : M unit :=
  match l with
  | [] => ret tt
  | x :: l' => body x ;;; for_each l' body
  end.

(** [for x in l: acc = body acc x], for a loop that updates a local. *)
Fixpoint for_fold {A B} (l : list A) (acc : B) (body : B → A → M B) : M B :=
  match l with
  | [] => ret acc
  | x :: l' => acc' ⇐ body acc x ;; for_fold l' acc' body
  end.

(** ** The index store *)

Record Index := { index_name : string; index_schema : Schema }.

Definition set_shards (f : gmap string Shard → gmap string Shard) (st : Store) : Store :=
  {| shards := f (shards st); unreadable := unreadable st;
     locked := locked st; log := log st |}.

Definition add_log (e : Event) (st : Store) : Store :=
  {| shards := shards st; unreadable := unreadable st;
     locked := locked st; log := log st ++ [e] |}.

(** Modelled from the spec: WhooshIndex.open_index (weblate/utils/index.py is
    not part of the sources).  Section 4.1: the existing shard if present, an
    empty one created otherwise; an I/O error when the underlying storage is
    inaccessible. *)
Definition open_index (schema : Schema) (name : string) : M Index := λ st,
  if decide (name ∈ unreadable st) then (Raise IOError, st)
  else match shards st !! name with
       | Some _ => (Ok {| index_name := name; index_schema := schema |}, st)
       | None => (Ok {| index_name := name; index_schema := schema |},
                  set_shards (insert name ∅) st)
       end.

(** A writer collects its operations; they reach the shard on commit. *)
Abbreviation Writer := (list WriteOp).

Definition update_document (writer : Writer) (pk : Z) (fields : Doc) : Writer :=
  writer ++ [UpdateDocument pk fields].

Definition delete_by_term (writer : Writer) (field : string) (value : Z) : Writer :=
  writer ++ [DeleteByTerm field value].

(** [pk] is unique: updating replaces the document wholesale, deleting by
    the [pk] term removes it.  No other field is ever deleted by. *)
Definition apply_op (sh : Shard) (op : WriteOp) : Shard :=
  match op with
  | UpdateDocument pk fields => <[pk := fields]> sh
  | DeleteByTerm field value =>
      if String.eqb field "pk" then delete value sh else sh
  end.

Definition commit (ops : list WriteOp) (sh : Shard) : Shard :=
  foldl apply_op sh ops.

(** [with BufferedWriter(index) as writer: body] and
    [with index.writer() as writer: body]: taking the writer needs the
    shard's write lock and raises LockError when it is held; leaving the
    scope commits. *)
Definition with_writer (kind : WriterKind) (index : Index)
    (body : Writer → Writer) : M unit := λ st,
  let name := index_name index in
  if decide (name ∈ locked st) then (Raise LockError, st)
  else
    let ops := body [] in
    (Ok tt, add_log (WriterScope kind name ops)
              (set_shards (insert name (commit ops (docs_of st name))) st)).

(** [with AsyncWriter(index) as writer: body]: never raises LockError; when
    the lock is held the operations are handed to a background thread. *)
Definition with_async_writer (index : Index) (body : Writer → Writer) : M unit := λ st,
  let name := index_name index in
  let ops := body [] in
  if decide (name ∈ locked st) then (Ok tt, add_log (Deferred name ops) st)
  else
    (Ok tt, add_log (WriterScope AsyncWriter name ops)
              (set_shards (insert name (commit ops (docs_of st name))) st)).

(** ** Fulltext: index names and the indexer *)

Definition get_source_index : M Index := open_index SourceSchema "source".

Definition target_name (lang : string) : string := "target-" +:+ lang.

Definition get_target_index (lang : string) : M Index :=
  let name := target_name lang in
  open_index TargetSchema name.

Definition force_text (s : string) : string := s.

Definition update_source_unit_index (writer : Writer) (unit : Unit) : Writer :=
  update_document writer (unit_pk unit)
    [("source", force_text (unit_source unit));
     ("context", force_text (unit_context unit));
     ("location", force_text (unit_location unit))].

Definition update_target_unit_index (writer : Writer) (unit : Unit) : Writer :=
  update_document writer (unit_pk unit)
    [("target", force_text (unit_target unit));
     ("comment", force_text (unit_comment unit))].

(** [units.filter(translation__language=lang).exclude(target='')] *)
Definition language_units (units : list Unit) (lang : Language) : list Unit :=
  filter (λ unit, unit_language unit = lang ∧ unit_target unit ≠ "") units.

(** [languages] is [Language.objects.have_translation()]: the languages
    with at least one translation (weblate/lang/models.py, not part of the
    sources; taken as given). *)
Definition update_index (languages : list Language) (units : list Unit) : M unit :=
  (if bool_decide (units ≠ []) then
     index ⇐ get_source_index ;;
     with_writer BufferedWriter index (λ writer,
       foldl update_source_unit_index writer units)
   else ret tt) ;;;
  for_each languages (λ lang,
    let language_units := language_units units lang in
    if bool_decide (language_units ≠ []) then
      index ⇐ get_target_index (code lang) ;;
      with_writer BufferedWriter index (λ writer,
        foldl update_target_unit_index writer language_units)
    else ret tt).

Definition delete_search_unit (pk : Z) (lang : string) : M unit :=
  try_except
    (source ⇐ get_source_index ;;
     target ⇐ get_target_index lang ;;
     for_each [source; target] (λ index,
       with_async_writer index (λ writer, delete_by_term writer "pk" pk)))
    IOError (ret tt).

Definition delete_search_units (source_units : gset Z)
    (languages : gmap string (gset Z)) : M unit :=
  index ⇐ get_source_index ;;
  with_writer IndexWriter index (λ writer,
    foldl (λ writer pk, delete_by_term writer "pk" pk) writer
      (elements source_units)) ;;;
  for_each (map_to_list languages) (λ '(lang, units),
    index ⇐ get_target_index lang ;;
    with_writer IndexWriter index (λ writer,
      foldl (λ writer pk, delete_by_term writer "pk" pk) writer
        (elements units))).

(** ** The batched tasks *)

Definition max_retries : nat := 1000.

(** A batch request: one argument tuple per coalesced call, and the number
    of times the job system has already sent the batch again. *)
Record Request (A : Type) := { args : list A; retries : nat }.
Arguments args {A} _.
Arguments retries {A} _.

Inductive TaskOutcome (A : Type) :=
| Success
| Retried (again : Request A)   (* celery's Retry: the request was sent again *)
| Failure (e : exn).
Arguments Success {A}.
Arguments Retried {A} again.
Arguments Failure {A} e.

(** Modelled from the spec: the job system's [self.retry(exc=exc)] (celery is
    not part of the sources).  Sections 4.3, 4.6 and 5: the batch is sent again
    with its original arguments and the counter incremented; once the counter
    would exceed [max_retries] the original exception is the permanent
    failure of the job. *)
Definition retry {A} (self : Request A) (exc : exn) : TaskOutcome A :=
  if decide (max_retries < S (retries self))%nat then Failure exc
  else Retried {| args := args self; retries := S (retries self) |}.

(** weblate.utils.celery.extract_batch_args: the argument tuples of the
    coalesced calls. *)
Definition extract_batch_args {A} (self : Request A) : list A := args self.

(** [Unit_objects] is the unit table behind [Unit.objects]. *)
Definition update_fulltext (Unit_objects : list Unit) (languages : list Language)
    (self : Request Z) : Store → TaskOutcome Z * Store := λ st,
  let ids := extract_batch_args self in
  let units := filter (λ unit, unit_pk unit ∈ ids) Unit_objects in
  match update_index languages units st with
  | (Ok _, st') => (Success, st')
  | (Raise exc, st') =>
      if decide (exc = LockError) then (retry self exc, st')
      else (Failure exc, st')
  end.

(** The body of [for unit, language in ids]. *)
Definition group_step (g : gset Z * gmap string (gset Z)) (id : Z * string)
    : gset Z * gmap string (gset Z) :=
  let '(units, languages) := g in
  let '(unit, language) := id in
  let units := units ∪ {[unit]} in
  let languages :=
    if decide (language ∉ dom languages)
    then <[language := ∅]> languages else languages in
  let languages := alter (λ s, s ∪ {[unit]}) language languages in
  (units, languages).

Definition group_ids (ids : list (Z * string)) : gset Z * gmap string (gset Z) :=
  foldl group_step (∅, ∅) ids.

Definition delete_fulltext (self : Request (Z * string))
    : Store → TaskOutcome (Z * string) * Store := λ st,
  let ids := extract_batch_args self in
  let '(units, languages) := group_ids ids in
  match delete_search_units units languages st with
  | (Ok _, st') => (Success, st')
  | (Raise exc, st') =>
      if decide (exc = LockError) then (retry self exc, st')
      else (Failure exc, st')
  end.

(** The job system delivering one batch: it runs the task and, on a retry,
    runs it again with the request the retry produced.  [interfere n] is what
    the other workers do to the store before the attempt whose counter is
    [n].  The result is the list of requests that were executed, the final
    outcome ([None]: out of fuel) and the store. *)
Fixpoint deliver {A} (task : Request A → Store → TaskOutcome A * Store)
    (interfere : nat → Store → Store) (fuel : nat) (self : Request A) (st : Store)
    : list (Request A) * option (TaskOutcome A) * Store :=
  match fuel with
  | O => ([], None, st)
  | S fuel' =>
      match task self (interfere (retries self) st) with
      | (Retried again, st') =>
          let '(executed, outcome, st'') := deliver task interfere fuel' again st' in
          (self :: executed, outcome, st'')
      | (outcome, st') => ([self], Some outcome, st')
      end
  end.

(** ** Searching *)

(** What whoosh contributes: whether the parser of a field accepts a query
    text (section 7 of the specification: it may fail on a malformed one),
    which documents a parsed query or a term matches, the relevance score of
    a match, and key term extraction. *)
Class Engine := {
  query_parses : string → string → bool;
  parsed_matches : string → string → Doc → bool;
  term_matches : string → string → Doc → bool;
  scoring : Query → Doc → float;
  key_terms_from_text : Shard → string → string → nat → list (string * float);
}.

Definition lift {A} (r : result A) : M A := λ st, (r, st).

(** Hits are ranked by descending score. *)
Definition by_score : relation (Z * float) := λ h1 h2, (h2.2 <=? h1.2)%float.

#[global] Instance by_score_dec h1 h2 : Decision (by_score h1 h2).
Proof. unfold by_score. apply _. Defined.

Record Searcher := { searcher_name : string; searcher_docs : Shard }.

(** [index.searcher()]: a snapshot of the shard. *)
Definition index_searcher (index : Index) : M Searcher := λ st,
  (Ok {| searcher_name := index_name index;
         searcher_docs := docs_of st (index_name index) |}, st).

Section Searching.
Context `{!Engine}.

(** Does the document match the query: an [Or] matches when one of its
    subqueries does, so the [Or] of no subquery matches nothing. *)
Fixpoint matches (q : Query) (d : Doc) : bool :=
  match q with
  | Parsed field text => parsed_matches field text d
  | Term field word _ => term_matches field word d
  | Or subqueries => existsb (λ q', matches q' d) subqueries
  end.

(** The matching documents of a shard with their scores, best first. *)
Definition hits (sh : Shard) (q : Query) : list (Z * float) :=
  merge_sort by_score
    ((λ '(pk, d), (pk, scoring q d)) <$>
       filter (λ '(pk, d), matches q d = true) (map_to_list sh)).

(** [searcher.search(q, limit=limit)]: the matching documents, best
    first, at most [limit] of them; whoosh rejects a limit below 1. *)
Definition searcher_search (searcher : Searcher) (q : Query)
    (limit : option nat) : M (list (Z * float)) := λ st,
  match limit with
  | Some O => (Raise ValueError, st)
  | _ =>
      let results := hits (searcher_docs searcher) q in
      (Ok (match limit with Some n => take n results | None => results end),
       add_log (Searched (searcher_name searcher) q limit) st)
  end.

(** [qparser.QueryParser(field, schema).parse(text)]: the parsed query,
    or the parser's error on a text it does not accept. *)
Definition parse (field : string) (schema : Schema) (text : string)
    : result Query :=
  if query_parses field text then Ok (Parsed field text)
  else Raise QueryParserError.

(** [search[param]]; the five keys are always present. *)
Definition getitem (search : gmap string bool) (param : string) : bool :=
  default false (search !! param).

(** [functools.reduce(lambda x, y: x | y, queries)] *)
Definition reduce_or (queries : list Query) : result Query :=
  match queries with
  | [] => Raise TypeError
  | q :: queries' => Ok (foldl (λ x y, Or [x; y]) q queries')
  end.

Definition base_search (index : Index) (query : string) (params : list string)
    (search : gmap string bool) (schema : Schema) : M (list Z) :=
  searcher ⇐ index_searcher index ;;
  queries ⇐ for_fold params [] (λ queries param,
    if getitem search param then
      parsed ⇐ lift (parse param schema query) ;;
      ret (queries ++ [parsed])%list
    else ret queries) ;;
  terms ⇐ lift (reduce_or queries) ;;
  results ⇐ searcher_search searcher terms None ;;
  ret (fst <$> results).

Definition defaults : gmap string bool :=
  {[ "source" := false; "context" := false; "target" := false;
     "comment" := false; "location" := false ]}.

Definition search (query : string) (langs : list string)
    (params : gmap string bool) : M (gset Z) :=
  let pks : gset Z := ∅ in
  let search := params ∪ defaults in
  pks ⇐ (if getitem search "source" || getitem search "context"
            || getitem search "location"
         then
           index ⇐ get_source_index ;;
           found ⇐ base_search index query ["source"; "context"; "location"]
                     search SourceSchema ;;
           ret (pks ∪ list_to_set found)
         else ret pks) ;;
  pks ⇐ (if getitem search "target" || getitem search "comment"
         then
           for_fold langs pks (λ pks lang,
             index ⇐ get_target_index lang ;;
             found ⇐ base_search index query ["target"; "comment"]
                       search TargetSchema ;;
             ret (pks ∪ list_to_set found))
         else ret pks) ;;
  ret pks.

(** [max(l)] *)
Definition py_max (l : list float) : result float :=
  match l with
  | [] => Raise ValueError
  | x :: l' => Ok (foldl (λ m y, if (m <? y)%float then y else m) x l')
  end.

(** [{h[0]: h[1] * 100 / max_score for h in results}]: float arithmetic,
    each operation rounded; dividing by zero raises in Python. *)
Definition normalize (results : list (Z * float)) (max_score : float)
    : result (gmap Z float) :=
  match results with
  | [] => Ok ∅
  | _ =>
      if (max_score =? 0)%float then Raise ZeroDivisionError
      else Ok (foldl (λ scores h, <[h.1 := (h.2 * 100 / max_score)%float]> scores)
                 ∅ results)
  end.

Definition more_like (pk : Z) (source : string) (top : nat) : M (list Z) :=
  index ⇐ get_source_index ;;
  searcher ⇐ index_searcher index ;;
  let kts := key_terms_from_text (searcher_docs searcher) "source" source 10 in
  let query := Or ((λ '(word, weight), Term "source" word weight) <$> kts) in
  results ⇐ searcher_search searcher query (Some top) ;;
  if bool_decide (results = []) then ret []
  else
    max_score ⇐ lift (py_max (snd <$> results)) ;;
    scores ⇐ lift (normalize results max_score) ;;
    ret (fst <$>
           filter (λ h, (50 <? default 0 (scores !! h.1))%float = true
                        ∧ h.1 ≠ pk) results).
End Searching.

(** ** Vocabulary of the statements *)

(** The document that [update_source_unit_index] writes for a unit. *)
Definition source_doc (unit : Unit) : Doc :=
  [("source", unit_source unit); ("context", unit_context unit);
   ("location", unit_location unit)].

(** The document that [update_target_unit_index] writes for a unit. *)
Definition target_doc (unit : Unit) : Doc :=
  [("target", unit_target unit); ("comment", unit_comment unit)].

(** Opening an index and running one writer scope with the given
    operations: the shape of every write in this module. *)
Definition open_write (schema : Schema) (kind : WriterKind) (name : string)
    (ops : list WriteOp) : M unit :=
  index ⇐ open_index schema name ;;
  with_writer kind index (λ writer, (writer ++ ops)%list).

(** The documents of shard [n] after a sequence of writer scopes, each
    given by the name of its shard and its operations. *)
Definition scope_docs (n : string) (items : list (string * list WriteOp))
    (sh : Shard) : Shard :=
  foldl (λ sh it, if decide (n = it.1) then commit it.2 sh else sh) sh items.

(** What the grouping of the pending (unit id, language) pairs must be: the
    set of all unit ids, and for every named language the set of the unit ids
    named with it. *)
Definition grouped (ids : list (Z * string))
    (g : gset Z * gmap string (gset Z)) : Prop :=
  (∀ u, u ∈ g.1 ↔ ∃ l, (u, l) ∈ ids) ∧
  (∀ l, is_Some (g.2 !! l) ↔ ∃ u, (u, l) ∈ ids) ∧
  (∀ l us, g.2 !! l = Some us → ∀ u, u ∈ us ↔ (u, l) ∈ ids).

(** The operations of a delete scope: one [delete_by_term] per key. *)
Definition delete_ops (pks : gset Z) : list WriteOp :=
  DeleteByTerm "pk" <$> elements pks.

(** The target scopes of a delete flush, in the iteration order of the
    dict. *)
Definition delete_items (languages : gmap string (gset Z))
    : list (string * list WriteOp) :=
  (λ '(lang, units), (target_name lang, delete_ops units)) <$> map_to_list languages.

(** The operations of an update scope on the source shard and on a target
    shard. *)
Definition source_ops (units : list Unit) : list WriteOp :=
  (λ u, UpdateDocument (unit_pk u) (source_doc u)) <$> units.

Definition target_ops (units : list Unit) : list WriteOp :=
  (λ u, UpdateDocument (unit_pk u) (target_doc u)) <$> units.

(** The languages whose target shard an update flush writes. *)
Definition written_languages (languages : list Language) (units : list Unit)
    : list Language :=
  filter (λ lang, language_units units lang ≠ []) languages.

(** The target scopes of an update flush. *)
Definition target_items (languages : list Language) (units : list Unit)
    : list (string * list WriteOp) :=
  (λ lang, (target_name (code lang), target_ops (language_units units lang)))
    <$> written_languages languages units.

(** The index write of a flush of the batch, for the two tasks. *)
Definition update_flush (Unit_objects : list Unit) (languages : list Language)
    (batch : list Z) : M unit :=
  update_index languages (filter (λ unit, unit_pk unit ∈ batch) Unit_objects).

Definition delete_flush (batch : list (Z * string)) : M unit :=
  delete_search_units (group_ids batch).1 (group_ids batch).2.

(** The index write fails with the lock error on this store. *)
Definition lock_fails (flush : M unit) (st : Store) : Prop :=
  (flush st).1 = Raise LockError.

(** The shards that a flush writes, in the order of its writer scopes. *)
Definition update_shards (languages : list Language) (units : list Unit)
    : list string :=
  ((if bool_decide (units ≠ []) then ["source"] else [])
   ++ (target_items languages units).*1)%list.

Definition delete_shards (languages : gmap string (gset Z)) : list string :=
  "source" :: (delete_items languages).*1.

(** The requests a batch goes through when its counter runs from [n]. *)
Definition attempts {A} (batch : list A) (n count : nat) : list (Request A) :=
  (λ k, {| args := batch; retries := k |}) <$> seq n count.

(** The fields of the two schemas that can be searched. *)
Definition source_fields : list string := ["source"; "context"; "location"].
Definition target_fields : list string := ["target"; "comment"].

Section SearchVocabulary.
Context `{!Engine}.

(** The fields of [fields] that the toggles enable. *)
Definition enabled (search : gmap string bool) (fields : list string) : list string :=
  filter (λ param, getitem search param = true) fields.

(** The keys of the documents of a shard that a query matches. *)
Definition matching (sh : Shard) (q : Query) : gset Z :=
  dom (filter (λ kv, matches q kv.2 = true) sh).

(** The keys of the documents whose [field] matches the query text. *)
Definition field_matches (sh : Shard) (field text : string) : gset Z :=
  matching sh (Parsed field text).

(** What one shard contributes: the documents matching on any enabled
    field. *)
Definition shard_result (sh : Shard) (query : string)
    (search : gmap string bool) (fields : list string) : gset Z :=
  ⋃ ((λ field, field_matches sh field query) <$> enabled search fields).

(** The query that [base_search] runs when the parser accepts the
    text: the OR of the parsed queries of the enabled fields. *)
Definition terms_of (search : gmap string bool) (fields : list string)
    (schema : Schema) (query : string) : Query :=
  match reduce_or ((λ param, Parsed param query) <$> enabled search fields) with
  | Ok terms => terms
  | Raise _ => Or []
  end.

(** The parser accepts the query text on every field of the list. *)
Definition accepted (query : string) (fields : list string) : Prop :=
  Forall (λ field, query_parses field query = true) fields.

(** The fields on which [search] parses the query: the enabled fields of
    the source schema and, when a language is consulted, the enabled fields
    of the target schema. *)
Definition parsed_fields (langs : list string) (params : gmap string bool)
    : list string :=
  (enabled (params ∪ defaults) source_fields
   ++ (if decide (langs = []) then []
       else enabled (params ∪ defaults) target_fields))%list.

(** One shard's share of [search]: open it, search it, add what was
    found. *)
Definition search_shard (schema : Schema) (name : string) (fields : list string)
    (query : string) (search : gmap string bool) (pks : gset Z) : M (gset Z) :=
  index ⇐ open_index schema name ;;
  found ⇐ base_search index query fields search schema ;;
  ret (pks ∪ list_to_set found).

(** The union that [search] is claimed to return. *)
Definition search_union (query : string) (langs : list string)
    (search : gmap string bool) (st : Store) : gset Z :=
  shard_result (docs_of st "source") query search source_fields
  ∪ ⋃ ((λ lang, shard_result (docs_of st (target_name lang)) query search
                  target_fields) <$> langs).

(** The result of one shard's share, failures included: the index is
    opened first, then the query is parsed. *)
Definition shard_outcome (name : string) (fields : list string) (query : string)
    (search : gmap string bool) (st : Store) (pks : gset Z) : result (gset Z) :=
  if decide (name ∈ unreadable st) then Raise IOError
  else if decide (accepted query (enabled search fields))
  then Ok (pks ∪ shard_result (docs_of st name) query search fields)
  else Raise QueryParserError.

Fixpoint targets_outcome (langs : list string) (query : string)
    (search : gmap string bool) (st : Store) (pks : gset Z) : result (gset Z) :=
  match langs with
  | [] => Ok pks
  | lang :: langs' =>
      match shard_outcome (target_name lang) target_fields query search st pks with
      | Ok pks' => targets_outcome langs' query search st pks'
      | Raise e => Raise e
      end
  end.

(** The result of [search], failures included. *)
Definition search_outcome (query : string) (langs : list string)
    (params : gmap string bool) (st : Store) : result (gset Z) :=
  let search := params ∪ defaults in
  match (if decide (enabled search source_fields ≠ [])
         then shard_outcome "source" source_fields query search st ∅
         else Ok ∅) with
  | Ok pks =>
      if decide (enabled search target_fields ≠ [])
      then targets_outcome langs query search st pks
      else Ok pks
  | Raise e => Raise e
  end.

(** The query that [more_like] builds from the key terms of a text. *)
Definition similarity_query (sh : Shard) (source : string) : Query :=
  Or ((λ '(word, weight), Term "source" word weight)
        <$> key_terms_from_text sh "source" source 10).

(** The hits of the similarity search: the best [top] matches. *)
Definition similar_hits (sh : Shard) (source : string) (top : nat)
    : list (Z * float) :=
  take top (hits sh (similarity_query sh source)).
End SearchVocabulary.

(** What reading leaves alone: the documents and the accessibility. *)
Definition same_docs (st st' : Store) : Prop :=
  unreadable st' = unreadable st ∧ ∀ n, docs_of st' n = docs_of st n.

(** A raw score that is positive and finite, as a relevance score is. *)
Definition positive_finite (x : float) : Prop :=
  (0 <? x)%float = true ∧ (x <? infinity)%float = true.

(** Binary64 numbers as the kernel specifies them ([SpecFloat]): 100, 50,
    and the numbers from 64 on, which are infinity and the finite numbers of
    exponent -46 or more. *)
Definition hundred64 : spec_float := S754_finite false 7036874417766400 (-46).
Definition fifty64 : spec_float := S754_finite false 7036874417766400 (-47).

Definition from_64 (r : spec_float) : Prop :=
  r = S754_infinity false ∨ ∃ m e, r = S754_finite false m e ∧ (-46 ≤ e)%Z.

(** The positive numbers of the specification. *)
Definition SFpositive (a : spec_float) : Prop :=
  a = S754_infinity false ∨ ∃ m e, a = S754_finite false m e.

(** Comparisons of the specification, by cases on the exponents and the
    mantissas. *)
Ltac compare_cases :=
  unfold SFltb, SFleb, SFeqb, SFcompare in *;
  repeat match goal with
  | |- context [Pos.compare_cont Eq ?a ?b] =>
      change (Pos.compare_cont Eq a b) with (Pos.compare a b)
  | H : context [Pos.compare_cont Eq ?a ?b] |- _ =>
      change (Pos.compare_cont Eq a b) with (Pos.compare a b) in H
  end;
  repeat match goal with
  | |- context [Z.compare ?a ?b] => destruct (Z.compare_spec a b)
  | H : context [Z.compare ?a ?b] |- _ => destruct (Z.compare_spec a b)
  | |- context [Pos.compare ?a ?b] => destruct (Pos.compare_spec a b)
  | H : context [Pos.compare ?a ?b] |- _ => destruct (Pos.compare_spec a b)
  end;
  try done; try lia.

(** An event of a read: a search, not a writer scope. *)
Definition read_event (e : Event) : Prop :=
  match e with
  | Searched _ _ _ => True
  | _ => False
  end.

(** What a read may do to the store: open (and so create, empty) an index
    and log searches; the documents, the locks and the accessibility stay. *)
Definition read_step (st st' : Store) : Prop :=
  unreadable st' = unreadable st ∧ locked st' = locked st ∧
  (∀ n, docs_of st' n = docs_of st n) ∧
  ∃ events, log st' = (log st ++ events)%list ∧ Forall read_event events.

Definition reads_only {A} (m : M A) : Prop :=
  ∀ st r st', m st = (r, st') → read_step st st'.

(** ** Sample data *)

Definition cs : Language := {| code := "cs" |}.
Definition de : Language := {| code := "de" |}.

Definition hello_cs : Unit :=
  {| unit_pk := 1; unit_source := "hello"; unit_context := "abc";
     unit_location := "a.c"; unit_target := "ahoj"; unit_comment := "";
     unit_language := cs |}.

Definition hello_de : Unit :=
  {| unit_pk := 2; unit_source := "hello"; unit_context := "";
     unit_location := "a.c"; unit_target := ""; unit_comment := "";
     unit_language := de |}.

Definition world_de : Unit :=
  {| unit_pk := 3; unit_source := "hello"; unit_context := "abcd";
     unit_location := "b.c"; unit_target := "hallo"; unit_comment := "";
     unit_language := de |}.

Definition empty_store : Store :=
  {| shards := ∅; unreadable := ∅; locked := ∅; log := [] |}.

(** The storage of the source index cannot be opened. *)
Definition unreadable_store : Store :=
  {| shards := ∅; unreadable := {["source"]}; locked := ∅; log := [] |}.

(** Somebody else is writing to the Czech target index. *)
Definition contended_store : Store :=
  {| shards := ∅; unreadable := ∅; locked := {["target-cs"]}; log := [] |}.

(** Somebody else is writing to the source index. *)
Definition source_locked_store : Store :=
  {| shards := ∅; unreadable := ∅; locked := {["source"]}; log := [] |}.

(** A small engine to run the definitions with: the parser accepts every
    text but a lone opening parenthesis, a field matches when its text equals
    the query text, a document scores by its context, and the only key term
    of a text is the text itself. *)
Definition field_text (d : Doc) (field : string) : string :=
  match filter (λ kv, kv.1 = field) d with
  | (_, text) :: _ => text
  | [] => ""
  end.

Definition sample_engine : Engine :=
  {| query_parses field text := negb (String.eqb text "(");
     parsed_matches field text d := String.eqb (field_text d field) text;
     term_matches field word d := String.eqb (field_text d field) word;
     scoring q d :=
       if String.eqb (field_text d "context") "abcd" then 5%float
       else if String.eqb (field_text d "context") "abc" then 4%float
       else 1%float;
     key_terms_from_text sh field text numterms :=
       if String.eqb text "" then [] else [(text, 1%float)] |}.

(** The three sample units, indexed. *)
Definition indexed_store : Store :=
  (update_index [cs; de] [hello_cs; hello_de; world_de] empty_store).2.

(** The indexed sample units, with the German target index unreadable. *)
Definition unreadable_target_store : Store :=
  {| shards := shards indexed_store; unreadable := {["target-de"]};
     locked := ∅; log := [] |}.

(** An engine like the sample one whose scores are all zero. *)
Definition zero_engine : Engine :=
  {| query_parses field text := negb (String.eqb text "(");
     parsed_matches field text d := String.eqb (field_text d field) text;
     term_matches field word d := String.eqb (field_text d field) word;
     scoring q d := 0%float;
     key_terms_from_text sh field text numterms :=
       if String.eqb text "" then [] else [(text, 1%float)] |}.

(** An engine like the sample one with the scores 11.021095351624243 for
    the best document and half of it for the others: on these the division
    by the best score is not exact. *)
Definition rounding_engine : Engine :=
  {| query_parses field text := negb (String.eqb text "(");
     parsed_matches field text d := String.eqb (field_text d field) text;
     term_matches field word d := String.eqb (field_text d field) word;
     scoring q d :=
       if String.eqb (field_text d "context") "abcd" then 0x1.60acd028aa5c2p+3%float
       else 0x1.60acd028aa5c2p+2%float;
     key_terms_from_text sh field text numterms :=
       if String.eqb text "" then [] else [(text, 1%float)] |}.

(** * Properties *)

(** ** Index names *)

Lemma target_name_inj l1 l2 : target_name l1 = target_name l2 → l1 = l2.
Proof. unfold target_name. intros H. by simplify_eq/=. Qed.

Lemma target_name_not_source l : target_name l ≠ "source".
Proof. unfold target_name. intros H. by simplify_eq/=. Qed.

(** ** Writers *)

Lemma foldl_delete_by_term (pks : list Z) (writer : Writer) :
  foldl (λ writer pk, delete_by_term writer "pk" pk) writer pks
  = (writer ++ (DeleteByTerm "pk" <$> pks))%list.
Proof.
  revert writer. induction pks as [|pk pks IH]; intros writer; simpl.
  - by rewrite app_nil_r.
  - rewrite IH. unfold delete_by_term. by rewrite <- app_assoc.
Qed.

Lemma foldl_update_source (units : list Unit) (writer : Writer) :
  foldl update_source_unit_index writer units
  = (writer ++ ((λ u, UpdateDocument (unit_pk u) (source_doc u)) <$> units))%list.
Proof.
  revert writer. induction units as [|u units IH]; intros writer; simpl.
  - by rewrite app_nil_r.
  - rewrite IH. unfold update_source_unit_index, update_document.
    by rewrite <- app_assoc.
Qed.

Lemma foldl_update_target (units : list Unit) (writer : Writer) :
  foldl update_target_unit_index writer units
  = (writer ++ ((λ u, UpdateDocument (unit_pk u) (target_doc u)) <$> units))%list.
Proof.
  revert writer. induction units as [|u units IH]; intros writer; simpl.
  - by rewrite app_nil_r.
  - rewrite IH. unfold update_target_unit_index, update_document.
    by rewrite <- app_assoc.
Qed.

(** Deleting a list of keys removes exactly those keys. *)
Lemma commit_deletes_lookup (pks : list Z) (sh : Shard) (p : Z) :
  commit (DeleteByTerm "pk" <$> pks) sh !! p
  = if decide (p ∈ pks) then None else sh !! p.
Proof.
  unfold commit. revert sh. induction pks as [|pk pks IH]; intros sh.
  - by rewrite decide_False by set_solver.
  - rewrite fmap_cons. cbn [foldl apply_op String.eqb Ascii.eqb Bool.eqb].
    rewrite IH. destruct (decide (p = pk)) as [->|Hne].
    + rewrite (decide_True (P := pk ∈ pk :: pks)) by set_solver.
      destruct (decide (pk ∈ pks)); [done|]. apply lookup_delete_eq.
    + rewrite lookup_delete_ne by done.
      destruct (decide (p ∈ pks)) as [Hin|Hin].
      * rewrite decide_True; [done|by right].
      * rewrite decide_False; [done|]. intros [?|?]%elem_of_cons; done.
Qed.

(** Replacing documents: the last write to a key wins, other keys stay. *)
Lemma commit_updates_lookup (doc : Unit → Doc) (units : list Unit)
    (sh : Shard) (p : Z) :
  commit ((λ u, UpdateDocument (unit_pk u) (doc u)) <$> units) sh !! p
  = match last (filter (λ u, unit_pk u = p) units) with
    | Some u => Some (doc u)
    | None => sh !! p
    end.
Proof.
  unfold commit. revert sh. induction units as [|u units IH]; intros sh.
  - done.
  - rewrite fmap_cons. cbn [foldl apply_op].
    rewrite IH. rewrite filter_cons. case_decide as Hp.
    + destruct (filter _ units) as [|u' f'] eqn:Hf.
      * simpl. rewrite <- Hp. by rewrite lookup_insert_eq.
      * rewrite last_cons_cons.
        destruct (last (u' :: f')) eqn:Hl; [done|]. by apply last_None in Hl.
    + destruct (last _); [done|]. by rewrite lookup_insert_ne.
Qed.

Lemma commit_updates_idemp (doc : Unit → Doc) (units : list Unit) (sh : Shard) :
  let ops := (λ u, UpdateDocument (unit_pk u) (doc u)) <$> units in
  commit ops (commit ops sh) = commit ops sh.
Proof.
  intros ops. apply map_eq. intros p. unfold ops.
  rewrite !commit_updates_lookup. by destruct (last _).
Qed.

(** ** One writer scope on a freshly opened index *)

(** What an attempt leaves untouched, whatever its result. *)
Lemma open_write_frame schema kind name ops st r st' :
  open_write schema kind name ops st = (r, st') →
  unreadable st' = unreadable st ∧ locked st' = locked st.
Proof.
  unfold open_write, bind, open_index, with_writer. intros H.
  destruct (decide (name ∈ unreadable st)); [by inversion H|].
  destruct (shards st !! name); cbn [index_name] in H;
    destruct (decide (name ∈ locked _)); by inversion H.
Qed.

Lemma docs_of_insert name sh n' (st : Store) :
  docs_of (set_shards (insert name sh) st) n'
  = (if decide (n' = name) then sh else docs_of st n').
Proof.
  unfold docs_of, set_shards. cbn [shards]. case_decide as Hn.
  - subst. by rewrite lookup_insert_eq.
  - by rewrite lookup_insert_ne.
Qed.

Lemma docs_of_add_log e st n' : docs_of (add_log e st) n' = docs_of st n'.
Proof. done. Qed.

Lemma open_write_ok schema kind name ops st st' :
  open_write schema kind name ops st = (Ok tt, st') →
  (name ∉ unreadable st) ∧ (name ∉ locked st) ∧
  log st' = (log st ++ [WriterScope kind name ops])%list ∧
  ∀ n', docs_of st' n'
       = (if decide (n' = name) then commit ops (docs_of st name) else docs_of st n').
Proof.
  unfold open_write, bind, open_index, with_writer. intros H.
  destruct (decide (name ∈ unreadable st)) as [|Hu]; [by inversion H|].
  destruct (shards st !! name) eqn:Hs; cbn [index_name] in H;
    destruct (decide (name ∈ locked _)) as [|Hl]; inversion H; subst; clear H;
    (split_and!; [done..|]); intros n';
    rewrite docs_of_add_log, docs_of_insert; case_decide as Hn; try done.
  - subst. rewrite docs_of_insert, decide_True by done.
    unfold docs_of. by rewrite Hs.
  - by rewrite docs_of_insert, decide_False.
Qed.

Lemma open_write_raise schema kind name ops st e st' :
  open_write schema kind name ops st = (Raise e, st') →
  log st' = log st ∧ (∀ n', docs_of st' n' = docs_of st n') ∧
  ((e = IOError ∧ name ∈ unreadable st)
   ∨ (e = LockError ∧ (name ∉ unreadable st) ∧ name ∈ locked st)).
Proof.
  unfold open_write, bind, open_index, with_writer. intros H.
  destruct (decide (name ∈ unreadable st)) as [|Hu].
  { inversion H; subst. split_and!; [done..|]. by left. }
  destruct (shards st !! name) eqn:Hs; cbn [index_name] in H;
    destruct (decide (name ∈ locked _)) as [Hl|Hl]; inversion H; subst; clear H.
  - split_and!; [done..|]. by right.
  - split_and!; [done| |by right]. intros n'.
    rewrite docs_of_insert. case_decide; [|done]. subst.
    unfold docs_of. by rewrite Hs.
Qed.

Lemma open_write_healthy schema kind name ops st :
  name ∉ unreadable st → name ∉ locked st →
  ∃ st', open_write schema kind name ops st = (Ok tt, st').
Proof.
  intros Hu Hl. unfold open_write, bind, open_index, with_writer.
  rewrite decide_False by done.
  destruct (shards st !! name); simpl; rewrite decide_False by done; eauto.
Qed.

Lemma open_then_write schema kind name body st :
  (index ⇐ open_index schema name ;; with_writer kind index body) st
  = open_write schema kind name (body []) st.
Proof. reflexivity. Qed.

(** ** Loops of writer scopes *)

Lemma for_each_fmap {A B} (f : A → B) (body : A → M unit) (g : B → M unit)
    (l : list A) st :
  (∀ x st, x ∈ l → body x st = g (f x) st) →
  for_each l body st = for_each (f <$> l) g st.
Proof.
  revert st. induction l as [|x l IH]; intros st Hext; [done|].
  rewrite fmap_cons. cbn [for_each]. unfold bind. rewrite Hext by left.
  destruct (g (f x) st) as [[[]|e] st1]; [|done].
  apply IH. intros x' st' Hx'. apply Hext. by right.
Qed.

(** Skipped iterations can be filtered out beforehand. *)
Lemma for_each_filter {A} (P : A → Prop) `{!∀ x, Decision (P x)}
    (body : A → M unit) (l : list A) st :
  (∀ x st, ¬ P x → body x st = (Ok tt, st)) →
  for_each l body st = for_each (filter P l) body st.
Proof.
  intros Hskip. revert st. induction l as [|x l IH]; intros st; [done|].
  rewrite filter_cons. case_decide as HP.
  - cbn [for_each]. unfold bind.
    destruct (body x st) as [[[]|e] st1]; [apply IH|done].
  - cbn [for_each]. unfold bind. rewrite Hskip by done. apply IH.
Qed.

Section ScopeLoop.
Variables (schema : Schema) (kind : WriterKind).

Lemma loop_frame items st r st' :
  for_each items (λ it, open_write schema kind it.1 it.2) st = (r, st') →
  unreadable st' = unreadable st ∧ locked st' = locked st.
Proof.
  revert st. induction items as [|it items IH]; intros st H.
  - by inversion H.
  - cbn [for_each] in H. unfold bind in H.
    destruct (open_write _ _ _ _ st) as [[[]|e] st1] eqn:H1.
    + apply open_write_frame in H1 as [<- <-]. by apply IH.
    + simplify_eq. by eapply open_write_frame.
Qed.

Lemma loop_ok items st st' :
  for_each items (λ it, open_write schema kind it.1 it.2) st = (Ok tt, st') →
  (∀ it, it ∈ items → (it.1 ∉ unreadable st) ∧ (it.1 ∉ locked st)) ∧
  log st' = (log st ++ ((λ it, WriterScope kind it.1 it.2) <$> items))%list ∧
  ∀ n, docs_of st' n = scope_docs n items (docs_of st n).
Proof.
  revert st. induction items as [|it items IH]; intros st H.
  - inversion H; subst. split_and!; [|by rewrite app_nil_r|done].
    intros it Hit. by apply elem_of_nil in Hit.
  - cbn [for_each] in H. unfold bind in H.
    destruct (open_write _ _ _ _ st) as [[[]|e] st1] eqn:H1; [|done].
    pose proof (open_write_frame _ _ _ _ _ _ _ H1) as [Hu Hl].
    apply open_write_ok in H1 as (Hnu & Hnl & Hlog & Hdocs).
    apply IH in H as (Hin & Hlog' & Hdocs').
    split_and!.
    + intros it' [->|Hit]%elem_of_cons; [done|].
      rewrite <- Hu, <- Hl. by apply Hin.
    + rewrite Hlog', Hlog, fmap_cons, <- app_assoc. done.
    + intros n. rewrite Hdocs', Hdocs. unfold scope_docs. cbn [foldl].
      by case_decide; subst.
Qed.

Lemma loop_healthy items st :
  (∀ it, it ∈ items → (it.1 ∉ unreadable st) ∧ (it.1 ∉ locked st)) →
  ∃ st', for_each items (λ it, open_write schema kind it.1 it.2) st = (Ok tt, st').
Proof.
  revert st. induction items as [|it items IH]; intros st Hh.
  - by eexists.
  - destruct (Hh it) as [Hu Hl]; [by left|].
    destruct (open_write_healthy schema kind it.1 it.2 st Hu Hl) as [st1 H1].
    cbn [for_each]. unfold bind. rewrite H1.
    apply open_write_frame in H1 as [Hu1 Hl1]. apply IH.
    intros it' Hit. rewrite Hu1, Hl1. apply Hh. by right.
Qed.

Lemma loop_raise items st e st' :
  for_each items (λ it, open_write schema kind it.1 it.2) st = (Raise e, st') →
  ∃ it, it ∈ items ∧
    ((e = IOError ∧ it.1 ∈ unreadable st) ∨ (e = LockError ∧ it.1 ∈ locked st)).
Proof.
  revert st. induction items as [|it items IH]; intros st H.
  - done.
  - cbn [for_each] in H. unfold bind in H.
    destruct (open_write _ _ _ _ st) as [[[]|e1] st1] eqn:H1.
    + apply open_write_frame in H1 as [Hu Hl].
      apply IH in H as (it' & Hit & Hcase). exists it'. rewrite <- Hu, <- Hl.
      split; [by right|done].
    + simplify_eq. apply open_write_raise in H1 as (_ & _ & Hcase).
      exists it. split; [by left|naive_solver].
Qed.
End ScopeLoop.

(** A loop of writer scopes, finished or not, leaves the other shards
    alone. *)
Lemma loop_docs_notin schema kind items st r st' n :
  for_each items (λ it, open_write schema kind it.1 it.2) st = (r, st') →
  n ∉ items.*1 → docs_of st' n = docs_of st n.
Proof.
  revert st. induction items as [|it items IH]; intros st H Hn.
  - by inversion H.
  - rewrite fmap_cons in Hn. apply not_elem_of_cons in Hn as [Hne Hn].
    cbn [for_each] in H. unfold bind in H.
    destruct (open_write _ _ _ _ st) as [[[]|e] st1] eqn:H1.
    + apply open_write_ok in H1 as (_ & _ & _ & Hdocs).
      rewrite (IH st1 H Hn), Hdocs. by rewrite decide_False.
    + inversion H; subst. by apply open_write_raise in H1 as (_ & Hdocs & _).
Qed.

(** A key written by no item keeps its documents. *)
Lemma scope_docs_notin n items sh :
  n ∉ items.*1 → scope_docs n items sh = sh.
Proof.
  unfold scope_docs. revert sh. induction items as [|it items IH]; intros sh Hn; [done|].
  cbn [foldl]. rewrite fmap_cons in Hn. apply not_elem_of_cons in Hn as [Hne Hn].
  rewrite decide_False by done. by apply IH.
Qed.

(** With distinct names, a shard sees exactly its own item. *)
Lemma scope_docs_in n ops items sh :
  NoDup items.*1 → (n, ops) ∈ items → scope_docs n items sh = commit ops sh.
Proof.
  unfold scope_docs. revert sh. induction items as [|it items IH]; intros sh Hnd Hin.
  - by apply elem_of_nil in Hin.
  - rewrite fmap_cons in Hnd. apply NoDup_cons in Hnd as [Hfresh Hnd].
    cbn [foldl]. apply elem_of_cons in Hin as [<-|Hin].
    + simpl. rewrite decide_True by done. by apply scope_docs_notin.
    + rewrite decide_False; [by apply IH|].
      intros ->. apply Hfresh. apply list_elem_of_fmap. by exists (it.1, ops).
Qed.

(** ** Grouping the pending deletes *)

Lemma grouped_step ids g id :
  grouped ids g → grouped (ids ++ [id]) (group_step g id).
Proof.
  destruct g as [units languages], id as [unit language].
  intros (Hu & Hdom & Hl). unfold group_step. simpl in *.
  set (languages1 := if decide (language ∉ dom languages)
                     then <[language := ∅]> languages else languages).
  assert (Hl1 : ∀ l, languages1 !! l
                = if decide (l = language)
                  then Some (default ∅ (languages !! language))
                  else languages !! l).
  { intros l. unfold languages1. case_decide as Hd; case_decide as Hl'; subst.
    - rewrite lookup_insert_eq. apply not_elem_of_dom in Hd. by rewrite Hd.
    - by rewrite lookup_insert_ne.
    - apply elem_of_dom in Hd as [us Hus]. by rewrite Hus.
    - done. }
  split_and!; cbn [fst snd].
  - intros u. rewrite elem_of_union, elem_of_singleton, Hu.
    setoid_rewrite elem_of_app. setoid_rewrite list_elem_of_singleton.
    naive_solver.
  - intros l. destruct (decide (l = language)) as [->|Hne].
    + rewrite lookup_alter_eq, Hl1, decide_True by done. simpl.
      split; [|by eauto]. intros _. exists unit. set_solver.
    + rewrite lookup_alter_ne, Hl1, decide_False, Hdom by done.
      setoid_rewrite elem_of_app. setoid_rewrite list_elem_of_singleton.
      naive_solver.
  - intros l us. destruct (decide (l = language)) as [->|Hne].
    + rewrite lookup_alter_eq, Hl1, decide_True by done. simpl.
      intros [= <-] u. rewrite elem_of_union, elem_of_singleton.
      rewrite elem_of_app, list_elem_of_singleton.
      destruct (languages !! language) as [us0|] eqn:Hus; simpl.
      * rewrite (Hl _ _ Hus). naive_solver.
      * split; [set_solver|]. intros [Hin|?]; [|naive_solver].
        exfalso. assert (is_Some (languages !! language)) as [? ?]; [|congruence].
        apply Hdom. eauto.
    + rewrite lookup_alter_ne, Hl1, decide_False by done.
      intros Hus u. rewrite (Hl _ _ Hus).
      rewrite elem_of_app, list_elem_of_singleton. naive_solver.
Qed.

Lemma grouped_foldl ids ids0 g :
  grouped ids0 g → grouped (ids0 ++ ids) (foldl group_step g ids).
Proof.
  revert ids0 g. induction ids as [|id ids IH]; intros ids0 g Hg.
  - by rewrite app_nil_r.
  - cbn [foldl].
    replace (ids0 ++ id :: ids)%list with ((ids0 ++ [id]) ++ ids)%list
      by (by rewrite <- app_assoc).
    apply IH. by apply grouped_step.
Qed.

Lemma group_ids_grouped ids : grouped ids (group_ids ids).
Proof.
  apply (grouped_foldl ids [] (∅, ∅)).
  split_and!; simpl.
  - intros u. split; [set_solver|]. intros [l Hl]. by apply elem_of_nil in Hl.
  - intros l. rewrite lookup_empty. split; [by intros [? ?]|].
    intros [u Hu]. by apply elem_of_nil in Hu.
  - intros l us. by rewrite lookup_empty.
Qed.

Lemma bind_assoc {A B C} (m : M A) (f : A → M B) (g : B → M C) st :
  bind (bind m f) g st = bind m (λ x, bind (f x) g) st.
Proof. unfold bind. by destruct (m st) as [[a|e] st1]. Qed.

(** ** Deleting *)

Lemma delete_search_units_unfold source_units languages st :
  delete_search_units source_units languages st
  = bind (open_write SourceSchema IndexWriter "source" (delete_ops source_units))
      (λ _, for_each (delete_items languages)
              (λ it, open_write TargetSchema IndexWriter it.1 it.2)) st.
Proof.
  unfold delete_search_units, get_source_index, open_write, bind.
  destruct (open_index SourceSchema "source" st) as [[index|e] st1]; [|done].
  unfold with_writer. rewrite foldl_delete_by_term. fold (delete_ops source_units).
  destruct (decide (index_name index ∈ locked st1)); [done|].
  unfold delete_items. apply for_each_fmap. intros [lang units] st3 _.
  unfold get_target_index, open_write, bind, with_writer. cbn [fst snd].
  destruct (open_index TargetSchema (target_name lang) st3) as [[index'|e] st4];
    [|done].
  by rewrite foldl_delete_by_term.
Qed.

Lemma delete_items_names languages :
  (delete_items languages).*1 = target_name <$> (map_to_list languages).*1.
Proof.
  unfold delete_items. rewrite <- !list_fmap_compose.
  apply list_fmap_ext. by intros ? [??].
Qed.

Lemma delete_items_NoDup languages : NoDup (delete_items languages).*1.
Proof.
  rewrite delete_items_names. apply NoDup_fmap_2.
  - intros ??. apply target_name_inj.
  - apply NoDup_fst_map_to_list.
Qed.

Lemma delete_ops_lookup pks (sh : Shard) p :
  commit (delete_ops pks) sh !! p = if decide (p ∈ pks) then None else sh !! p.
Proof.
  unfold delete_ops. rewrite commit_deletes_lookup.
  destruct (decide (p ∈ pks)) as [H|H].
  - rewrite decide_True; [done|]. by apply elem_of_elements.
  - rewrite decide_False; [done|]. by rewrite elem_of_elements.
Qed.

Lemma delete_search_units_source_unreadable source_units languages st :
  "source" ∈ unreadable st →
  delete_search_units source_units languages st = (Raise IOError, st).
Proof.
  intros H. unfold delete_search_units, get_source_index, bind, open_index.
  by rewrite decide_True.
Qed.

Lemma delete_search_units_ok source_units languages st st' :
  delete_search_units source_units languages st = (Ok tt, st') →
  log st' = (log st ++ WriterScope IndexWriter "source" (delete_ops source_units)
               :: ((λ '(lang, units),
                     WriterScope IndexWriter (target_name lang) (delete_ops units))
                   <$> map_to_list languages))%list ∧
  (∀ p, docs_of st' "source" !! p
        = if decide (p ∈ source_units) then None else docs_of st "source" !! p) ∧
  (∀ lang p, docs_of st' (target_name lang) !! p
        = match languages !! lang with
          | Some units =>
              if decide (p ∈ units) then None
              else docs_of st (target_name lang) !! p
          | None => docs_of st (target_name lang) !! p
          end).
Proof.
  rewrite delete_search_units_unfold. unfold bind. intros H.
  destruct (open_write _ _ _ _ st) as [[[]|e] st1] eqn:H1; [|done].
  apply open_write_ok in H1 as (_ & _ & Hlog1 & Hdocs1).
  apply loop_ok in H as (_ & Hlog & Hdocs). split_and!.
  - rewrite Hlog, Hlog1, <- app_assoc. simpl. do 2 f_equal.
    unfold delete_items. rewrite <- list_fmap_compose.
    apply list_fmap_ext. by intros ? [??].
  - intros p. rewrite Hdocs, scope_docs_notin.
    + rewrite Hdocs1, decide_True by done. apply delete_ops_lookup.
    + rewrite delete_items_names. intros (l & Hl & _)%list_elem_of_fmap.
      by eapply target_name_not_source.
  - intros lang p. rewrite Hdocs.
    assert (Hsrc : docs_of st1 (target_name lang) = docs_of st (target_name lang)).
    { rewrite Hdocs1, decide_False; [done|]. apply target_name_not_source. }
    destruct (languages !! lang) as [units|] eqn:Hlang.
    + rewrite (scope_docs_in _ (delete_ops units)).
      * rewrite delete_ops_lookup. by rewrite Hsrc.
      * apply delete_items_NoDup.
      * unfold delete_items. apply list_elem_of_fmap.
        exists (lang, units). split; [done|]. by apply elem_of_map_to_list.
    + rewrite scope_docs_notin; [by rewrite Hsrc|].
      rewrite delete_items_names.
      intros (l & Hl%target_name_inj & Hin)%list_elem_of_fmap. subst l.
      apply list_elem_of_fmap in Hin as ([l us] & -> & Hin).
      apply elem_of_map_to_list in Hin. simpl in Hlang. congruence.
Qed.

Lemma delete_search_units_healthy source_units languages st :
  unreadable st = ∅ → locked st = ∅ →
  ∃ st', delete_search_units source_units languages st = (Ok tt, st').
Proof.
  intros Hu Hl. rewrite delete_search_units_unfold. unfold bind.
  destruct (open_write_healthy SourceSchema IndexWriter "source"
              (delete_ops source_units) st) as [st1 H1].
  { rewrite Hu. set_solver. } { rewrite Hl. set_solver. }
  rewrite H1. apply open_write_frame in H1 as [Hu1 Hl1].
  apply loop_healthy. intros it _. rewrite Hu1, Hl1, Hu, Hl. set_solver.
Qed.

(** ** The delete task *)

Lemma delete_fulltext_source_unreadable (self : Request (Z * string)) st :
  "source" ∈ unreadable st → delete_fulltext self st = (Failure IOError, st).
Proof.
  intros H. unfold delete_fulltext. destruct (group_ids _) as [units languages].
  by rewrite delete_search_units_source_unreadable.
Qed.

(** The single-unit path of the same class does swallow the I/O error. *)
Lemma delete_search_unit_source_unreadable pk lang st :
  "source" ∈ unreadable st → delete_search_unit pk lang st = (Ok tt, st).
Proof.
  intros H. unfold delete_search_unit, try_except, get_source_index, bind, open_index.
  by rewrite decide_True.
Qed.

(** C1: a batched delete flush whose source shard cannot be opened does not
    complete as a no-op: the I/O error leaves [delete_fulltext] and the job
    fails, while [delete_search_unit] returns normally on the same store. *)
Theorem delete_fulltext_io_error_propagates :
  delete_fulltext {| args := [(1%Z, "cs")]; retries := 0 |} unreadable_store
  = (Failure IOError, unreadable_store)
  ∧ delete_search_unit 1 "cs" unreadable_store = (Ok tt, unreadable_store).
Proof.
  split.
  - apply delete_fulltext_source_unreadable.
    unfold unreadable_store; cbn [unreadable]; set_solver.
  - apply delete_search_unit_source_unreadable.
    unfold unreadable_store; cbn [unreadable]; set_solver.
Qed.

(** C2: on a store without contention, the delete flush groups the pending
    pairs into the set of all unit ids and the per-language sets, then runs
    one writer scope on the source shard deleting every id of the union and
    one writer scope per named language deleting only that language's ids. *)
Theorem delete_fulltext_groups_and_deletes (self : Request (Z * string)) (st : Store) :
  unreadable st = ∅ → locked st = ∅ →
  ∃ units languages st',
    group_ids (args self) = (units, languages) ∧
    (∀ u, u ∈ units ↔ ∃ l, (u, l) ∈ args self) ∧
    (∀ l, is_Some (languages !! l) ↔ ∃ u, (u, l) ∈ args self) ∧
    (∀ l us, languages !! l = Some us → ∀ u, u ∈ us ↔ (u, l) ∈ args self) ∧
    delete_fulltext self st = (Success, st') ∧
    log st' = (log st
               ++ WriterScope IndexWriter "source"
                    (DeleteByTerm "pk" <$> elements units)
               :: ((λ '(l, us), WriterScope IndexWriter (target_name l)
                                  (DeleteByTerm "pk" <$> elements us))
                   <$> map_to_list languages))%list ∧
    NoDup (map_to_list languages).*1 ∧
    (∀ p, docs_of st' "source" !! p
          = (if decide (p ∈ units) then None else docs_of st "source" !! p)) ∧
    (∀ l p, docs_of st' (target_name l) !! p
          = (if decide ((p, l) ∈ args self) then None
             else docs_of st (target_name l) !! p)).
Proof.
  intros Hu Hl. destruct (group_ids (args self)) as [units languages] eqn:Hg.
  pose proof (group_ids_grouped (args self)) as (Hunits & Hdom & Hlang).
  rewrite Hg in Hunits, Hdom, Hlang. cbn [fst snd] in *.
  destruct (delete_search_units_healthy units languages st Hu Hl) as [st' Hrun].
  exists units, languages, st'. split_and!; try done.
  - unfold delete_fulltext, extract_batch_args. by rewrite Hg, Hrun.
  - by apply delete_search_units_ok in Hrun as (? & _).
  - apply NoDup_fst_map_to_list.
  - by apply delete_search_units_ok in Hrun as (_ & ? & _).
  - apply delete_search_units_ok in Hrun as (_ & _ & Htgt). intros l p.
    rewrite Htgt. destruct (languages !! l) as [us|] eqn:Hus.
    + destruct (decide (p ∈ us)) as [Hin|Hin].
      * rewrite decide_True; [done|]. by apply (Hlang l us).
      * rewrite decide_False; [done|]. by rewrite <- (Hlang l us).
    + rewrite decide_False; [done|]. intros Hin.
      assert (is_Some (languages !! l)) as [? ?]; [|congruence].
      apply Hdom. eauto.
Qed.

Lemma delete_fulltext_groups_and_deletes_witness :
  unreadable empty_store = ∅ ∧ locked empty_store = ∅ ∧
  ∃ units languages st',
    group_ids [(1%Z, "cs"); (3%Z, "de"); (1%Z, "de")] = (units, languages) ∧
    delete_fulltext {| args := [(1%Z, "cs"); (3%Z, "de"); (1%Z, "de")]; retries := 0 |}
      empty_store = (Success, st') ∧
    docs_of st' "source" !! 1%Z = None.
Proof.
  split; [reflexivity|]. split; [reflexivity|].
  destruct (delete_fulltext_groups_and_deletes
              {| args := [(1%Z, "cs"); (3%Z, "de"); (1%Z, "de")]; retries := 0 |}
              empty_store eq_refl eq_refl)
    as (units & languages & st' & Hg & Hu & _ & _ & Hrun & _ & _ & Hsrc & _).
  exists units, languages, st'. split_and!; [done..|].
  rewrite Hsrc, decide_True; [done|]. apply Hu. exists "cs". by left.
Defined.

(** ** Updating *)

(** Items that agree on a shard and are idempotent count once. *)
Lemma scope_docs_fixed n ops items sh :
  (∀ it, it ∈ items → it.1 = n → it.2 = ops) →
  commit ops (commit ops sh) = commit ops sh →
  scope_docs n items (commit ops sh) = commit ops sh.
Proof.
  intros Hsame Hidem. unfold scope_docs.
  induction items as [|it items IH]; [done|]. cbn [foldl].
  case_decide as Hn.
  - rewrite (Hsame it) by (by left || done). rewrite Hidem.
    apply IH. intros it' Hit'. apply Hsame. by right.
  - apply IH. intros it' Hit'. apply Hsame. by right.
Qed.

Lemma scope_docs_same n ops items sh :
  (∀ it, it ∈ items → it.1 = n → it.2 = ops) →
  commit ops (commit ops sh) = commit ops sh →
  scope_docs n items sh = (if decide (n ∈ items.*1) then commit ops sh else sh).
Proof.
  intros Hsame Hidem. case_decide as Hin; [|by apply scope_docs_notin].
  revert Hsame Hin. unfold scope_docs.
  induction items as [|it items IH]; intros Hsame Hin.
  - by apply elem_of_nil in Hin.
  - cbn [foldl]. case_decide as Hn.
    + rewrite (Hsame it) by (by left || done).
      apply scope_docs_fixed; [|done]. intros it' Hit'. apply Hsame. by right.
    + apply IH; [intros it' Hit'; apply Hsame; by right|].
      rewrite fmap_cons in Hin. apply elem_of_cons in Hin as [?|?]; done.
Qed.

Lemma bind_ext {A B} (m m' : M A) (k k' : A → M B) st :
  m st = m' st → (∀ a st, k a st = k' a st) → bind m k st = bind m' k' st.
Proof. intros Hm Hk. unfold bind. rewrite Hm. by destruct (m' st) as [[a|e] st1]. Qed.

Lemma for_each_ext {A} (f g : A → M unit) (l : list A) st :
  (∀ x st, f x st = g x st) → for_each l f st = for_each l g st.
Proof.
  intros Hext. revert st. induction l as [|x l IH]; intros st; [done|].
  cbn [for_each]. apply bind_ext; [apply Hext|]. intros _ st1. apply IH.
Qed.

Lemma update_index_unfold languages units st :
  update_index languages units st
  = bind (if bool_decide (units ≠ [])
          then open_write SourceSchema BufferedWriter "source" (source_ops units)
          else ret tt)
      (λ _, for_each (target_items languages units)
              (λ it, open_write TargetSchema BufferedWriter it.1 it.2)) st.
Proof.
  unfold update_index. apply bind_ext.
  - case_bool_decide; [|done]. unfold get_source_index.
    rewrite open_then_write. by rewrite foldl_update_source.
  - intros _ st1. unfold target_items, written_languages.
    rewrite (for_each_filter (λ lang, language_units units lang ≠ [])).
    + apply for_each_fmap. intros lang st2 [Hne _]%list_elem_of_filter. cbv zeta.
      rewrite bool_decide_true by done.
      unfold get_target_index. cbv zeta. rewrite open_then_write.
      by rewrite foldl_update_target.
    + intros lang st2 Hempty. cbv zeta. by rewrite bool_decide_false.
Qed.

Lemma code_inj (l1 l2 : Language) : code l1 = code l2 → l1 = l2.
Proof. destruct l1, l2. simpl. by intros ->. Qed.

Lemma target_items_names languages units :
  (target_items languages units).*1
  = (λ lang, target_name (code lang)) <$> written_languages languages units.
Proof. unfold target_items. by rewrite <- list_fmap_compose. Qed.

Lemma update_index_ok languages units st st' :
  update_index languages units st = (Ok tt, st') →
  log st' = (log st
             ++ (if bool_decide (units ≠ [])
                 then [WriterScope BufferedWriter "source" (source_ops units)]
                 else [])
             ++ ((λ lang, WriterScope BufferedWriter (target_name (code lang))
                            (target_ops (language_units units lang)))
                 <$> written_languages languages units))%list ∧
  docs_of st' "source" = commit (source_ops units) (docs_of st "source") ∧
  ∀ lang, docs_of st' (target_name (code lang))
          = (if decide (lang ∈ languages)
             then commit (target_ops (language_units units lang))
                    (docs_of st (target_name (code lang)))
             else docs_of st (target_name (code lang))).
Proof.
  rewrite update_index_unfold. unfold bind. intros H.
  match type of H with
  | context [(if ?b then ?x else ?y) st] =>
      destruct ((if b then x else y) st) as [[[]|e] st1] eqn:H1; [|done]
  end.
  assert (Hfirst :
    log st1 = (log st ++ (if bool_decide (units ≠ [])
                          then [WriterScope BufferedWriter "source" (source_ops units)]
                          else []))%list ∧
    ∀ n, docs_of st1 n
         = (if decide (n = "source") then commit (source_ops units) (docs_of st "source")
            else docs_of st n)).
  { case_bool_decide as Hunits.
    - by apply open_write_ok in H1 as (_ & _ & ? & ?).
    - inversion H1. subst st1 units.
      split; [by rewrite app_nil_r|].
      intros n. case_decide; [|done]. by subst n. }
  clear H1. destruct Hfirst as [Hlog1 Hdocs1].
  apply loop_ok in H as (_ & Hlog & Hdocs). split_and!.
  - rewrite Hlog, Hlog1, <- app_assoc. do 2 f_equal.
    unfold target_items. by rewrite <- list_fmap_compose.
  - rewrite Hdocs, scope_docs_notin.
    + by rewrite Hdocs1, decide_True.
    + rewrite target_items_names. intros (l & Hl & _)%list_elem_of_fmap.
      by eapply target_name_not_source.
  - intros lang. rewrite Hdocs, Hdocs1.
    rewrite decide_False by apply target_name_not_source.
    rewrite (scope_docs_same _ (target_ops (language_units units lang))).
    + rewrite target_items_names.
      destruct (decide (lang ∈ languages)) as [Hin|Hin].
      * destruct (decide (language_units units lang = [])) as [Hempty|Hne].
        -- rewrite Hempty. by case_decide.
        -- rewrite decide_True; [done|]. apply list_elem_of_fmap. exists lang.
           split; [done|]. by apply list_elem_of_filter.
      * rewrite decide_False; [done|].
        intros (l & Hl%target_name_inj%code_inj & Hl')%list_elem_of_fmap. subst l.
        by apply list_elem_of_filter in Hl' as [_ ?].
    + intros it (l & -> & _)%list_elem_of_fmap. cbn [fst snd].
      by intros ->%target_name_inj%code_inj.
    + apply commit_updates_idemp.
Qed.

Lemma update_index_healthy languages units st :
  unreadable st = ∅ → locked st = ∅ →
  ∃ st', update_index languages units st = (Ok tt, st').
Proof.
  intros Hu Hl. rewrite update_index_unfold. unfold bind.
  assert (∃ st1, (if bool_decide (units ≠ [])
                  then open_write SourceSchema BufferedWriter "source" (source_ops units)
                  else ret tt) st = (Ok tt, st1)
                 ∧ unreadable st1 = ∅ ∧ locked st1 = ∅) as (st1 & -> & Hu1 & Hl1).
  { case_bool_decide.
    - destruct (open_write_healthy SourceSchema BufferedWriter "source"
                  (source_ops units) st) as [st1 H1].
      { rewrite Hu. set_solver. } { rewrite Hl. set_solver. }
      exists st1. split; [done|].
      apply open_write_frame in H1 as [-> ->]. done.
    - by exists st. }
  apply loop_healthy. intros it _. rewrite Hu1, Hl1. set_solver.
Qed.

(** The source shard is committed before any target shard is opened: a lock
    failure on a target shard leaves it written. *)
Lemma update_index_lock_keeps_source languages units st st' :
  update_index languages units st = (Raise LockError, st') →
  "source" ∉ locked st →
  docs_of st' "source" = commit (source_ops units) (docs_of st "source").
Proof.
  rewrite update_index_unfold. unfold bind. intros H Hl.
  assert (Hnotin : "source" ∉ (target_items languages units).*1).
  { rewrite target_items_names. intros (l & Hl' & _)%list_elem_of_fmap.
    by eapply target_name_not_source. }
  case_bool_decide as Hunits.
  - destruct (open_write _ _ _ _ st) as [[[]|e] st1] eqn:H1.
    + apply open_write_ok in H1 as (_ & _ & _ & Hdocs).
      rewrite (loop_docs_notin _ _ _ _ _ _ _ H Hnotin), Hdocs.
      by rewrite decide_True.
    + inversion H; subst.
      by apply open_write_raise in H1 as (_ & _ & [[? _]|(_ & _ & ?)]).
  - subst units. unfold ret in H.
    by rewrite (loop_docs_notin _ _ _ _ _ _ _ H Hnotin).
Qed.

Lemma last_filter_elem {A} (P : A → Prop) `{!∀ x, Decision (P x)} (l : list A) x :
  x ∈ l → P x → ∃ y, last (filter P l) = Some y ∧ y ∈ l ∧ P y.
Proof.
  intros Hx HP.
  destruct (last (filter P l)) as [y|] eqn:Hlast.
  - exists y. split; [done|]. apply last_Some_elem_of in Hlast.
    by apply list_elem_of_filter in Hlast as [? ?].
  - apply last_None in Hlast.
    assert (x ∈ filter P l) as Hin by by apply list_elem_of_filter.
    rewrite Hlast in Hin. by apply elem_of_nil in Hin.
Qed.

Lemma last_filter_none {A} (P : A → Prop) `{!∀ x, Decision (P x)} (l : list A) :
  (∀ x, x ∈ l → ¬ P x) → last (filter P l) = None.
Proof.
  intros Hnone. apply last_None.
  destruct (filter P l) as [|y f] eqn:Hf; [done|].
  assert (y ∈ filter P l) as [? ?]%list_elem_of_filter by (rewrite Hf; by left).
  by destruct (Hnone y).
Qed.

Lemma NoDup_key_inj {A B} (f : A → B) (l : list A) x y :
  NoDup (f <$> l) → x ∈ l → y ∈ l → f x = f y → x = y.
Proof.
  induction l as [|a l IH]; intros Hnd Hx Hy Hf.
  - by apply elem_of_nil in Hx.
  - rewrite fmap_cons in Hnd. apply NoDup_cons in Hnd as [Hfresh Hnd].
    apply elem_of_cons in Hx as [->|Hx]; apply elem_of_cons in Hy as [->|Hy].
    + done.
    + exfalso. apply Hfresh. rewrite Hf. apply list_elem_of_fmap. by exists y.
    + exfalso. apply Hfresh. rewrite <- Hf. apply list_elem_of_fmap. by exists x.
    + by apply IH.
Qed.

(** C4: after a successful update flush every unit of the batch has a
    document in the source shard (its own, keys being distinct); a unit with a
    non-empty target in a language that has translations has its document in
    that language's target shard; and for a language without translations, or
    a key whose units have no non-empty target in that language, the flush
    writes nothing to the target shard.  On a store without contention the
    flush succeeds. *)
Theorem update_index_documents languages units st :
  (unreadable st = ∅ → locked st = ∅ →
   ∃ st', update_index languages units st = (Ok tt, st')) ∧
  ∀ st', update_index languages units st = (Ok tt, st') →
    (∀ u, u ∈ units →
       ∃ u', u' ∈ units ∧ unit_pk u' = unit_pk u ∧
             docs_of st' "source" !! unit_pk u = Some (source_doc u')) ∧
    (∀ u, u ∈ units → unit_target u ≠ "" → unit_language u ∈ languages →
       ∃ u', u' ∈ units ∧ unit_pk u' = unit_pk u ∧
             unit_language u' = unit_language u ∧ unit_target u' ≠ "" ∧
             docs_of st' (target_name (code (unit_language u))) !! unit_pk u
             = Some (target_doc u')) ∧
    (∀ lang p,
       lang ∉ languages
       ∨ (∀ u, u ∈ units → unit_pk u = p →
               unit_language u ≠ lang ∨ unit_target u = "") →
       docs_of st' (target_name (code lang)) !! p
       = docs_of st (target_name (code lang)) !! p) ∧
    (∀ kind name ops, WriterScope kind name ops ∈ drop (length (log st)) (log st') →
       (name = "source" ∧ ops = source_ops units)
       ∨ ∃ lang, lang ∈ languages ∧ name = target_name (code lang) ∧
           language_units units lang ≠ [] ∧
           ops = target_ops (language_units units lang)) ∧
    (NoDup (unit_pk <$> units) → ∀ u, u ∈ units →
       docs_of st' "source" !! unit_pk u = Some (source_doc u) ∧
       (unit_target u ≠ "" → unit_language u ∈ languages →
        docs_of st' (target_name (code (unit_language u))) !! unit_pk u
        = Some (target_doc u))).
Proof.
  split; [apply update_index_healthy|].
  intros st' (Hlog & Hsrc & Htgt)%update_index_ok.
  assert (Hsource : ∀ u, u ∈ units →
       ∃ u', u' ∈ units ∧ unit_pk u' = unit_pk u ∧
             docs_of st' "source" !! unit_pk u = Some (source_doc u')).
  { intros u Hu. rewrite Hsrc. unfold source_ops. rewrite commit_updates_lookup.
    destruct (last_filter_elem (λ u', unit_pk u' = unit_pk u) units u Hu eq_refl)
      as (u' & -> & Hu' & Hpk). by exists u'. }
  assert (Htarget : ∀ u, u ∈ units → unit_target u ≠ "" → unit_language u ∈ languages →
       ∃ u', u' ∈ units ∧ unit_pk u' = unit_pk u ∧
             unit_language u' = unit_language u ∧ unit_target u' ≠ "" ∧
             docs_of st' (target_name (code (unit_language u))) !! unit_pk u
             = Some (target_doc u')).
  { intros u Hu Htarget Hlang. rewrite Htgt, decide_True by done.
    unfold target_ops. rewrite commit_updates_lookup.
    destruct (last_filter_elem (λ u', unit_pk u' = unit_pk u)
                (language_units units (unit_language u)) u) as (u' & -> & Hu' & Hpk);
      [by apply list_elem_of_filter|done|].
    apply list_elem_of_filter in Hu' as [[? ?] ?]. by exists u'. }
  split_and!; [exact Hsource|exact Htarget|..].
  - intros lang p Hcase. rewrite Htgt. case_decide as Hin; [|done].
    destruct Hcase as [?|Hnone]; [done|].
    unfold target_ops. rewrite commit_updates_lookup.
    rewrite last_filter_none; [done|].
    intros u [[Hl Ht] Hu]%list_elem_of_filter Hp.
    by destruct (Hnone u Hu Hp).
  - intros kind name ops. rewrite Hlog, drop_app_length.
    intros [Hin|Hin]%elem_of_app.
    + left. case_bool_decide; [|by apply elem_of_nil in Hin].
      apply list_elem_of_singleton in Hin. by inversion Hin.
    + right. apply list_elem_of_fmap in Hin as (lang & Heq & Hl).
      apply list_elem_of_filter in Hl as [? ?]. inversion Heq; subst. by exists lang.
  - intros Hnd u Hu. split.
    + destruct (Hsource u Hu) as (u' & Hu' & Hpk & ->).
      by rewrite (NoDup_key_inj unit_pk units u' u Hnd Hu' Hu Hpk).
    + intros Ht Hl. destruct (Htarget u Hu Ht Hl) as (u' & Hu' & Hpk & _ & _ & ->).
      by rewrite (NoDup_key_inj unit_pk units u' u Hnd Hu' Hu Hpk).
Qed.

Lemma update_index_documents_witness :
  ∃ st', update_index [cs; de] [hello_cs; hello_de; world_de] empty_store = (Ok tt, st') ∧
    docs_of st' "source" !! 2%Z = Some (source_doc hello_de) ∧
    docs_of st' (target_name (code de)) !! 2%Z = None ∧
    docs_of st' (target_name (code de)) !! 3%Z = Some (target_doc world_de).
Proof.
  destruct (update_index_documents [cs; de] [hello_cs; hello_de; world_de] empty_store)
    as [Hruns Hdocs].
  destruct (Hruns eq_refl eq_refl) as [st' Hrun]. exists st'. split; [done|].
  destruct (Hdocs st' Hrun) as (_ & _ & Hnone & _ & _).
  apply update_index_ok in Hrun as (_ & Hsrc & Htgt).
  split_and!.
  - rewrite Hsrc. reflexivity.
  - rewrite (Hnone de 2%Z); [reflexivity|]. right.
    intros u Hu Hpk. repeat (apply elem_of_cons in Hu as [->|Hu]); try done.
    + by right.
    + by apply elem_of_nil in Hu.
  - rewrite (Htgt de). reflexivity.
Defined.

(** ** Retrying a batch *)

Lemma retry_spec {A} (self : Request A) exc :
  retry self exc
  = (if decide (retries self < max_retries)%nat
     then Retried {| args := args self; retries := S (retries self) |}
     else Failure exc).
Proof. unfold retry. repeat case_decide; (done || lia). Qed.

Lemma retry_Retried {A} (self again : Request A) exc :
  retry self exc = Retried again →
  args again = args self ∧ retries again = S (retries self)
  ∧ (retries self < max_retries)%nat.
Proof. rewrite retry_spec. case_decide; [|done]. by intros [= <-]. Qed.

Lemma update_fulltext_Retried Unit_objects languages self st again st' :
  update_fulltext Unit_objects languages self st = (Retried again, st') →
  args again = args self ∧ retries again = S (retries self)
  ∧ (retries self < max_retries)%nat.
Proof.
  unfold update_fulltext. destruct (update_index _ _ st) as [[[]|exc] st1]; [done|].
  case_decide as Hexc; [|done]. intros [= Hr _]. by apply retry_Retried in Hr.
Qed.

Lemma delete_fulltext_Retried self st again st' :
  delete_fulltext self st = (Retried again, st') →
  args again = args self ∧ retries again = S (retries self)
  ∧ (retries self < max_retries)%nat.
Proof.
  unfold delete_fulltext. destruct (group_ids _) as [units languages].
  destruct (delete_search_units _ _ st) as [[[]|exc] st1]; [done|].
  case_decide as Hexc; [|done]. intros [= Hr _]. by apply retry_Retried in Hr.
Qed.

Section Delivery.
Context {A : Type}.
Variable task : Request A → Store → TaskOutcome A * Store.
Variable interfere : nat → Store → Store.

Hypothesis task_Retried : ∀ self st again st',
  task self st = (Retried again, st') →
  args again = args self ∧ retries again = S (retries self)
  ∧ (retries self < max_retries)%nat.

(** The job system never runs out of fuel within [max_retries + 1]
    executions, and every execution is of the original batch. *)
Lemma deliver_bounded fuel self st :
  (retries self ≤ max_retries)%nat → (S max_retries - retries self ≤ fuel)%nat →
  ∃ executed outcome st',
    deliver task interfere fuel self st = (executed, Some outcome, st') ∧
    (∀ again, outcome ≠ Retried again) ∧
    (length executed + retries self ≤ S max_retries)%nat ∧
    Forall (λ r, args r = args self) executed.
Proof.
  revert self st. induction fuel as [|fuel IH]; intros self st Hle Hfuel; [lia|].
  cbn [deliver].
  destruct (task self (interfere (retries self) st)) as [outcome st1] eqn:Hrun.
  destruct outcome as [|again|e].
  - exists [self], Success, st1. split_and!; [done|done|simpl; lia|].
    by apply Forall_singleton.
  - apply task_Retried in Hrun as (Hargs & Hretries & Hlt).
    destruct (IH again st1) as (executed & outcome & st2 & -> & Hfinal & Hlen & Hall);
      [lia..|].
    exists (self :: executed), outcome, st2. split_and!; [done|done|simpl; lia|].
    apply Forall_cons. split; [done|]. by rewrite <- Hargs.
  - exists [self], (Failure e), st1. split_and!; [done|done|simpl; lia|].
    by apply Forall_singleton.
Qed.

(** Persistent contention: every execution ends in [retry]. *)
Variable contention : Store → Prop.
Hypothesis interfere_contention : ∀ n st, contention st → contention (interfere n st).
Variable batch : list A.
Hypothesis task_contention : ∀ n st,
  contention st →
  ∃ st', task {| args := batch; retries := n |} st
         = (retry {| args := batch; retries := n |} LockError, st')
         ∧ contention st'.

Lemma deliver_contended fuel n st :
  contention st → (n ≤ max_retries)%nat → fuel = (S max_retries - n)%nat →
  ∃ st', deliver task interfere fuel {| args := batch; retries := n |} st
         = (attempts batch n fuel, Some (Failure LockError), st').
Proof.
  revert n st. induction fuel as [|fuel IH]; intros n st Hst Hle Hfuel; [lia|].
  cbn [deliver retries].
  destruct (task_contention n (interfere n st))
    as (st1 & -> & Hst1); [by apply interfere_contention|].
  rewrite retry_spec. cbn [retries args]. case_decide as Hlt.
  - destruct (IH (S n) st1) as (st2 & -> ); [done|lia|lia|]. by exists st2.
  - assert (fuel = 0)%nat as -> by lia. by exists st1.
Qed.
End Delivery.

(** ** Lock failures *)

Lemma open_write_outcome schema kind name ops st :
  (open_write schema kind name ops st).1
  = (if decide (name ∈ unreadable st) then Raise IOError
     else if decide (name ∈ locked st) then Raise LockError else Ok tt).
Proof.
  unfold open_write, bind, open_index, with_writer.
  destruct (decide (name ∈ unreadable st)); [done|].
  destruct (shards st !! name); cbn [index_name locked set_shards];
    by destruct (decide (name ∈ locked st)).
Qed.

(** Whether a loop of writer scopes succeeds, and how it fails, depends on
    the store only through the locks and the accessibility. *)
Lemma loop_outcome_ext schema kind items st1 st2 :
  unreadable st1 = unreadable st2 → locked st1 = locked st2 →
  (for_each items (λ it, open_write schema kind it.1 it.2) st1).1
  = (for_each items (λ it, open_write schema kind it.1 it.2) st2).1.
Proof.
  revert st1 st2. induction items as [|it items IH]; intros st1 st2 Hu Hl; [done|].
  cbn [for_each]. unfold bind.
  pose proof (open_write_outcome schema kind it.1 it.2 st1) as H1.
  pose proof (open_write_outcome schema kind it.1 it.2 st2) as H2.
  rewrite Hu, Hl, <- H2 in H1.
  destruct (open_write schema kind it.1 it.2 st1) as [r1 st1'] eqn:Hrun1.
  destruct (open_write schema kind it.1 it.2 st2) as [r2 st2'] eqn:Hrun2.
  cbn [fst] in H1. subst r2.
  apply open_write_frame in Hrun1 as [Hu1 Hl1].
  apply open_write_frame in Hrun2 as [Hu2 Hl2].
  destruct r1 as [[]|e]; [|done]. apply IH; congruence.
Qed.

Lemma update_index_outcome_ext languages units st1 st2 :
  unreadable st1 = unreadable st2 → locked st1 = locked st2 →
  (update_index languages units st1).1 = (update_index languages units st2).1.
Proof.
  intros Hu Hl. rewrite !update_index_unfold. unfold bind.
  case_bool_decide.
  - pose proof (open_write_outcome SourceSchema BufferedWriter "source"
                  (source_ops units) st1) as H1.
    pose proof (open_write_outcome SourceSchema BufferedWriter "source"
                  (source_ops units) st2) as H2.
    rewrite Hu, Hl, <- H2 in H1.
    destruct (open_write _ _ _ _ st1) as [r1 st1'] eqn:Hrun1.
    destruct (open_write _ _ _ _ st2) as [r2 st2'] eqn:Hrun2.
    cbn [fst] in H1. subst r2.
    apply open_write_frame in Hrun1 as [Hu1 Hl1].
    apply open_write_frame in Hrun2 as [Hu2 Hl2].
    destruct r1 as [[]|e]; [|done]. apply loop_outcome_ext; congruence.
  - unfold ret. by apply loop_outcome_ext.
Qed.

Lemma delete_search_units_outcome_ext source_units languages st1 st2 :
  unreadable st1 = unreadable st2 → locked st1 = locked st2 →
  (delete_search_units source_units languages st1).1
  = (delete_search_units source_units languages st2).1.
Proof.
  intros Hu Hl. rewrite !delete_search_units_unfold. unfold bind.
  pose proof (open_write_outcome SourceSchema IndexWriter "source"
                (delete_ops source_units) st1) as H1.
  pose proof (open_write_outcome SourceSchema IndexWriter "source"
                (delete_ops source_units) st2) as H2.
  rewrite Hu, Hl, <- H2 in H1.
  destruct (open_write _ _ _ _ st1) as [r1 st1'] eqn:Hrun1.
  destruct (open_write _ _ _ _ st2) as [r2 st2'] eqn:Hrun2.
  cbn [fst] in H1. subst r2.
  apply open_write_frame in Hrun1 as [Hu1 Hl1].
  apply open_write_frame in Hrun2 as [Hu2 Hl2].
  destruct r1 as [[]|e]; [|done]. apply loop_outcome_ext; congruence.
Qed.

Lemma delete_search_units_locks source_units languages st r st' :
  delete_search_units source_units languages st = (r, st') →
  unreadable st' = unreadable st ∧ locked st' = locked st.
Proof.
  rewrite delete_search_units_unfold. unfold bind. intros H.
  destruct (open_write _ _ _ _ st) as [[[]|e] st1] eqn:H1.
  - apply open_write_frame in H1 as [Hu1 Hl1].
    apply loop_frame in H as [Hu Hl]. split; congruence.
  - inversion H; subst. by apply open_write_frame in H1.
Qed.

Lemma update_index_locks languages units st r st' :
  update_index languages units st = (r, st') →
  unreadable st' = unreadable st ∧ locked st' = locked st.
Proof.
  rewrite update_index_unfold. unfold bind. intros H.
  case_bool_decide.
  - destruct (open_write _ _ _ _ st) as [[[]|e] st1] eqn:H1.
    + apply open_write_frame in H1 as [Hu1 Hl1].
      apply loop_frame in H as [Hu Hl]. split; congruence.
    + inversion H; subst. by apply open_write_frame in H1.
  - unfold ret in H. by apply loop_frame in H.
Qed.

(** A held lock on a shard of the loop fails it with the lock error, when
    the indices can be opened. *)
Lemma loop_locked schema kind items st :
  (∀ it, it ∈ items → it.1 ∉ unreadable st) →
  (∃ it, it ∈ items ∧ it.1 ∈ locked st) →
  (for_each items (λ it, open_write schema kind it.1 it.2) st).1 = Raise LockError.
Proof.
  revert st. induction items as [|it items IH]; intros st Hu (it' & Hin & Hl).
  - by apply elem_of_nil in Hin.
  - cbn [for_each]. unfold bind.
    pose proof (open_write_outcome schema kind it.1 it.2 st) as Hout.
    rewrite decide_False in Hout by (apply Hu; by left).
    destruct (open_write schema kind it.1 it.2 st) as [r st1] eqn:Hrun.
    cbn [fst] in Hout. subst r.
    apply open_write_frame in Hrun as [Hu1 Hl1].
    destruct (decide (it.1 ∈ locked st)) as [Hlocked|Hfree]; [done|].
    apply IH.
    + intros it0 Hit0. rewrite Hu1. apply Hu. by right.
    + exists it'. rewrite Hl1. split; [|done].
      apply elem_of_cons in Hin as [->|Hin]; done.
Qed.

Lemma update_index_locked languages units st :
  unreadable st = ∅ →
  (∃ name, name ∈ update_shards languages units ∧ name ∈ locked st) →
  (update_index languages units st).1 = Raise LockError.
Proof.
  intros Hu (name & Hin & Hl). rewrite update_index_unfold. unfold bind.
  unfold update_shards in Hin. apply elem_of_app in Hin as [Hin|Hin].
  - case_bool_decide; [|by apply elem_of_nil in Hin].
    apply list_elem_of_singleton in Hin as ->.
    pose proof (open_write_outcome SourceSchema BufferedWriter "source"
                  (source_ops units) st) as Hout.
    rewrite decide_False, decide_True in Hout; [|done|rewrite Hu; set_solver].
    destruct (open_write _ _ _ _ st) as [r st1]. cbn [fst] in Hout. by subst r.
  - apply list_elem_of_fmap in Hin as (it & -> & Hit).
    assert (Hloop : ∀ st1, unreadable st1 = unreadable st → locked st1 = locked st →
      (for_each (target_items languages units)
         (λ it, open_write TargetSchema BufferedWriter it.1 it.2) st1).1
      = Raise LockError).
    { intros st1 Hu1 Hl1. apply loop_locked.
      - intros it0 _. rewrite Hu1, Hu. set_solver.
      - exists it. by rewrite Hl1. }
    case_bool_decide.
    + pose proof (open_write_outcome SourceSchema BufferedWriter "source"
                    (source_ops units) st) as Hout.
      rewrite decide_False in Hout by (rewrite Hu; set_solver).
      destruct (open_write _ _ _ _ st) as [r st1] eqn:Hrun. cbn [fst] in Hout. subst r.
      apply open_write_frame in Hrun as [Hu1 Hl1].
      case_decide; [done|]. by apply Hloop.
    + unfold ret. by apply Hloop.
Qed.

Lemma delete_search_units_locked source_units languages st :
  unreadable st = ∅ →
  (∃ name, name ∈ delete_shards languages ∧ name ∈ locked st) →
  (delete_search_units source_units languages st).1 = Raise LockError.
Proof.
  intros Hu (name & Hin & Hl). rewrite delete_search_units_unfold. unfold bind.
  pose proof (open_write_outcome SourceSchema IndexWriter "source"
                (delete_ops source_units) st) as Hout.
  rewrite decide_False in Hout by (rewrite Hu; set_solver).
  destruct (open_write _ _ _ _ st) as [r st1] eqn:Hrun. cbn [fst] in Hout. subst r.
  apply open_write_frame in Hrun as [Hu1 Hl1].
  case_decide as Hsrc; [done|].
  unfold delete_shards in Hin. apply elem_of_cons in Hin as [->|Hin]; [done|].
  apply list_elem_of_fmap in Hin as (it & -> & Hit).
  apply loop_locked.
  - intros it0 _. rewrite Hu1, Hu. set_solver.
  - exists it. by rewrite Hl1.
Qed.

(** A failed attempt leaves the locks as they are: the next attempt fails
    in the same way unless somebody releases the lock. *)
Lemma update_flush_lock_persists Unit_objects languages batch st :
  lock_fails (update_flush Unit_objects languages batch) st →
  lock_fails (update_flush Unit_objects languages batch)
    (update_flush Unit_objects languages batch st).2.
Proof.
  unfold lock_fails, update_flush. intros H.
  destruct (update_index _ _ st) as [r st'] eqn:Hrun. cbn [fst snd] in *.
  pose proof (update_index_locks _ _ _ _ _ Hrun) as [Hu Hl].
  rewrite (update_index_outcome_ext _ _ st' st) by done.
  by rewrite Hrun.
Qed.

Lemma update_fulltext_LockError Unit_objects languages self st :
  lock_fails (update_flush Unit_objects languages (args self)) st →
  update_fulltext Unit_objects languages self st
  = ((if decide (retries self < max_retries)%nat
      then Retried {| args := args self; retries := S (retries self) |}
      else Failure LockError),
     (update_flush Unit_objects languages (args self) st).2).
Proof.
  unfold lock_fails, update_flush, update_fulltext, extract_batch_args.
  destruct (update_index _ _ st) as [r st']. cbn [fst snd]. intros ->.
  rewrite decide_True by done. by rewrite retry_spec.
Qed.

Lemma delete_fulltext_LockError self st :
  lock_fails (delete_flush (args self)) st →
  delete_fulltext self st
  = ((if decide (retries self < max_retries)%nat
      then Retried {| args := args self; retries := S (retries self) |}
      else Failure LockError),
     (delete_flush (args self) st).2).
Proof.
  unfold lock_fails, delete_flush, delete_fulltext, extract_batch_args.
  destruct (group_ids (args self)) as [units languages]. cbn [fst snd].
  destruct (delete_search_units _ _ st) as [r st']. cbn [fst snd]. intros ->.
  rewrite decide_True by done. by rewrite retry_spec.
Qed.

Lemma update_fulltext_Retried_lock Unit_objects languages self st again st' :
  update_fulltext Unit_objects languages self st = (Retried again, st') →
  lock_fails (update_flush Unit_objects languages (args self)) st.
Proof.
  unfold lock_fails, update_flush, update_fulltext, extract_batch_args.
  destruct (update_index _ _ st) as [[[]|exc] st1]; [done|].
  case_decide as Hexc; [|done]. by subst.
Qed.

Lemma delete_fulltext_Retried_lock self st again st' :
  delete_fulltext self st = (Retried again, st') →
  lock_fails (delete_flush (args self)) st.
Proof.
  unfold lock_fails, delete_flush, delete_fulltext, extract_batch_args.
  destruct (group_ids (args self)) as [units languages]. cbn [fst snd].
  destruct (delete_search_units _ _ st) as [[[]|exc] st1]; [done|].
  case_decide as Hexc; [|done]. by subst.
Qed.

(** C3: the index write of a flush fails with the lock error when somebody
    else holds the lock of a shard it writes (source or target, the indices
    being accessible).  A batch-flush job (update or delete) whose index
    write fails with the lock error is sent again with its whole batch unchanged and the
    counter incremented, as long as the counter is below 1000, and fails
    permanently with the lock error once it has reached 1000; nothing but a
    lock failure makes it send the batch again.  Whatever the other workers
    do, the job system executes a batch at most 1001 times, always with the
    whole batch, and never ends on a retry.  Under persistent contention
    (the lock failure outlasts what the other workers do) the batch is
    executed exactly 1001 times, so retried exactly 1000 times, and then
    fails permanently. *)
Theorem flush_retry_bounded :
  max_retries = 1000%nat ∧
  (∀ Unit_objects languages batch st,
     unreadable st = ∅ →
     (∃ name, name ∈ update_shards languages
                       (filter (λ unit, unit_pk unit ∈ batch) Unit_objects)
              ∧ name ∈ locked st) →
     lock_fails (update_flush Unit_objects languages batch) st) ∧
  (∀ batch st,
     unreadable st = ∅ →
     (∃ name, name ∈ delete_shards (group_ids batch).2 ∧ name ∈ locked st) →
     lock_fails (delete_flush batch) st) ∧
  (∀ Unit_objects languages self st,
     lock_fails (update_flush Unit_objects languages (args self)) st →
     (update_fulltext Unit_objects languages self st).1
     = (if decide (retries self < max_retries)%nat
        then Retried {| args := args self; retries := S (retries self) |}
        else Failure LockError)) ∧
  (∀ self st,
     lock_fails (delete_flush (args self)) st →
     (delete_fulltext self st).1
     = (if decide (retries self < max_retries)%nat
        then Retried {| args := args self; retries := S (retries self) |}
        else Failure LockError)) ∧
  (∀ Unit_objects languages self st again st',
     update_fulltext Unit_objects languages self st = (Retried again, st') →
     lock_fails (update_flush Unit_objects languages (args self)) st ∧
     args again = args self ∧ retries again = S (retries self)
     ∧ (retries self < max_retries)%nat) ∧
  (∀ self st again st',
     delete_fulltext self st = (Retried again, st') →
     lock_fails (delete_flush (args self)) st ∧
     args again = args self ∧ retries again = S (retries self)
     ∧ (retries self < max_retries)%nat) ∧
  (∀ Unit_objects languages interfere batch st,
     ∃ executed outcome st',
       deliver (update_fulltext Unit_objects languages) interfere (S max_retries)
         {| args := batch; retries := 0 |} st = (executed, Some outcome, st') ∧
       (∀ again, outcome ≠ Retried again) ∧
       (length executed ≤ S max_retries)%nat ∧
       Forall (λ r, args r = batch) executed) ∧
  (∀ interfere batch st,
     ∃ executed outcome st',
       deliver delete_fulltext interfere (S max_retries)
         {| args := batch; retries := 0 |} st = (executed, Some outcome, st') ∧
       (∀ again, outcome ≠ Retried again) ∧
       (length executed ≤ S max_retries)%nat ∧
       Forall (λ r, args r = batch) executed) ∧
  (∀ Unit_objects languages interfere batch st,
     (∀ n st, lock_fails (update_flush Unit_objects languages batch) st →
              lock_fails (update_flush Unit_objects languages batch) (interfere n st)) →
     lock_fails (update_flush Unit_objects languages batch) st →
     ∃ st', deliver (update_fulltext Unit_objects languages) interfere (S max_retries)
              {| args := batch; retries := 0 |} st
            = (attempts batch 0 (S max_retries), Some (Failure LockError), st')) ∧
  (∀ interfere batch st,
     (∀ n st, lock_fails (delete_flush batch) st →
              lock_fails (delete_flush batch) (interfere n st)) →
     lock_fails (delete_flush batch) st →
     ∃ st', deliver delete_fulltext interfere (S max_retries)
              {| args := batch; retries := 0 |} st
            = (attempts batch 0 (S max_retries), Some (Failure LockError), st')).
Proof.
  split_and!.
  - done.
  - intros Unit_objects languages batch st Hu Hl. by apply update_index_locked.
  - intros batch st Hu Hl. by apply delete_search_units_locked.
  - intros Unit_objects languages self st H.
    by rewrite update_fulltext_LockError.
  - intros self st H. by rewrite delete_fulltext_LockError.
  - intros Unit_objects languages self st again st' H. split.
    + by apply update_fulltext_Retried_lock in H.
    + by apply update_fulltext_Retried in H.
  - intros self st again st' H. split.
    + by apply delete_fulltext_Retried_lock in H.
    + by apply delete_fulltext_Retried in H.
  - intros Unit_objects languages interfere batch st.
    destruct (deliver_bounded (update_fulltext Unit_objects languages) interfere
                (update_fulltext_Retried Unit_objects languages)
                (S max_retries) {| args := batch; retries := 0 |} st)
      as (executed & outcome & st' & Hrun & Hfinal & Hlen & Hall);
      [cbn [retries]; lia..|].
    exists executed, outcome, st'. split_and!; [done|done|lia|done].
  - intros interfere batch st.
    destruct (deliver_bounded delete_fulltext interfere delete_fulltext_Retried
                (S max_retries) {| args := batch; retries := 0 |} st)
      as (executed & outcome & st' & Hrun & Hfinal & Hlen & Hall);
      [cbn [retries]; lia..|].
    exists executed, outcome, st'. split_and!; [done|done|lia|done].
  - intros Unit_objects languages interfere batch st Hinterfere Hst.
    apply (deliver_contended (update_fulltext Unit_objects languages) interfere
             (lock_fails (update_flush Unit_objects languages batch))
             Hinterfere batch); [|done|lia|lia].
    intros n st0 Hst0. eexists. split.
    + rewrite update_fulltext_LockError by done. by rewrite retry_spec.
    + by apply update_flush_lock_persists.
  - intros interfere batch st Hinterfere Hst.
    apply (deliver_contended delete_fulltext interfere
             (lock_fails (delete_flush batch)) Hinterfere batch); [|done|lia|lia].
    intros n st0 Hst0. eexists. split.
    + rewrite delete_fulltext_LockError by done. by rewrite retry_spec.
    + unfold lock_fails, delete_flush in *.
      destruct (delete_search_units _ _ st0) as [r st1] eqn:Hrun. cbn [fst snd] in *.
      pose proof (delete_search_units_locks _ _ _ _ _ Hrun) as [Hu Hl].
      rewrite (delete_search_units_outcome_ext _ _ st1 st0) by done.
      by rewrite Hrun.
Qed.

Lemma flush_retry_bounded_witness :
  lock_fails (update_flush [hello_cs] [cs] [1%Z]) contended_store ∧
  ∃ st', deliver (update_fulltext [hello_cs] [cs]) (λ _ st, st) (S max_retries)
           {| args := [1%Z]; retries := 0 |} contended_store
         = (attempts [1%Z] 0 (S max_retries), Some (Failure LockError), st').
Proof.
  assert (Hst : lock_fails (update_flush [hello_cs] [cs] [1%Z]) contended_store).
  { by vm_compute. }
  split; [exact Hst|].
  destruct flush_retry_bounded as (_ & _ & _ & _ & _ & _ & _ & _ & _ & Hupdate & _).
  apply Hupdate; [|exact Hst]. by intros _ st.
Defined.

(** ** Queries and hits *)

Section SearchFacts.
Context `{!Engine}.

Lemma matches_foldl_or q queries d :
  matches (foldl (λ x y, Or [x; y]) q queries) d
  = matches q d || existsb (λ q', matches q' d) queries.
Proof.
  revert q. induction queries as [|q' queries IH]; intros q.
  - cbn [foldl existsb]. by rewrite orb_false_r.
  - cbn [foldl existsb]. rewrite IH. cbn [matches existsb].
    rewrite orb_false_r. by rewrite orb_assoc.
Qed.

Lemma reduce_or_matches queries terms d :
  reduce_or queries = Ok terms →
  matches terms d = existsb (λ q, matches q d) queries.
Proof.
  destruct queries as [|q queries]; [done|]. intros [= <-].
  apply matches_foldl_or.
Qed.

Lemma elem_of_matching sh q p :
  p ∈ matching sh q ↔ ∃ d, sh !! p = Some d ∧ matches q d = true.
Proof.
  unfold matching. rewrite elem_of_dom. unfold is_Some.
  setoid_rewrite map_lookup_filter_Some. naive_solver.
Qed.

Lemma hits_keys sh q :
  (hits sh q).*1
  ≡ₚ (filter (λ '(pk, d), matches q d = true) (map_to_list sh)).*1.
Proof.
  unfold hits. rewrite merge_sort_Permutation. rewrite <- list_fmap_compose.
  apply reflexive_eq. apply list_fmap_ext. by intros ? [??].
Qed.

Lemma NoDup_hits_keys sh q : NoDup (hits sh q).*1.
Proof.
  rewrite hits_keys. apply (sublist_NoDup _ (map_to_list sh).*1).
  - apply NoDup_fst_map_to_list.
  - apply fmap_sublist, sublist_filter.
Qed.

Lemma elem_of_hits_keys sh q p : p ∈ (hits sh q).*1 ↔ p ∈ matching sh q.
Proof.
  rewrite hits_keys, elem_of_matching, list_elem_of_fmap. split.
  - intros ([p' d] & -> & [Hm Hin]%list_elem_of_filter).
    apply elem_of_map_to_list in Hin. by exists d.
  - intros (d & Hd & Hm). exists (p, d). split; [done|].
    apply list_elem_of_filter. split; [done|]. by apply elem_of_map_to_list.
Qed.

Lemma hits_scores sh q h : h ∈ hits sh q → ∃ d, h.2 = scoring q d.
Proof.
  unfold hits. rewrite merge_sort_Permutation.
  intros ([p d] & -> & _)%list_elem_of_fmap. by exists d.
Qed.

Lemma list_to_set_hits sh q :
  list_to_set (hits sh q).*1 =@{gset Z} matching sh q.
Proof.
  apply set_eq. intros p. rewrite elem_of_list_to_set. apply elem_of_hits_keys.
Qed.

(** The OR of the parsed queries matches on any enabled field. *)
Lemma matching_terms_of sh search fields schema query :
  enabled search fields ≠ [] →
  matching sh (terms_of search fields schema query)
  = shard_result sh query search fields.
Proof.
  intros Hne. unfold terms_of, shard_result.
  destruct (reduce_or _) as [terms|e] eqn:Hred.
  - apply set_eq. intros p. rewrite elem_of_matching, elem_of_union_list.
    setoid_rewrite (reduce_or_matches _ _ _ Hred). split.
    + intros (d & Hd & (q & Hq & Hm)%existsb_exists).
      apply list_elem_of_In, list_elem_of_fmap in Hq as (field & -> & Hfield).
      exists (field_matches sh field query). split.
      * apply list_elem_of_fmap. by exists field.
      * apply elem_of_matching. by exists d.
    + intros (X & (field & -> & Hfield)%list_elem_of_fmap
                & (d & Hd & Hm)%elem_of_matching).
      exists d. split; [done|]. apply existsb_exists.
      exists (Parsed field query). split; [|done].
      apply list_elem_of_In, list_elem_of_fmap. by exists field.
  - destruct (enabled search fields); done.
Qed.

Lemma shard_result_disabled sh query search fields :
  enabled search fields = [] → shard_result sh query search fields = ∅.
Proof. unfold shard_result. by intros ->. Qed.
End SearchFacts.

(** ** Searching the shards *)

Lemma same_docs_refl st : same_docs st st.
Proof. by split. Qed.

Lemma same_docs_trans st1 st2 st3 :
  same_docs st1 st2 → same_docs st2 st3 → same_docs st1 st3.
Proof.
  intros [Hu1 Hd1] [Hu2 Hd2]. split; [congruence|].
  intros n. by rewrite Hd2, Hd1.
Qed.

Lemma open_index_run schema name st :
  ∃ st', open_index schema name st
         = ((if decide (name ∈ unreadable st) then Raise IOError
             else Ok {| index_name := name; index_schema := schema |}), st')
         ∧ same_docs st st' ∧ log st' = log st.
Proof.
  unfold open_index. case_decide as Hu.
  - exists st. split_and!; [done|apply same_docs_refl|done].
  - destruct (shards st !! name) as [sh|] eqn:Hs.
    + exists st. split_and!; [done|apply same_docs_refl|done].
    + eexists. split_and!; [done| |done]. split; [done|].
      intros n. rewrite docs_of_insert. case_decide; [|done]. subst.
      unfold docs_of. by rewrite Hs.
Qed.

Section SearchRuns.
Context `{!Engine}.

Lemma elem_of_shard_result sh query search fields p :
  p ∈ shard_result sh query search fields
  ↔ ∃ field d, field ∈ fields ∧ getitem search field = true
               ∧ sh !! p = Some d ∧ parsed_matches field query d = true.
Proof.
  unfold shard_result, enabled, field_matches. rewrite elem_of_union_list. split.
  - intros (X & (field & -> & [Hon Hin]%list_elem_of_filter)%list_elem_of_fmap
              & (d & Hd & Hm)%elem_of_matching).
    by exists field, d.
  - intros (field & d & Hin & Hon & Hd & Hm).
    exists (matching sh (Parsed field query)). split.
    + apply list_elem_of_fmap. exists field. split; [done|].
      by apply list_elem_of_filter.
    + apply elem_of_matching. by exists d.
Qed.

(** The parse loop of [base_search]: the parsed queries of the enabled
    fields, or the parser's error at the first text it rejects. *)
Lemma parse_loop_run query schema search params queries st :
  for_fold params queries (λ queries param,
    if getitem search param then
      parsed ⇐ lift (parse param schema query) ;;
      ret (queries ++ [parsed])%list
    else ret queries) st
  = ((if decide (accepted query (enabled search params))
      then Ok (queries ++ ((λ param, Parsed param query)
                             <$> enabled search params))%list
      else Raise QueryParserError), st).
Proof.
  revert queries. unfold accepted, enabled.
  induction params as [|param params IH]; intros queries.
  - cbn [for_fold]. rewrite filter_nil. rewrite decide_True; [|by apply Forall_nil].
    unfold ret. by rewrite fmap_nil, app_nil_r.
  - cbn [for_fold]. rewrite filter_cons. unfold bind at 1.
    destruct (decide (getitem search param = true)) as [Hon|Hon].
    + rewrite Hon. unfold bind, lift, parse, ret.
      destruct (query_parses param query) eqn:Hparse.
      * rewrite IH. destruct (decide (Forall _ (filter _ params))) as [Hall|Hall].
        -- rewrite decide_True by (by apply Forall_cons).
           by rewrite fmap_cons, <- app_assoc.
        -- rewrite decide_False; [done|]. by intros [_ ?]%Forall_cons.
      * rewrite decide_False; [done|]. intros [? _]%Forall_cons. congruence.
    + apply not_true_is_false in Hon. rewrite Hon. unfold ret. apply IH.
Qed.

Lemma base_search_run index query fields search schema st :
  enabled search fields ≠ [] → accepted query (enabled search fields) →
  base_search index query fields search schema st
  = (Ok (hits (docs_of st (index_name index))
           (terms_of search fields schema query)).*1,
     add_log (Searched (index_name index)
                (terms_of search fields schema query) None) st).
Proof.
  intros Hne Hacc. unfold base_search, bind at 1. unfold index_searcher.
  unfold bind at 1. rewrite parse_loop_run, decide_True by done.
  rewrite app_nil_l. unfold bind, lift, terms_of.
  destruct (enabled search fields) as [|field fields']; [done|].
  reflexivity.
Qed.

Lemma base_search_rejected index query fields search schema st :
  ¬ accepted query (enabled search fields) →
  base_search index query fields search schema st = (Raise QueryParserError, st).
Proof.
  intros Hacc. unfold base_search, bind at 1. unfold index_searcher.
  unfold bind at 1. by rewrite parse_loop_run, decide_False.
Qed.


Lemma shard_outcome_ext name fields query search st st' pks :
  same_docs st st' →
  shard_outcome name fields query search st' pks
  = shard_outcome name fields query search st pks.
Proof. intros [Hu Hd]. unfold shard_outcome. by rewrite Hu, Hd. Qed.

Lemma search_shard_run schema name fields query search pks st :
  enabled search fields ≠ [] →
  ∃ st', search_shard schema name fields query search pks st
         = (shard_outcome name fields query search st pks, st')
         ∧ same_docs st st'
         ∧ log st' = (log st ++ (if decide (name ∈ unreadable st) then []
                                 else if decide (accepted query (enabled search fields))
                                 then [Searched name
                                         (terms_of search fields schema query) None]
                                 else []))%list.
Proof.
  intros Hne. unfold search_shard, shard_outcome, bind.
  destruct (open_index_run schema name st) as (st1 & -> & Hsame & Hlog).
  case_decide as Hu.
  - exists st1. split_and!; [done|done|by rewrite app_nil_r].
  - destruct (decide (accepted query (enabled search fields))) as [Hacc|Hacc].
    + rewrite base_search_run by done. cbn [index_name]. eexists. split_and!.
      * unfold ret. do 2 f_equal. rewrite list_to_set_hits.
        rewrite matching_terms_of by done. by rewrite (proj2 Hsame).
      * done.
      * cbn [log add_log]. by rewrite Hlog.
    + rewrite base_search_rejected by done. exists st1.
      split_and!; [done|done|by rewrite app_nil_r].
Qed.
End SearchRuns.

Section SearchLoop.
Context `{!Engine}.

Lemma source_toggles search :
  getitem search "source" || getitem search "context" || getitem search "location"
  = bool_decide (enabled search source_fields ≠ []).
Proof.
  unfold enabled, source_fields. rewrite !filter_cons, filter_nil.
  by destruct (getitem search "source"), (getitem search "context"),
    (getitem search "location").
Qed.

Lemma target_toggles search :
  getitem search "target" || getitem search "comment"
  = bool_decide (enabled search target_fields ≠ []).
Proof.
  unfold enabled, target_fields. rewrite !filter_cons, filter_nil.
  by destruct (getitem search "target"), (getitem search "comment").
Qed.

Lemma targets_outcome_ext langs query search st st' pks :
  same_docs st st' →
  targets_outcome langs query search st' pks
  = targets_outcome langs query search st pks.
Proof.
  intros Hsame. revert pks. induction langs as [|lang langs IH]; intros pks; [done|].
  cbn [targets_outcome]. rewrite (shard_outcome_ext _ _ _ _ st st') by done.
  destruct (shard_outcome _ _ _ _ st pks); [apply IH|done].
Qed.

(** What the loop over the languages returns when it succeeds, and what
    makes it succeed. *)
Lemma targets_outcome_Ok langs query search st pks pks' :
  targets_outcome langs query search st pks = Ok pks' ↔
  pks' = pks ∪ ⋃ ((λ lang, shard_result (docs_of st (target_name lang))
                             query search target_fields) <$> langs)
  ∧ Forall (λ lang, target_name lang ∉ unreadable st) langs
  ∧ (langs = [] ∨ accepted query (enabled search target_fields)).
Proof.
  revert pks. induction langs as [|lang langs IH]; intros pks.
  - cbn [targets_outcome]. rewrite fmap_nil, union_list_nil, (right_id_L ∅ (∪)).
    split; [intros [= <-]|intros (-> & _)]; [|done].
    split_and!; [done|by apply Forall_nil|by left].
  - cbn [targets_outcome]. unfold shard_outcome.
    rewrite fmap_cons, union_list_cons, Forall_cons.
    destruct (decide (target_name lang ∈ unreadable st)) as [Hu|Hu].
    { split; [done|]. by intros (_ & [? _] & _). }
    destruct (decide (accepted query (enabled search target_fields))) as [Hacc|Hacc].
    + rewrite IH, (assoc_L (∪)). naive_solver.
    + split; [done|]. by intros (_ & _ & [?|?]).
Qed.

Lemma targets_outcome_Raise langs query search st pks e :
  targets_outcome langs query search st pks = Raise e →
  (e = IOError ∧ Exists (λ lang, target_name lang ∈ unreadable st) langs)
  ∨ (e = QueryParserError ∧ langs ≠ []
     ∧ ¬ accepted query (enabled search target_fields)).
Proof.
  revert pks. induction langs as [|lang langs IH]; intros pks; [done|].
  cbn [targets_outcome]. unfold shard_outcome.
  destruct (decide (target_name lang ∈ unreadable st)) as [Hu|Hu].
  { intros [= <-]. left. split; [done|]. by apply Exists_cons_hd. }
  destruct (decide (accepted query (enabled search target_fields))) as [Hacc|Hacc].
  - intros [[-> Hex]|(-> & _ & ?)]%IH; [left|done].
    split; [done|]. by apply Exists_cons_tl.
  - intros [= <-]. by right.
Qed.

Lemma target_loop_run query search langs pks st :
  enabled search target_fields ≠ [] →
  ∃ st',
    for_fold langs pks (λ pks lang,
      search_shard TargetSchema (target_name lang) target_fields query search pks) st
    = (targets_outcome langs query search st pks, st')
    ∧ same_docs st st'
    ∧ (Forall (λ lang, target_name lang ∉ unreadable st) langs →
       langs = [] ∨ accepted query (enabled search target_fields) →
       log st' = (log st ++ ((λ lang, Searched (target_name lang)
                               (terms_of search target_fields TargetSchema query) None)
                             <$> langs))%list).
Proof.
  intros Hne. revert pks st. induction langs as [|lang langs IH]; intros pks st.
  - exists st. split_and!; [done|apply same_docs_refl|].
    intros _ _. by rewrite app_nil_r.
  - cbn [for_fold targets_outcome]. unfold bind.
    destruct (search_shard_run TargetSchema (target_name lang) target_fields
                query search pks st Hne) as (st1 & -> & Hsame1 & Hlog1).
    destruct (shard_outcome (target_name lang) target_fields query search st pks)
      as [pks1|e] eqn:Hout.
    + destruct (IH pks1 st1) as (st2 & -> & Hsame2 & Hlog2).
      exists st2. split_and!.
      * by rewrite (targets_outcome_ext _ _ _ st st1).
      * by apply (same_docs_trans st st1 st2).
      * intros [Hu Hall]%Forall_cons [?|Hacc]; [done|]. rewrite Hlog2.
        -- rewrite Hlog1, decide_False, decide_True by done.
           by rewrite fmap_cons, <- app_assoc.
        -- by rewrite (proj1 Hsame1).
        -- by right.
    + exists st1. split_and!; [done|done|].
      intros [Hu _]%Forall_cons [?|Hacc]; [done|]. unfold shard_outcome in Hout.
      by rewrite decide_False, decide_True in Hout.
Qed.

Lemma search_unfold query langs params st :
  search query langs params st
  = bind (if bool_decide (enabled (params ∪ defaults) source_fields ≠ [])
          then search_shard SourceSchema "source" source_fields query
                 (params ∪ defaults) ∅
          else ret ∅)
      (λ pks, bind (if bool_decide (enabled (params ∪ defaults) target_fields ≠ [])
                    then for_fold langs pks (λ pks lang,
                           search_shard TargetSchema (target_name lang) target_fields
                             query (params ∪ defaults) pks)
                    else ret pks) ret) st.
Proof.
  unfold search. rewrite source_toggles, target_toggles. reflexivity.
Qed.

Lemma accepted_parsed_fields query langs params :
  accepted query (parsed_fields langs params) ↔
  accepted query (enabled (params ∪ defaults) source_fields)
  ∧ (langs = [] ∨ accepted query (enabled (params ∪ defaults) target_fields)).
Proof.
  unfold accepted, parsed_fields. rewrite Forall_app.
  destruct (decide (langs = [])); [|naive_solver].
  split; [intros [? _]; split; [done|by left]|intros [? _]; split; [done|]].
  by apply Forall_nil.
Qed.

Lemma search_run query langs params st :
  ∃ st', search query langs params st = (search_outcome query langs params st, st')
         ∧ same_docs st st'
         ∧ (unreadable st = ∅ → accepted query (parsed_fields langs params) →
            log st'
            = (log st
               ++ (if bool_decide (enabled (params ∪ defaults) source_fields ≠ [])
                   then [Searched "source"
                           (terms_of (params ∪ defaults) source_fields SourceSchema query)
                           None]
                   else [])
               ++ (if bool_decide (enabled (params ∪ defaults) target_fields ≠ [])
                   then (λ lang, Searched (target_name lang)
                           (terms_of (params ∪ defaults) target_fields TargetSchema query)
                           None) <$> langs
                   else []))%list).
Proof.
  rewrite search_unfold. unfold search_outcome. cbv zeta.
  set (toggles := params ∪ defaults). unfold bind.
  assert (Hsrc : ∃ st1,
    (if bool_decide (enabled toggles source_fields ≠ [])
     then search_shard SourceSchema "source" source_fields query toggles ∅
     else ret ∅) st
    = ((if decide (enabled toggles source_fields ≠ [])
        then shard_outcome "source" source_fields query toggles st ∅
        else Ok ∅), st1)
    ∧ same_docs st st1
    ∧ (unreadable st = ∅ → accepted query (enabled toggles source_fields) →
       log st1 = (log st ++ (if bool_decide (enabled toggles source_fields ≠ [])
                             then [Searched "source"
                                     (terms_of toggles source_fields SourceSchema query)
                                     None]
                             else []))%list)).
  { destruct (decide (enabled toggles source_fields ≠ [])) as [Hon|Hon].
    - rewrite !bool_decide_true by done.
      destruct (search_shard_run SourceSchema "source" source_fields query toggles ∅
                  st Hon) as (st1 & -> & Hsame & Hlog).
      exists st1. split_and!; [done|done|].
      intros Hu Hacc. rewrite Hlog, decide_False, decide_True; [done|done|].
      rewrite Hu. set_solver.
    - rewrite !bool_decide_false by done.
      exists st. split_and!; [done|apply same_docs_refl|]. intros _ _.
      by rewrite app_nil_r. }
  destruct Hsrc as (st1 & -> & Hsame1 & Hlog1).
  destruct (if decide (enabled toggles source_fields ≠ [])
            then shard_outcome "source" source_fields query toggles st ∅
            else Ok ∅) as [pks|e] eqn:Hout.
  2:{ exists st1. split_and!; [done|done|].
      intros Hu [Hacc _]%accepted_parsed_fields. exfalso.
      case_decide; [|done]. unfold shard_outcome in Hout.
      rewrite decide_False, decide_True in Hout; [done|done|].
      rewrite Hu. set_solver. }
  destruct (decide (enabled toggles target_fields ≠ [])) as [Hon|Hon].
  - rewrite !bool_decide_true by done.
    destruct (target_loop_run query toggles langs pks st1 Hon)
      as (st2 & -> & Hsame2 & Hlog2).
    exists st2. split_and!.
    + rewrite (targets_outcome_ext _ _ _ st st1) by done.
      by destruct (targets_outcome langs query toggles st pks).
    + by apply (same_docs_trans st st1 st2).
    + intros Hu [Hacc1 Hacc2]%accepted_parsed_fields.
      rewrite Hlog2, Hlog1, <- app_assoc; [done|done|done| |done].
      apply Forall_forall. intros l _. rewrite (proj1 Hsame1), Hu. set_solver.
  - rewrite !bool_decide_false by done.
    exists st1. split_and!; [done|done|].
    intros Hu [Hacc _]%accepted_parsed_fields. rewrite Hlog1 by done.
    by rewrite app_nil_r.
Qed.
End SearchLoop.

(** ** The search operation *)

Section SearchTheorems.
Context `{!Engine}.

Lemma defaults_false field b : defaults !! field = Some b → b = false.
Proof.
  assert (Hall : map_Forall (λ _ b, b = false) defaults).
  { apply (bool_decide_unpack _). by vm_compute. }
  apply Hall.
Qed.

(** The toggles after [search.update(params)]: a field is on exactly when
    the caller's mapping says so. *)
Lemma getitem_toggles (params : gmap string bool) field :
  getitem (params ∪ defaults) field = default false (params !! field).
Proof.
  unfold getitem. destruct (params !! field) as [b|] eqn:Hp.
  - by rewrite (lookup_union_Some_l _ _ _ _ Hp).
  - rewrite lookup_union_r by done.
    destruct (defaults !! field) as [b|] eqn:Hd; [|done].
    by apply defaults_false in Hd.
Qed.

Lemma getitem_toggles_true (params : gmap string bool) field :
  getitem (params ∪ defaults) field = true ↔ params !! field = Some true.
Proof.
  rewrite getitem_toggles. destruct (params !! field) as [[]|]; naive_solver.
Qed.

(** The five keys are always present: [search[param]] cannot fail. *)
Lemma toggles_total (params : gmap string bool) field :
  field ∈ (source_fields ++ target_fields)%list →
  is_Some ((params ∪ defaults) !! field).
Proof.
  intros Hin. apply lookup_union_is_Some. right.
  unfold source_fields, target_fields in Hin. simpl in Hin.
  repeat (apply elem_of_cons in Hin as [->|Hin]; [by eexists|]).
  by apply elem_of_nil in Hin.
Qed.

Lemma matches_terms_of search fields schema query d :
  matches (terms_of search fields schema query) d
  = existsb (λ field, parsed_matches field query d) (enabled search fields).
Proof.
  unfold terms_of. destruct (reduce_or _) as [terms|e] eqn:Hred.
  - rewrite (reduce_or_matches _ _ _ Hred). clear Hred.
    induction (enabled search fields) as [|f fs IH]; [done|].
    rewrite fmap_cons. cbn [existsb]. by rewrite IH.
  - by destruct (enabled search fields).
Qed.

Lemma union_targets_disabled (langs : list string) sh query search :
  enabled search target_fields = [] →
  ⋃ ((λ lang, shard_result (sh lang) query search target_fields) <$> langs)
  = (∅ : gset Z).
Proof.
  intros Hoff. apply set_eq. intros p. rewrite elem_of_union_list.
  split; [|set_solver].
  intros (X & (l & -> & _)%list_elem_of_fmap & Hp).
  by rewrite shard_result_disabled in Hp.
Qed.

Lemma union_targets_langs (langs1 langs2 : list string) (f : string → gset Z) :
  (∀ lang, lang ∈ langs1 ↔ lang ∈ langs2) →
  ⋃ (f <$> langs1) = ⋃ (f <$> langs2).
Proof.
  intros Hsame. apply set_eq. intros p. rewrite !elem_of_union_list.
  setoid_rewrite list_elem_of_fmap. by setoid_rewrite Hsame.
Qed.

(** When [search] succeeds, and with what. *)
Lemma search_outcome_Ok_iff query langs params st pks :
  search_outcome query langs params st = Ok pks ↔
  pks = search_union query langs (params ∪ defaults) st
  ∧ (enabled (params ∪ defaults) source_fields ≠ [] →
     ("source" ∉ unreadable st)
     ∧ accepted query (enabled (params ∪ defaults) source_fields))
  ∧ (enabled (params ∪ defaults) target_fields ≠ [] →
     Forall (λ lang, target_name lang ∉ unreadable st) langs
     ∧ (langs = [] ∨ accepted query (enabled (params ∪ defaults) target_fields))).
Proof.
  unfold search_outcome, search_union. cbv zeta.
  set (toggles := params ∪ defaults).
  destruct (decide (enabled toggles source_fields ≠ [])) as [Hsrc|Hsrc].
  - unfold shard_outcome.
    destruct (decide ("source" ∈ unreadable st)) as [Hu|Hu].
    { split; [done|]. intros (_ & Hs & _). by destruct (Hs Hsrc). }
    destruct (decide (accepted query (enabled toggles source_fields))) as [Hacc|Hacc].
    2:{ split; [done|]. intros (_ & Hs & _). by destruct (Hs Hsrc). }
    rewrite (left_id_L ∅ (∪)).
    destruct (decide (enabled toggles target_fields ≠ [])) as [Htgt|Htgt].
    + rewrite targets_outcome_Ok. naive_solver.
    + apply dec_stable in Htgt. rewrite union_targets_disabled by done.
      rewrite (right_id_L ∅ (∪)). naive_solver.
  - apply dec_stable in Hsrc. rewrite (shard_result_disabled _ _ _ _ Hsrc).
    destruct (decide (enabled toggles target_fields ≠ [])) as [Htgt|Htgt].
    + rewrite targets_outcome_Ok. naive_solver.
    + apply dec_stable in Htgt. rewrite union_targets_disabled by done.
      rewrite (right_id_L ∅ (∪)). naive_solver.
Qed.

Lemma search_outcome_Ok query langs params st pks :
  search_outcome query langs params st = Ok pks →
  pks = search_union query langs (params ∪ defaults) st.
Proof. by intros (? & _)%search_outcome_Ok_iff. Qed.

Lemma search_Ok query langs params st pks :
  (search query langs params st).1 = Ok pks →
  pks = search_union query langs (params ∪ defaults) st.
Proof.
  destruct (search_run query langs params st) as (st' & -> & _).
  apply search_outcome_Ok.
Qed.

(** How [search] fails: on an index it has to open, or on a field the
    parser rejects the query on. *)
Lemma search_outcome_Raise query langs params st e :
  search_outcome query langs params st = Raise e →
  (e = IOError
   ∧ ((enabled (params ∪ defaults) source_fields ≠ [] ∧ "source" ∈ unreadable st)
      ∨ (enabled (params ∪ defaults) target_fields ≠ []
         ∧ Exists (λ lang, target_name lang ∈ unreadable st) langs)))
  ∨ (e = QueryParserError ∧ ¬ accepted query (parsed_fields langs params)).
Proof.
  unfold search_outcome. cbv zeta. set (toggles := params ∪ defaults).
  assert (Htargets : ∀ pks,
    (if decide (enabled toggles target_fields ≠ [])
     then targets_outcome langs query toggles st pks else Ok pks) = Raise e →
    (e = IOError ∧ enabled toggles target_fields ≠ []
     ∧ Exists (λ lang, target_name lang ∈ unreadable st) langs)
    ∨ (e = QueryParserError ∧ ¬ accepted query (parsed_fields langs params))).
  { intros pks. case_decide as Htgt; [|done].
    intros [[-> ?]|(-> & Hne & Hacc)]%targets_outcome_Raise; [by left|right].
    split; [done|]. rewrite accepted_parsed_fields. naive_solver. }
  destruct (decide (enabled toggles source_fields ≠ [])) as [Hsrc|Hsrc].
  - unfold shard_outcome.
    destruct (decide ("source" ∈ unreadable st)) as [Hu|Hu].
    { intros [= <-]. left. split; [done|]. by left. }
    destruct (decide (accepted query (enabled toggles source_fields))) as [Hacc|Hacc].
    + intros [(-> & ? & ?)|?]%Htargets; [left|by right]. split; [done|]. by right.
    + intros [= <-]. right. split; [done|]. rewrite accepted_parsed_fields.
      by intros [? _].
  - intros [(-> & ? & ?)|?]%Htargets; [left|by right]. split; [done|]. by right.
Qed.

Lemma search_outcome_accessible query langs params st :
  unreadable st = ∅ → accepted query (parsed_fields langs params) →
  search_outcome query langs params st
  = Ok (search_union query langs (params ∪ defaults) st).
Proof.
  intros Hu [Hsrc Htgt]%accepted_parsed_fields. apply search_outcome_Ok_iff.
  split_and!; [done|..].
  - intros _. split; [|done]. rewrite Hu. set_solver.
  - intros _. split; [|done]. apply Forall_forall. intros l _. rewrite Hu. set_solver.
Qed.

Lemma search_readable query langs params st :
  unreadable st = ∅ → accepted query (parsed_fields langs params) →
  (search query langs params st).1
  = Ok (search_union query langs (params ∪ defaults) st).
Proof.
  intros Hu Hacc. destruct (search_run query langs params st) as (st' & -> & _).
  by apply search_outcome_accessible.
Qed.

Lemma search_outcome_rejected query langs params st :
  unreadable st = ∅ → ¬ accepted query (parsed_fields langs params) →
  search_outcome query langs params st = Raise QueryParserError.
Proof.
  intros Hu Hacc.
  destruct (search_outcome query langs params st) as [pks|e] eqn:Hout.
  - apply search_outcome_Ok_iff in Hout as (_ & Hsrc & Htgt).
    destruct Hacc. apply accepted_parsed_fields. unfold accepted in *. split.
    + destruct (decide (enabled (params ∪ defaults) source_fields = [])) as [->|Hne].
      * by apply Forall_nil.
      * by destruct (Hsrc Hne).
    + destruct (decide (enabled (params ∪ defaults) target_fields = [])) as [->|Hne].
      * right. by apply Forall_nil.
      * by destruct (Htgt Hne).
  - apply search_outcome_Raise in Hout as [[-> [[_ Hin]|[_ Hex]]]|[-> _]]; [..|done].
    + rewrite Hu in Hin. set_solver.
    + apply Exists_exists in Hex as (l & _ & Hin). rewrite Hu in Hin. set_solver.
Qed.

(** The languages count as a set for the success and the result of
    [search]. *)
Lemma search_outcome_langs_Ok query langs1 langs2 params st pks :
  (∀ lang, lang ∈ langs1 ↔ lang ∈ langs2) →
  search_outcome query langs1 params st = Ok pks →
  search_outcome query langs2 params st = Ok pks.
Proof.
  intros Hsame (-> & Hsrc & Htgt)%search_outcome_Ok_iff.
  apply search_outcome_Ok_iff. split_and!; [|done|].
  - unfold search_union. f_equal. by apply union_targets_langs.
  - intros Hon. destruct (Htgt Hon) as [Hall Hacc]. split.
    + rewrite Forall_forall in Hall |- *. intros l Hl. by apply Hall, Hsame.
    + destruct Hacc as [->|?]; [left|by right].
      destruct langs2 as [|l langs2]; [done|].
      assert (l ∈ @nil string) by (apply Hsame; by left). by apply elem_of_nil in H0.
Qed.

Lemma targets_outcome_accepted langs query search st pks :
  accepted query (enabled search target_fields) →
  targets_outcome langs query search st pks
  = (if decide (Exists (λ lang, target_name lang ∈ unreadable st) langs)
     then Raise IOError
     else Ok (pks ∪ ⋃ ((λ lang, shard_result (docs_of st (target_name lang))
                                 query search target_fields) <$> langs))).
Proof.
  intros Hacc.
  destruct (targets_outcome langs query search st pks) as [pks'|e] eqn:Hout.
  - apply targets_outcome_Ok in Hout as (-> & Hall & _).
    rewrite decide_False; [done|]. intros (l & Hl & Hin)%Exists_exists.
    rewrite Forall_forall in Hall. by apply (Hall l).
  - apply targets_outcome_Raise in Hout as [[-> Hex]|(_ & _ & ?)]; [|done].
    by rewrite decide_True.
Qed.

Lemma search_outcome_langs query langs1 langs2 params st :
  (∀ lang, lang ∈ langs1 ↔ lang ∈ langs2) →
  accepted query (enabled (params ∪ defaults) target_fields) →
  search_outcome query langs1 params st = search_outcome query langs2 params st.
Proof.
  intros Hsame Hacc. unfold search_outcome. cbv zeta.
  destruct (if decide (enabled (params ∪ defaults) source_fields ≠ []) then _ else _)
    as [pks|e]; [|done].
  case_decide; [|done]. rewrite !targets_outcome_accepted by done.
  assert (Hex : Exists (λ lang, target_name lang ∈ unreadable st) langs1
                ↔ Exists (λ lang, target_name lang ∈ unreadable st) langs2).
  { rewrite !Exists_exists. by setoid_rewrite Hsame. }
  destruct (decide (Exists _ langs1)) as [H1|H1].
  - rewrite decide_True; [done|]. by apply Hex.
  - rewrite decide_False; [|intros H2; by apply H1, Hex].
    do 2 f_equal. by apply union_targets_langs.
Qed.
Lemma elem_of_search_union query langs (params : gmap string bool) st p :
  p ∈ search_union query langs (params ∪ defaults) st ↔
  (∃ field d, field ∈ source_fields ∧ params !! field = Some true
              ∧ docs_of st "source" !! p = Some d
              ∧ parsed_matches field query d = true)
  ∨ (∃ lang field d, lang ∈ langs ∧ field ∈ target_fields
              ∧ params !! field = Some true
              ∧ docs_of st (target_name lang) !! p = Some d
              ∧ parsed_matches field query d = true).
Proof.
  unfold search_union. rewrite elem_of_union, elem_of_shard_result.
  rewrite elem_of_union_list.
  setoid_rewrite getitem_toggles_true. split.
  - intros [?|(X & (lang & -> & Hlang)%list_elem_of_fmap & Hp)]; [by left|right].
    apply elem_of_shard_result in Hp as (field & d & ? & ?%getitem_toggles_true & ? & ?).
    by exists lang, field, d.
  - intros [?|(lang & field & d & Hlang & Hfield & Hon & Hd & Hm)]; [by left|right].
    exists (shard_result (docs_of st (target_name lang)) query (params ∪ defaults)
              target_fields). split.
    + apply list_elem_of_fmap. by exists lang.
    + apply elem_of_shard_result. exists field, d.
      by rewrite getitem_toggles_true.
Qed.
End SearchTheorems.

Section SearchClaims.
Context `{!Engine}.

(** C5: on accessible storage and for every query text: when the
    parser accepts the text on the fields [search] parses it on, [search]
    returns the union of what the source shard contributes (the documents
    matching on any enabled field of source, context, location) and what
    every language's target shard contributes (target, comment); it runs
    one search on the source shard when one of its fields is enabled, with
    the OR of the per-field parsed queries, and one search per language of
    the collection when target or comment is enabled.  The result is a set,
    so a key found in several shards, or on several fields, is one element.
    When the parser rejects the text on one of these fields, its error is
    what [search] raises. *)
Theorem search_returns_union query langs params st :
  unreadable st = ∅ →
  (accepted query (parsed_fields langs params) →
   ∃ pks st',
     search query langs params st = (Ok pks, st') ∧
     pks = search_union query langs (params ∪ defaults) st ∧
     (∀ p, p ∈ pks ↔
        (∃ field d, field ∈ source_fields ∧ params !! field = Some true
                    ∧ docs_of st "source" !! p = Some d
                    ∧ parsed_matches field query d = true)
        ∨ (∃ lang field d, lang ∈ langs ∧ field ∈ target_fields
                    ∧ params !! field = Some true
                    ∧ docs_of st (target_name lang) !! p = Some d
                    ∧ parsed_matches field query d = true)) ∧
     log st'
     = (log st
        ++ (if bool_decide (enabled (params ∪ defaults) source_fields ≠ [])
            then [Searched "source"
                    (terms_of (params ∪ defaults) source_fields SourceSchema query)
                    None]
            else [])
        ++ (if bool_decide (enabled (params ∪ defaults) target_fields ≠ [])
            then (λ lang, Searched (target_name lang)
                    (terms_of (params ∪ defaults) target_fields TargetSchema query)
                    None) <$> langs
            else []))%list ∧
     (∀ fields schema d,
        matches (terms_of (params ∪ defaults) fields schema query) d
        = existsb (λ field, parsed_matches field query d)
            (enabled (params ∪ defaults) fields))) ∧
  (¬ accepted query (parsed_fields langs params) →
   (search query langs params st).1 = Raise QueryParserError).
Proof.
  intros Hu.
  destruct (search_run query langs params st) as (st' & Hrun & _ & Hlog).
  split.
  - intros Hacc.
    exists (search_union query langs (params ∪ defaults) st), st'. split_and!.
    + rewrite Hrun. f_equal. by apply search_outcome_accessible.
    + done.
    + intros p. apply elem_of_search_union.
    + by apply Hlog.
    + intros fields schema d. apply matches_terms_of.
  - intros Hacc. rewrite Hrun. by apply search_outcome_rejected.
Qed.

Lemma enabled_off (params : gmap string bool) fields :
  (∀ field, field ∈ fields → params !! field ≠ Some true) →
  enabled (params ∪ defaults) fields = [].
Proof.
  intros Hoff. unfold enabled.
  destruct (filter _ fields) as [|field fs] eqn:Hf; [done|].
  assert (field ∈ filter (λ param, getitem (params ∪ defaults) param = true) fields)
    as [Hon Hin]%list_elem_of_filter by (rewrite Hf; by left).
  apply getitem_toggles_true in Hon. by destruct (Hoff field Hin).
Qed.

(** C8: with none of the five fields enabled, [search] opens no shard and
    returns the empty set; the empty mapping is such a mapping. *)
Theorem search_no_field query langs params st :
  (∀ field, field ∈ (source_fields ++ target_fields)%list →
            params !! field ≠ Some true) →
  search query langs params st = (Ok ∅, st)
  ∧ search query langs ∅ st = (Ok ∅, st).
Proof.
  assert (Hgen : ∀ params : gmap string bool,
    (∀ field, field ∈ (source_fields ++ target_fields)%list →
              params !! field ≠ Some true) →
    search query langs params st = (Ok ∅, st)).
  { intros params' Hoff. rewrite search_unfold. unfold bind.
    rewrite !enabled_off.
    - done.
    - intros field Hin. apply Hoff. apply elem_of_app. by right.
    - intros field Hin. apply Hoff. apply elem_of_app. by left. }
  intros Hoff. split; [by apply Hgen|]. apply Hgen.
  intros field _. by rewrite lookup_empty.
Qed.

Lemma enabled_ext (search1 search2 : gmap string bool) fields :
  (∀ field, field ∈ fields → getitem search1 field = getitem search2 field) →
  enabled search1 fields = enabled search2 fields.
Proof.
  intros Hext. unfold enabled. induction fields as [|f fields IH]; [done|].
  rewrite !filter_cons, (Hext f) by left.
  rewrite IH; [done|]. intros field Hin. apply Hext. by right.
Qed.

Lemma for_fold_ext {A B} (body1 body2 : B → A → M B) (l : list A) acc st :
  (∀ acc x st, x ∈ l → body1 acc x st = body2 acc x st) →
  for_fold l acc body1 st = for_fold l acc body2 st.
Proof.
  revert acc st. induction l as [|x l IH]; intros acc st Hext; [done|].
  cbn [for_fold]. unfold bind. rewrite Hext by left.
  destruct (body2 acc x st) as [[acc'|e] st1]; [|done].
  apply IH. intros acc0 y st0 Hy. apply Hext. by right.
Qed.

Lemma search_shard_ext schema name fields query search1 search2 pks st :
  (∀ field, field ∈ fields → getitem search1 field = getitem search2 field) →
  search_shard schema name fields query search1 pks st
  = search_shard schema name fields query search2 pks st.
Proof.
  intros Heq. unfold search_shard, base_search, bind.
  destruct (open_index schema name st) as [[index|e] st1]; [|done].
  unfold index_searcher.
  rewrite (for_fold_ext _
    (λ queries param,
       if getitem search2 param then
         bind (lift (parse param schema query))
           (λ parsed, ret (queries ++ [parsed])%list)
       else ret queries)); [done|].
  intros queries param st0 Hin. by rewrite (Heq param Hin).
Qed.

(** C10: the result of [search] depends on the language collection only as
    a set: two collections with the same members give the same result,
    whatever their order or repetitions, and [search] succeeds on the one
    when it does on the other; when it fails, it fails with the same
    exception provided the parser accepts the text on the target fields
    (the I/O error of an index and the parser's error come in the order of
    the collection).  With an empty collection the target and comment
    toggles change nothing. *)
Theorem search_langs_as_set query params st :
  (∀ langs1 langs2,
     (∀ lang, lang ∈ langs1 ↔ lang ∈ langs2) →
     (∀ pks, (search query langs1 params st).1 = Ok pks
             ↔ (search query langs2 params st).1 = Ok pks) ∧
     (accepted query (enabled (params ∪ defaults) target_fields) →
      (search query langs1 params st).1 = (search query langs2 params st).1)) ∧
  search query [] params st
  = search query [] (<["target" := false]> (<["comment" := false]> params)) st.
Proof.
  split.
  - intros langs1 langs2 Hsame.
    destruct (search_run query langs1 params st) as (st1 & -> & _).
    destruct (search_run query langs2 params st) as (st2 & -> & _).
    cbn [fst]. split.
    + intros pks. split; apply search_outcome_langs_Ok; [done|].
      intros lang. by rewrite Hsame.
    + by apply search_outcome_langs.
  - rewrite !search_unfold.
    set (params' := <["target" := false]> (<["comment" := false]> params)).
    assert (Hsrc : ∀ field, field ∈ source_fields →
              getitem (params' ∪ defaults) field = getitem (params ∪ defaults) field).
    { intros field Hin. rewrite !getitem_toggles.
      unfold params'. rewrite !lookup_insert_ne; [done|..];
        intros <-; unfold source_fields in Hin;
        repeat (apply elem_of_cons in Hin as [?|Hin]; [done|]);
        by apply elem_of_nil in Hin. }
    rewrite (enabled_ext (params' ∪ defaults) (params ∪ defaults) source_fields Hsrc).
    apply bind_ext.
    + case_bool_decide; [|done]. apply search_shard_ext.
      intros field Hin. by rewrite Hsrc.
    + intros pks st1. unfold bind. cbn [for_fold].
      by destruct (bool_decide _), (bool_decide _).
Qed.
End SearchClaims.

(** ** Binary64 arithmetic *)

Section Binary64.
Local Open Scope Z_scope.

Lemma digits2_pos_size p : digits2_pos p = Pos.size p.
Proof. induction p as [p IH|p IH|]; simpl; by rewrite ?IH. Qed.

Lemma Zdigits2_log2 m : 0 < m → Zdigits2 m = Z.log2 m + 1.
Proof.
  destruct m as [|p|p]; [lia| |lia]. intros _. simpl.
  rewrite digits2_pos_size. destruct p as [p|p|]; simpl; lia.
Qed.

Lemma Zdigits2_bounds m :
  0 < m → 2 ^ (Zdigits2 m - 1) ≤ m < 2 ^ Zdigits2 m.
Proof.
  intros Hm. rewrite Zdigits2_log2 by done.
  replace (Z.log2 m + 1 - 1) with (Z.log2 m) by lia.
  replace (Z.log2 m + 1) with (Z.succ (Z.log2 m)) by lia.
  by apply Z.log2_spec.
Qed.

Lemma Zdigits2_pos m : 0 < m → 1 ≤ Zdigits2 m.
Proof.
  intros Hm. rewrite Zdigits2_log2 by done. pose proof (Z.log2_nonneg m). lia.
Qed.

Lemma Zdigits2_ge m k : 0 < m → 2 ^ (k - 1) ≤ m → k ≤ Zdigits2 m.
Proof.
  intros Hm Hk. destruct (Z.le_gt_cases k (Zdigits2 m)) as [|Hlt]; [done|].
  pose proof (Zdigits2_bounds m Hm) as [_ Hup].
  assert (2 ^ Zdigits2 m ≤ 2 ^ (k - 1)); [|lia].
  apply Z.pow_le_mono_r; lia.
Qed.

Lemma Zdigits2_le m k : 0 < m → m < 2 ^ k → Zdigits2 m ≤ k.
Proof.
  intros Hm Hk. destruct (Z.le_gt_cases (Zdigits2 m) k) as [|Hlt]; [done|].
  pose proof (Zdigits2_bounds m Hm) as [Hlow _].
  pose proof (Zdigits2_pos m Hm).
  assert (2 ^ k ≤ 2 ^ (Zdigits2 m - 1)); [|lia].
  apply Z.pow_le_mono_r; lia.
Qed.

(** Shifting right drops the low bits. *)
Lemma shr_1_m mrs : 0 ≤ shr_m mrs → shr_m (shr_1 mrs) = shr_m mrs / 2.
Proof.
  destruct mrs as [m r s]. cbn [shr_m]. intros Hm.
  destruct m as [|[p|p|]|p]; cbn [shr_1 shr_m]; [done| | |done|lia].
  - rewrite Pos2Z.inj_xI. apply Z.div_unique with 1; lia.
  - rewrite Pos2Z.inj_xO. apply Z.div_unique with 0; lia.
Qed.

Lemma iter_shr_1_m p mrs :
  0 ≤ shr_m mrs → shr_m (SpecFloat.iter_pos shr_1 p mrs) = shr_m mrs / 2 ^ Zpos p.
Proof.
  assert (Hpow : ∀ q, 0 < 2 ^ Z.pos q) by (intros q; by apply Z.pow_pos_nonneg).
  revert mrs. induction p as [p IH|p IH|]; intros mrs Hm; cbn [SpecFloat.iter_pos].
  - assert (H1 : 0 ≤ shr_m (shr_1 mrs)).
    { rewrite shr_1_m by done. by apply Z.div_pos. }
    assert (H2 : 0 ≤ shr_m (SpecFloat.iter_pos shr_1 p (shr_1 mrs))).
    { rewrite IH by done. by apply Z.div_pos. }
    rewrite IH, IH, shr_1_m by done.
    pose proof (Hpow p).
    rewrite !Z.div_div by lia.
    f_equal. rewrite Pos2Z.inj_xI.
    replace (2 * Z.pos p + 1) with (1 + Z.pos p + Z.pos p) by lia.
    rewrite !Z.pow_add_r by lia. lia.
  - assert (H2 : 0 ≤ shr_m (SpecFloat.iter_pos shr_1 p mrs)).
    { rewrite IH by done. by apply Z.div_pos. }
    rewrite IH, IH by done.
    pose proof (Hpow p).
    rewrite !Z.div_div by lia.
    f_equal. rewrite <- Z.pow_add_r by lia. f_equal. lia.
  - by apply shr_1_m.
Qed.

Lemma shr_record_of_loc_m m l : shr_m (shr_record_of_loc m l) = m.
Proof. by destruct l as [|[]]. Qed.

(** [shr_fexp]: the mantissa is cut down to the exponent that the format
    gives to a number of this magnitude, when that is above its own. *)
Lemma shr_fexp_spec m e l :
  0 ≤ m →
  let e' := Z.max e (fexp prec emax (Zdigits2 m + e)) in
  ∃ mrs, shr_fexp prec emax m e l = (mrs, e') ∧ shr_m mrs = m / 2 ^ (e' - e).
Proof.
  intros Hm e'. unfold shr_fexp, shr.
  destruct (fexp prec emax (Zdigits2 m + e) - e) as [|n|n] eqn:Hn.
  - eexists. split; [f_equal; lia|]. rewrite shr_record_of_loc_m.
    replace (e' - e) with 0 by lia. by rewrite Z.div_1_r.
  - eexists. split; [f_equal; lia|].
    rewrite iter_shr_1_m by (by rewrite shr_record_of_loc_m).
    rewrite shr_record_of_loc_m. do 2 f_equal. lia.
  - eexists. split; [f_equal; lia|]. rewrite shr_record_of_loc_m.
    replace (e' - e) with 0 by lia. by rewrite Z.div_1_r.
Qed.

Lemma round_nearest_even_bounds m l :
  m ≤ round_nearest_even m l ≤ m + 1.
Proof. destruct l as [|[]]; cbn; [lia| |lia|lia]. destruct (Z.even m); lia. Qed.

Lemma fexp_spec k : fexp prec emax k = Z.max (k - 53) (-1074).
Proof. reflexivity. Qed.

(** What [binary_round_aux] returns on a positive mantissa: infinity, or
    a positive finite number; its exponent [e2] is the one of the format
    after the two cuts, and its mantissa is the rounded one. *)
Lemma binary_round_aux_spec m e l :
  0 < m →
  let e1 := Z.max e (fexp prec emax (Zdigits2 m + e)) in
  ∃ m1, m / 2 ^ (e1 - e) ≤ m1 ≤ m / 2 ^ (e1 - e) + 1 ∧
    let e2 := Z.max e1 (fexp prec emax (Zdigits2 m1 + e1)) in
    binary_round_aux prec emax false m e l
    = match m1 / 2 ^ (e2 - e1) with
      | 0 => S754_zero false
      | Zpos m2 => if e2 <=? emax - prec then S754_finite false m2 e2
                   else S754_infinity false
      | Zneg _ => S754_nan
      end.
Proof.
  intros Hm e1. unfold binary_round_aux.
  destruct (shr_fexp_spec m e l) as (mrs1 & -> & Hm1); [lia|]. fold e1 in Hm1 |- *.
  set (m1 := round_nearest_even (shr_m mrs1) (loc_of_shr_record mrs1)).
  exists m1. split.
  { rewrite <- Hm1. apply round_nearest_even_bounds. }
  set (e2 := Z.max e1 (fexp prec emax (Zdigits2 m1 + e1))).
  assert (0 ≤ m1).
  { pose proof (round_nearest_even_bounds (shr_m mrs1) (loc_of_shr_record mrs1)).
    assert (0 ≤ shr_m mrs1); [|fold m1 in H; lia].
    rewrite Hm1. apply Z.div_pos; [lia|]. apply Z.pow_pos_nonneg; lia. }
  destruct (shr_fexp_spec m1 e1 loc_Exact) as (mrs2 & -> & Hm2); [done|].
  fold e2 in Hm2 |- *. by rewrite Hm2.
Qed.

Lemma from_64_above_fifty r : from_64 r → SFltb fifty64 r = true.
Proof.
  intros [->|(m & e & -> & He)]; [done|].
  unfold SFltb, fifty64, SFcompare.
  destruct (Z.compare_spec (-47) e); (done || lia).
Qed.

Lemma div_pow2_pos m k : 0 < m → 0 ≤ k ≤ Zdigits2 m - 1 → 1 ≤ m / 2 ^ k.
Proof.
  intros Hm Hk. pose proof (Zdigits2_bounds m Hm) as [Hlow _].
  assert (2 ^ k ≤ 2 ^ (Zdigits2 m - 1)) by (apply Z.pow_le_mono_r; lia).
  apply Z.div_le_lower_bound; [apply Z.pow_pos_nonneg; lia|lia].
Qed.

(** Rounding a positive number of magnitude 2^6 or more. *)
Lemma binary_round_aux_from_64 m e l :
  0 < m → 7 ≤ Zdigits2 m + e → from_64 (binary_round_aux prec emax false m e l).
Proof.
  intros Hm Hd.
  destruct (binary_round_aux_spec m e l Hm) as (m1 & Hm1 & Hrun).
  cbv zeta in Hrun. rewrite Hrun. clear Hrun.
  rewrite !fexp_spec in *.
  set (e1 := Z.max e (Z.max (Zdigits2 m + e - 53) (-1074))) in *.
  assert (He1 : -46 ≤ e1) by lia.
  assert (H1 : 1 ≤ m / 2 ^ (e1 - e)).
  { apply div_pow2_pos; [done|]. pose proof (Zdigits2_pos m Hm). lia. }
  assert (Hm1pos : 0 < m1) by lia.
  set (e2 := Z.max e1 (Z.max (Zdigits2 m1 + e1 - 53) (-1074))).
  assert (H2 : 1 ≤ m1 / 2 ^ (e2 - e1)).
  { apply div_pow2_pos; [done|]. pose proof (Zdigits2_pos m1 Hm1pos). lia. }
  destruct (m1 / 2 ^ (e2 - e1)) as [|m2|m2]; [lia| |lia].
  destruct (e2 <=? emax - prec); [right|by left].
  exists m2, e2. split; [done|lia].
Qed.

Lemma bounded_spec m e :
  bounded prec emax m e = true →
  Z.max (Zdigits2 (Zpos m) + e - 53) (-1074) = e ∧ e ≤ 971.
Proof.
  unfold bounded, canonical_mantissa. rewrite andb_true_iff, Z.eqb_eq, Z.leb_le.
  rewrite fexp_spec. cbn [Zdigits2]. intros [? ?]. split; [done|].
  change (emax - prec) with 971 in H0. done.
Qed.

Lemma div_floor a b : 0 < b → b * (a / b) ≤ a < b * (a / b) + b.
Proof.
  intros Hb. pose proof (Z.div_mod a b ltac:(lia)).
  pose proof (Z.mod_pos_bound a b Hb). lia.
Qed.

(** The product with 100 of a positive binary64 number [x] is infinity
    or a number from [64 * x] on. *)
Lemma mul_hundred_lower m e :
  bounded prec emax m e = true →
  SFmul prec emax (S754_finite false m e) hundred64 = S754_infinity false
  ∨ ∃ my ey, SFmul prec emax (S754_finite false m e) hundred64 = S754_finite false my ey
             ∧ e ≤ ey ∧ 64 * Zpos m ≤ Zpos my * 2 ^ (ey - e).
Proof.
  intros (Hcanon & Hmax)%bounded_spec.
  unfold SFmul, hundred64. cbn [xorb].
  set (M := 7036874417766400%positive).
  assert (HP : 0 < Zpos (m * M)) by done.
  destruct (binary_round_aux_spec (Zpos (m * M)) (e + -46) loc_Exact HP)
    as (m1 & Hm1 & Hrun).
  cbv zeta in Hrun. rewrite Hrun. clear Hrun.
  rewrite !fexp_spec in *.
  pose proof (Zdigits2_pos (Zpos m) ltac:(done)) as Hdm.
  pose proof (Zdigits2_bounds (Zpos m) ltac:(done)) as [Hmlow Hmup].
  set (dm := Zdigits2 (Zpos m)) in *.
  (* the digits of the product *)
  assert (HdP : dm + 52 ≤ Zdigits2 (Zpos (m * M)) ≤ dm + 53).
  { rewrite Pos2Z.inj_mul. split.
    - apply Zdigits2_ge; [lia|].
      replace (dm + 52 - 1) with ((dm - 1) + 52) by lia.
      rewrite Z.pow_add_r by lia.
      assert (2 ^ 52 ≤ Zpos M) by (by vm_compute).
      nia.
    - apply Zdigits2_le; [lia|].
      rewrite Z.pow_add_r by lia.
      assert (Zpos M < 2 ^ 53) by (by vm_compute).
      assert (0 < 2 ^ dm) by (apply Z.pow_pos_nonneg; lia).
      nia. }
  set (dP := Zdigits2 (Zpos (m * M))) in *.
  set (e1 := Z.max (e + -46) (Z.max (dP + (e + -46) - 53) (-1074))) in *.
  assert (He1 : e ≤ e1 ∧ e1 - e ≤ dm - 1) by lia.
  set (t := e1 - e) in *.
  assert (HX : 1 ≤ 2 ^ t ≤ Zpos m).
  { split.
    - assert (0 < 2 ^ t) by (apply Z.pow_pos_nonneg; lia). lia.
    - assert (2 ^ t ≤ 2 ^ (dm - 1)) by (apply Z.pow_le_mono_r; lia). lia. }
  (* the first cut *)
  assert (Hcut : Zpos (m * M) / 2 ^ (e1 - (e + -46)) = (100 * Zpos m) / 2 ^ t).
  { replace (e1 - (e + -46)) with (t + 46) by lia.
    rewrite Z.pow_add_r by lia. rewrite Pos2Z.inj_mul.
    change (Zpos M) with (100 * 2 ^ 46).
    rewrite Z.mul_assoc. rewrite (Z.mul_comm (Zpos m) 100).
    apply Z.div_mul_cancel_r; [lia|]. by vm_compute. }
  rewrite Hcut in Hm1.
  pose proof (div_floor (100 * Zpos m) (2 ^ t) ltac:(lia)) as Hfloor1.
  set (m1' := 100 * Zpos m / 2 ^ t) in *.
  assert (Hm1pos : 0 < m1) by nia.
  (* the rounded mantissa has at most 54 digits *)
  assert (Hd1 : Zdigits2 m1 ≤ 54).
  { apply Zdigits2_le; [done|].
    assert (m1' < 2 ^ 53); [|change (2 ^ 54) with (2 * 2 ^ 53); lia].
    rewrite <- Hcut.
    apply Z.div_lt_upper_bound; [apply Z.pow_pos_nonneg; lia|].
    rewrite <- Z.pow_add_r by lia.
    pose proof (Zdigits2_bounds (Zpos (m * M)) HP) as [_ Hup]. fold dP in Hup.
    assert (2 ^ dP ≤ 2 ^ (e1 - (e + -46) + 53)) by (apply Z.pow_le_mono_r; lia).
    lia. }
  set (e2 := Z.max e1 (Z.max (Zdigits2 m1 + e1 - 53) (-1074))).
  assert (He2 : e2 - e1 = 0 ∨ e2 - e1 = 1) by lia.
  pose proof (div_floor m1 (2 ^ (e2 - e1)) ltac:(apply Z.pow_pos_nonneg; lia)) as Hfloor2.
  assert (Hval : 64 * Zpos m ≤ m1 / 2 ^ (e2 - e1) * 2 ^ (e2 - e)).
  { replace (e2 - e) with ((e2 - e1) + t) by lia. rewrite Z.pow_add_r by lia.
    assert (HS : 2 ^ (e2 - e1) = 1 ∨ 2 ^ (e2 - e1) = 2).
    { destruct He2 as [-> | ->]; [by left|by right]. }
    set (S := 2 ^ (e2 - e1)) in *. set (Q2 := m1 / S) in *. set (X := 2 ^ t) in *.
    assert (m1' - 1 ≤ S * Q2) by lia.
    assert ((m1' - 1) * X ≤ (S * Q2) * X) by (apply Z.mul_le_mono_nonneg_r; lia).
    lia. }
  destruct (m1 / 2 ^ (e2 - e1)) as [|m2|m2] eqn:Hm2.
  - lia.
  - destruct (e2 <=? emax - prec); [right|by left].
    exists m2, e2. split_and!; [done|lia|done].
  - assert (0 < 2 ^ (e2 - e)) by (apply Z.pow_pos_nonneg; lia). nia.
Qed.

(** The quotient by a positive [x] of a number from [64 * x] on is 64 or
    more. *)
Lemma div_lower my ey m e :
  e ≤ ey → 64 * Zpos m ≤ Zpos my * 2 ^ (ey - e) →
  from_64 (SFdiv prec emax (S754_finite false my ey) (S754_finite false m e)).
Proof.
  intros Hey Hval. unfold SFdiv, SFdiv_core_binary. cbn [xorb].
  rewrite fexp_spec.
  pose proof (Zdigits2_pos (Zpos m) ltac:(done)) as Hd2.
  pose proof (Zdigits2_bounds (Zpos m) ltac:(done)) as [Hmlow Hmup].
  pose proof (Zdigits2_pos (Zpos my) ltac:(done)) as Hd1.
  pose proof (Zdigits2_bounds (Zpos my) ltac:(done)) as [Hylow Hyup].
  set (d1 := Zdigits2 (Zpos my)) in *. set (d2 := Zdigits2 (Zpos m)) in *.
  (* the magnitudes are 6 apart or more *)
  assert (Hk : 6 ≤ d1 + ey - (d2 + e)).
  { assert (2 ^ (d2 + 5) < 2 ^ (d1 + (ey - e))) as Hlt%Z.pow_lt_mono_r_iff; [|lia..].
    replace (d2 + 5) with (6 + (d2 - 1)) by lia.
    rewrite !Z.pow_add_r by lia. change (2 ^ 6) with 64.
    assert (0 < 2 ^ (ey - e)) by (apply Z.pow_pos_nonneg; lia). nia. }
  set (e' := Z.min (Z.max (d1 + ey - (d2 + e) - 53) (-1074)) (ey - e)).
  assert (Hs : 0 ≤ ey - e - e' ∧ d2 - d1 + 53 ≤ ey - e - e') by lia.
  set (s := ey - e - e') in *.
  assert (Hshift : match s with
                   | 0 => Zpos my
                   | Zpos _ => Z.shiftl (Zpos my) s
                   | Zneg _ => 0
                   end = Zpos my * 2 ^ s).
  { destruct s as [|p|p] eqn:Hp; [lia| |lia]. by rewrite Z.shiftl_mul_pow2. }
  rewrite Hshift. clear Hshift.
  assert (0 < 2 ^ s) by (apply Z.pow_pos_nonneg; lia).
  destruct (Z.div_eucl (Zpos my * 2 ^ s) (Zpos m)) as [q r] eqn:Hdiv.
  assert (Hq : q = Zpos my * 2 ^ s / Zpos m) by (unfold Z.div; by rewrite Hdiv).
  (* the quotient has 53 digits or more *)
  assert (Hq52 : 2 ^ 52 ≤ q).
  { rewrite Hq. apply Z.div_le_lower_bound; [done|].
    assert (2 ^ (d2 + 52) ≤ 2 ^ ((d1 - 1) + s)) by (apply Z.pow_le_mono_r; lia).
    rewrite !Z.pow_add_r in * by lia. nia. }
  apply binary_round_aux_from_64; [lia|].
  destruct (Z.le_gt_cases (-46) e') as [He'|He'].
  - assert (53 ≤ Zdigits2 q); [|lia]. apply Zdigits2_ge; [lia|done].
  - assert (7 - e' ≤ Zdigits2 q); [|lia]. apply Zdigits2_ge; [lia|].
    replace (7 - e' - 1) with (6 + - e') by lia.
    rewrite Hq. apply Z.div_le_lower_bound; [done|].
    replace s with ((ey - e) + - e') by lia.
    rewrite !Z.pow_add_r by lia. change (2 ^ 6) with 64.
    assert (0 < 2 ^ (- e')) by (apply Z.pow_pos_nonneg; lia). nia.
Qed.

(** In binary64, [x * 100 / x] is above 50 for every positive finite
    [x]. *)
Lemma SF64_self_ratio_above_fifty m e :
  bounded prec emax m e = true →
  SFltb fifty64
    (SF64div (SF64mul (S754_finite false m e) hundred64) (S754_finite false m e))
  = true.
Proof.
  intros Hb. apply from_64_above_fifty. unfold SF64div, SF64mul.
  destruct (mul_hundred_lower m e Hb) as [->|(my & ey & -> & Hey & Hval)].
  - by left.
  - by apply div_lower.
Qed.

(** ** Comparing positive floats *)

Lemma SFpositive_leb_refl a : SFpositive a → SFleb a a = true.
Proof. intros [->|(? & ? & ->)]; compare_cases. Qed.

Lemma SFpositive_ltb_leb a b :
  SFpositive a → SFpositive b → SFltb a b = true → SFleb a b = true.
Proof. intros [->|(? & ? & ->)] [->|(? & ? & ->)] H; compare_cases. Qed.

Lemma SFpositive_not_ltb_leb a b :
  SFpositive a → SFpositive b → SFltb a b = false → SFleb b a = true.
Proof. intros [->|(? & ? & ->)] [->|(? & ? & ->)] H; compare_cases. Qed.

Lemma SFpositive_leb_trans a b c :
  SFpositive a → SFpositive b → SFpositive c →
  SFleb a b = true → SFleb b c = true → SFleb a c = true.
Proof.
  intros [->|(? & ? & ->)] [->|(? & ? & ->)] [->|(? & ? & ->)] H1 H2; compare_cases.
Qed.

Lemma SFpositive_leb_antisym a b :
  SFpositive a → SFpositive b → SFleb a b = true → SFleb b a = true → a = b.
Proof.
  intros [->|(? & ? & ->)] [->|(? & ? & ->)] H1 H2; compare_cases; by subst.
Qed.
End Binary64.

(** ** Python floats *)

Lemma Prim2SF_positive x : (0 <? x)%float = true → SFpositive (Prim2SF x).
Proof.
  rewrite FloatAxioms.ltb_spec. change (Prim2SF 0) with (S754_zero false).
  destruct (Prim2SF x) as [s|[]| |[] m e]; try done; [by left|right; by eexists _, _].
Qed.

Lemma positive_not_zero x : (0 <? x)%float = true → (x =? 0)%float = false.
Proof.
  intros H. rewrite FloatAxioms.eqb_spec. change (Prim2SF 0) with (S754_zero false).
  by apply Prim2SF_positive in H as [->|(? & ? & ->)].
Qed.

Lemma positive_leb_refl x : (0 <? x)%float = true → (x <=? x)%float = true.
Proof.
  intros Hx. rewrite FloatAxioms.leb_spec.
  by apply SFpositive_leb_refl, Prim2SF_positive.
Qed.

Lemma positive_ltb_leb x y :
  (0 <? x)%float = true → (0 <? y)%float = true →
  (x <? y)%float = true → (x <=? y)%float = true.
Proof.
  intros Hx Hy H. rewrite FloatAxioms.ltb_spec in H. rewrite FloatAxioms.leb_spec.
  by apply SFpositive_ltb_leb; [apply Prim2SF_positive..|].
Qed.

Lemma positive_not_ltb_leb x y :
  (0 <? x)%float = true → (0 <? y)%float = true →
  (x <? y)%float = false → (y <=? x)%float = true.
Proof.
  intros Hx Hy H. rewrite FloatAxioms.ltb_spec in H. rewrite FloatAxioms.leb_spec.
  by apply SFpositive_not_ltb_leb; [apply Prim2SF_positive..|].
Qed.

Lemma positive_leb_trans x y z :
  (0 <? x)%float = true → (0 <? y)%float = true → (0 <? z)%float = true →
  (x <=? y)%float = true → (y <=? z)%float = true → (x <=? z)%float = true.
Proof.
  intros Hx Hy Hz H1 H2. rewrite FloatAxioms.leb_spec in H1, H2 |- *.
  by apply (SFpositive_leb_trans _ (Prim2SF y)); [apply Prim2SF_positive..| |].
Qed.

(** Two positive floats that are each at most the other are the same
    float. *)
Lemma positive_leb_antisym x y :
  (0 <? x)%float = true → (0 <? y)%float = true →
  (x <=? y)%float = true → (y <=? x)%float = true → x = y.
Proof.
  intros Hx Hy H1 H2. rewrite FloatAxioms.leb_spec in H1, H2. apply Prim2SF_inj.
  by apply SFpositive_leb_antisym; [apply Prim2SF_positive..| |].
Qed.

(** In Python's float arithmetic [x * 100 / x] is above 50, whatever the
    rounding, for every positive finite [x]. *)
Lemma self_ratio_above_fifty x :
  positive_finite x → (50 <? x * 100 / x)%float = true.
Proof.
  intros [Hpos Hfin].
  rewrite FloatAxioms.ltb_spec, FloatAxioms.div_spec, FloatAxioms.mul_spec.
  change (Prim2SF 50) with fifty64. change (Prim2SF 100) with hundred64.
  pose proof (Prim2SF_valid x) as Hvalid.
  rewrite FloatAxioms.ltb_spec in Hfin.
  change (Prim2SF infinity) with (S754_infinity false) in Hfin.
  apply Prim2SF_positive in Hpos as [Hx|(m & e & Hx)]; rewrite Hx in *; [done|].
  by apply SF64_self_ratio_above_fifty.
Qed.

(** ** Scores *)

Lemma py_max_foldl_in (x : float) (l : list float) :
  foldl (λ m y, if (m <? y)%float then y else m) x l ∈ x :: l.
Proof.
  revert x. induction l as [|z l IH]; intros x; cbn [foldl]; [by left|].
  destruct (x <? z)%float.
  - right. apply IH.
  - specialize (IH x). apply elem_of_cons in IH as [->|IH]; [by left|by do 2 right].
Qed.

(** [max] returns one of the numbers. *)
Lemma py_max_in (l : list float) : l ≠ [] → ∃ m, py_max l = Ok m ∧ m ∈ l.
Proof.
  destruct l as [|x l]; [done|]. intros _. eexists. split; [done|].
  apply py_max_foldl_in.
Qed.

Lemma py_max_foldl (x : float) (l : list float) :
  (∀ y, y ∈ x :: l → (0 <? y)%float = true) →
  ∀ y, y ∈ x :: l →
       (y <=? foldl (λ m y, if (m <? y)%float then y else m) x l)%float = true.
Proof.
  revert x. induction l as [|z l IH]; intros x Hpos; cbn [foldl].
  - intros y ->%list_elem_of_singleton. apply positive_leb_refl, Hpos. by left.
  - assert (Hx : (0 <? x)%float = true) by (apply Hpos; by left).
    assert (Hz : (0 <? z)%float = true) by (apply Hpos; right; by left).
    destruct (x <? z)%float eqn:Hxz.
    + assert (Hrest : ∀ y, y ∈ z :: l → (0 <? y)%float = true).
      { intros y Hy. apply Hpos. by right. }
      assert (Hm : (0 <? foldl (λ m y, if (m <? y)%float then y else m) z l)%float = true).
      { apply Hrest, py_max_foldl_in. }
      intros y [->|Hy]%elem_of_cons; [|by apply IH].
      apply (positive_leb_trans _ z); [done..|by apply positive_ltb_leb|].
      apply IH; [done|by left].
    + assert (Hrest : ∀ y, y ∈ x :: l → (0 <? y)%float = true).
      { intros y [->|Hy]%elem_of_cons; [done|]. apply Hpos. by do 2 right. }
      assert (Hm : (0 <? foldl (λ m y, if (m <? y)%float then y else m) x l)%float = true).
      { apply Hrest, py_max_foldl_in. }
      intros y [->|[->|Hy]%elem_of_cons]%elem_of_cons.
      * apply IH; [done|by left].
      * apply (positive_leb_trans _ x); [done..|by apply positive_not_ltb_leb|].
        apply IH; [done|by left].
      * apply IH; [done|by right].
Qed.

(** On positive numbers [max] returns the greatest. *)
Lemma py_max_spec (l : list float) :
  l ≠ [] → (∀ y, y ∈ l → (0 <? y)%float = true) →
  ∃ m, py_max l = Ok m ∧ m ∈ l ∧ ∀ y, y ∈ l → (y <=? m)%float = true.
Proof.
  destruct l as [|x l]; [done|]. intros _ Hpos. eexists. split; [done|].
  split; [apply py_max_foldl_in|by apply py_max_foldl].
Qed.

(** The score dictionary: with distinct keys every hit finds its own
    normalized score. *)
Lemma foldl_scores_notin (f : Z * float → float) (l : list (Z * float))
    (acc : gmap Z float) k :
  k ∉ l.*1 → foldl (λ scores h, <[h.1 := f h]> scores) acc l !! k = acc !! k.
Proof.
  revert acc. induction l as [|h l IH]; intros acc Hk; [done|].
  cbn [foldl]. rewrite fmap_cons in Hk. apply not_elem_of_cons in Hk as [Hne Hk].
  rewrite IH by done. by rewrite lookup_insert_ne.
Qed.

Lemma foldl_scores_in (f : Z * float → float) (l : list (Z * float))
    (acc : gmap Z float) h :
  NoDup l.*1 → h ∈ l →
  foldl (λ scores h, <[h.1 := f h]> scores) acc l !! h.1 = Some (f h).
Proof.
  revert acc. induction l as [|h0 l IH]; intros acc Hnd Hin.
  - by apply elem_of_nil in Hin.
  - rewrite fmap_cons in Hnd. apply NoDup_cons in Hnd as [Hfresh Hnd].
    cbn [foldl]. apply elem_of_cons in Hin as [->|Hin].
    + rewrite foldl_scores_notin by done. by rewrite lookup_insert_eq.
    + by apply IH.
Qed.

Lemma normalize_spec (results : list (Z * float)) (max_score : float) :
  NoDup results.*1 → (max_score =? 0)%float = false →
  ∃ scores, normalize results max_score = Ok scores ∧
    ∀ h, h ∈ results → scores !! h.1 = Some (h.2 * 100 / max_score)%float.
Proof.
  intros Hnd Hmax. unfold normalize. destruct results as [|h0 results].
  - exists ∅. split; [done|]. intros h Hh. by apply elem_of_nil in Hh.
  - rewrite Hmax. eexists. split; [done|]. intros h Hh.
    by apply (foldl_scores_in (λ h, (h.2 * 100 / max_score)%float)).
Qed.

Lemma filter_ext_elem {A} (P1 P2 : A → Prop) `{!∀ x, Decision (P1 x)}
    `{!∀ x, Decision (P2 x)} (l : list A) :
  (∀ x, x ∈ l → P1 x ↔ P2 x) → filter P1 l = filter P2 l.
Proof.
  induction l as [|x l IH]; intros Hext; [done|].
  rewrite !filter_cons. rewrite IH by (intros y Hy; apply Hext; by right).
  destruct (decide (P1 x)) as [H1|H1], (decide (P2 x)) as [H2|H2]; try done.
  - by apply Hext in H1; [|left].
  - by apply Hext in H2; [|left].
Qed.

(** ** Similar units *)

Section Similarity.
Context `{!Engine}.

Lemma more_like_run pk source top st :
  "source" ∉ unreadable st → top ≠ 0%nat →
  (more_like pk source top st).1
  = (let results := similar_hits (docs_of st "source") source top in
     if bool_decide (results = []) then Ok []
     else match py_max results.*2 with
          | Ok max_score =>
              match normalize results max_score with
              | Ok scores =>
                  Ok (filter (λ h, (50 <? default 0 (scores !! h.1))%float = true
                                   ∧ h.1 ≠ pk) results).*1
              | Raise e => Raise e
              end
          | Raise e => Raise e
          end).
Proof.
  intros Hu Htop. unfold more_like, get_source_index, bind.
  destruct (open_index_run SourceSchema "source" st) as (st1 & -> & [_ Hdocs] & _).
  rewrite decide_False by done.
  unfold index_searcher, searcher_search. cbn [index_name searcher_docs].
  rewrite Hdocs. destruct top as [|top]; [done|].
  fold (similarity_query (docs_of st "source") source).
  fold (similar_hits (docs_of st "source") source (S top)).
  cbv zeta. case_bool_decide; [done|].
  unfold lift. destruct (py_max _) as [max_score|e]; [|done].
  by destruct (normalize _ _) as [scores|e].
Qed.

Lemma NoDup_similar_hits sh source top : NoDup (similar_hits sh source top).*1.
Proof.
  unfold similar_hits. rewrite fmap_take.
  apply (sublist_NoDup _ (hits sh (similarity_query sh source)).*1).
  - apply NoDup_hits_keys.
  - apply sublist_take.
Qed.

Lemma similar_hits_scores sh source top h :
  h ∈ similar_hits sh source top → ∃ q d, h.2 = scoring q d.
Proof.
  unfold similar_hits. intros Hh%subseteq_take.
  apply hits_scores in Hh as [d Hd]. by eexists _, d.
Qed.

(** What [more_like] returns on a non-empty list of hits with positive
    scores. *)
Lemma more_like_selects pk source top st :
  "source" ∉ unreadable st → (∀ q d, (0 <? scoring q d)%float = true) →
  similar_hits (docs_of st "source") source top ≠ [] →
  ∃ max_score scores,
    py_max (similar_hits (docs_of st "source") source top).*2 = Ok max_score ∧
    (0 <? max_score)%float = true ∧
    (∃ h, h ∈ similar_hits (docs_of st "source") source top ∧ h.2 = max_score) ∧
    (∀ h, h ∈ similar_hits (docs_of st "source") source top
          → (h.2 <=? max_score)%float = true) ∧
    normalize (similar_hits (docs_of st "source") source top) max_score = Ok scores ∧
    (∀ h, h ∈ similar_hits (docs_of st "source") source top
          → scores !! h.1 = Some (h.2 * 100 / max_score)%float) ∧
    (more_like pk source top st).1
    = Ok (filter (λ h, (50 <? h.2 * 100 / max_score)%float = true ∧ h.1 ≠ pk)
            (similar_hits (docs_of st "source") source top)).*1.
Proof.
  intros Hu Hpos Hne.
  set (results := similar_hits (docs_of st "source") source top) in *.
  assert (Htop : top ≠ 0%nat).
  { intros ->. by apply Hne. }
  assert (Hpos' : ∀ y, y ∈ results.*2 → (0 <? y)%float = true).
  { intros y (h & -> & Hh)%list_elem_of_fmap.
    destruct (similar_hits_scores _ _ _ _ Hh) as (q & d & ->). apply Hpos. }
  destruct (py_max_spec results.*2) as (max_score & Hmax & Hin & Hle);
    [by destruct results|done|].
  assert (Hmpos : (0 <? max_score)%float = true) by by apply Hpos'.
  apply list_elem_of_fmap in Hin as (best & Hbest & Hin).
  destruct (normalize_spec results max_score) as (scores & Hnorm & Hscores).
  { apply NoDup_similar_hits. }
  { by apply positive_not_zero. }
  exists max_score, scores. split_and!; [done|done|by exists best| |done|done|].
  - intros h Hh. apply Hle. apply list_elem_of_fmap. by exists h.
  - rewrite more_like_run by done. cbv zeta. fold results.
    rewrite bool_decide_false by done. rewrite Hmax, Hnorm. do 2 f_equal.
    apply filter_ext_elem. intros h Hh. by rewrite (Hscores h Hh).
Qed.

(** C6: on a non-empty list of hits, [more_like] normalizes every raw
    score to [raw * 100 / max] (in float arithmetic, as the code computes
    it), the maximum being taken over the returned hits, and returns, in
    the ranking order of the engine, exactly the keys of the hits whose
    normalized score is strictly above 50 and whose key is not the querying
    one; the querying key is never returned. *)
Theorem more_like_filters pk source top st :
  "source" ∉ unreadable st → (∀ q d, (0 <? scoring q d)%float = true) →
  similar_hits (docs_of st "source") source top ≠ [] →
  ∃ max_score scores similar,
    py_max (similar_hits (docs_of st "source") source top).*2 = Ok max_score ∧
    (∃ h, h ∈ similar_hits (docs_of st "source") source top ∧ h.2 = max_score) ∧
    (∀ h, h ∈ similar_hits (docs_of st "source") source top
          → (h.2 <=? max_score)%float = true) ∧
    normalize (similar_hits (docs_of st "source") source top) max_score = Ok scores ∧
    (∀ h, h ∈ similar_hits (docs_of st "source") source top
          → scores !! h.1 = Some (h.2 * 100 / max_score)%float) ∧
    (more_like pk source top st).1 = Ok similar ∧
    similar = (filter (λ h, (50 <? h.2 * 100 / max_score)%float = true ∧ h.1 ≠ pk)
                 (similar_hits (docs_of st "source") source top)).*1 ∧
    pk ∉ similar.
Proof.
  intros Hu Hpos Hne.
  destruct (more_like_selects pk source top st Hu Hpos Hne)
    as (max_score & scores & Hmax & _ & Hbest & Hle & Hnorm & Hscores & Hrun).
  eexists max_score, scores, _. split_and!; [done..|].
  intros (h & -> & [[_ Hpk] _]%list_elem_of_filter)%list_elem_of_fmap. done.
Qed.

(** C7: when no key term can be extracted from the text, the query is
    the OR of no term, it matches no document, and [more_like] returns the
    empty list. *)
Theorem more_like_no_key_terms pk source top st :
  "source" ∉ unreadable st → top ≠ 0%nat →
  key_terms_from_text (docs_of st "source") "source" source 10 = [] →
  (more_like pk source top st).1 = Ok []
  ∧ similarity_query (docs_of st "source") source = Or []
  ∧ ∀ d, matches (similarity_query (docs_of st "source") source) d = false.
Proof.
  intros Hu Htop Hkts.
  assert (Hq : similarity_query (docs_of st "source") source = Or []).
  { unfold similarity_query. by rewrite Hkts. }
  split_and!; [|done|by rewrite Hq].
  rewrite more_like_run by done. cbv zeta.
  assert (similar_hits (docs_of st "source") source top = []) as ->; [|done].
  unfold similar_hits. rewrite Hq.
  assert (hits (docs_of st "source") (Or []) = []) as ->; [|by destruct top].
  unfold hits.
  assert (filter (λ '(_, d), matches (Or []) d = true)
            (map_to_list (docs_of st "source")) = []) as ->; [|done].
  induction (map_to_list (docs_of st "source")) as [|[p d] l IH]; [done|].
  rewrite filter_cons. by rewrite decide_False.
Qed.

(** C9 (amended): on a non-empty list of hits with positive finite raw
    scores, a hit with the maximal raw score has the score that [max]
    returns, its normalized score in the dictionary is
    [best * 100 / best] as floats compute it, which is above 50 whatever
    the rounding (it need not be exactly 100), and when its key is not the
    querying one the returned list contains it, so it is not empty. *)
Theorem more_like_keeps_top pk source top st best :
  "source" ∉ unreadable st → (∀ q d, positive_finite (scoring q d)) →
  best ∈ similar_hits (docs_of st "source") source top →
  (∀ h, h ∈ similar_hits (docs_of st "source") source top
        → (h.2 <=? best.2)%float = true) →
  ∃ max_score scores,
    py_max (similar_hits (docs_of st "source") source top).*2 = Ok max_score ∧
    best.2 = max_score ∧
    normalize (similar_hits (docs_of st "source") source top) max_score = Ok scores ∧
    scores !! best.1 = Some (best.2 * 100 / best.2)%float ∧
    (50 <? best.2 * 100 / best.2)%float = true ∧
    (best.1 ≠ pk →
     ∃ similar, (more_like pk source top st).1 = Ok similar
                ∧ best.1 ∈ similar ∧ similar ≠ []).
Proof.
  intros Hu Hpf Hbest Hle.
  assert (Hpos : ∀ q d, (0 <? scoring q d)%float = true) by (intros; apply Hpf).
  destruct (more_like_selects pk source top st Hu Hpos)
    as (max_score & scores & Hmax & Hmpos & (top_hit & Htop & Hscore) & Hle'
        & Hnorm & Hscores & Hrun).
  { intros Hnil. rewrite Hnil in Hbest. by apply elem_of_nil in Hbest. }
  assert (Hbpos : positive_finite best.2).
  { destruct (similar_hits_scores _ _ _ _ Hbest) as (q & d & ->). apply Hpf. }
  assert (Heq : best.2 = max_score).
  { apply positive_leb_antisym; [apply Hbpos|done|by apply Hle'|].
    rewrite <- Hscore. by apply Hle. }
  assert (Hratio : (50 <? best.2 * 100 / best.2)%float = true)
    by by apply self_ratio_above_fifty.
  exists max_score, scores. split_and!; [done|done|done| |done|].
  - rewrite (Hscores best Hbest). by rewrite <- Heq.
  - intros Hpk. eexists. split; [exact Hrun|].
    assert (Hin : best.1 ∈ (filter (λ h, (50 <? h.2 * 100 / max_score)%float = true
                                         ∧ h.1 ≠ pk)
                              (similar_hits (docs_of st "source") source top)).*1).
    { apply list_elem_of_fmap. exists best. split; [done|].
      apply list_elem_of_filter. split; [|done]. split; [|done].
      by rewrite <- Heq. }
    split; [done|]. intros Hnil. rewrite Hnil in Hin. by apply elem_of_nil in Hin.
Qed.
End Similarity.

(** ** The claims on the sample data *)

Section Samples.
#[local] Existing Instance sample_engine.

Lemma sample_scoring_finite q d : positive_finite (scoring q d).
Proof. unfold scoring, sample_engine. by repeat case_match. Qed.

Lemma sample_scoring_pos q d : (0 <? scoring q d)%float = true.
Proof. apply sample_scoring_finite. Qed.

Lemma sample_accepted query fields : query ≠ "(" → accepted query fields.
Proof.
  intros Hq. apply Forall_forall. intros field _.
  unfold query_parses, sample_engine. apply negb_true_iff.
  by apply String.eqb_neq.
Qed.

Lemma indexed_store_readable : unreadable indexed_store = ∅.
Proof. vm_compute. reflexivity. Qed.

Lemma indexed_source_readable : "source" ∉ unreadable indexed_store.
Proof. rewrite indexed_store_readable. set_solver. Qed.

Lemma sample_similar_hits :
  similar_hits (docs_of indexed_store "source") "hello" 5
  = [(3%Z, 5%float); (1%Z, 4%float); (2%Z, 1%float)].
Proof. vm_compute. reflexivity. Qed.

Lemma search_returns_union_witness :
  unreadable indexed_store = ∅ ∧
  accepted "hallo" (parsed_fields ["cs"; "de"] {[ "target" := true ]}) ∧
  ∃ pks st',
    search "hallo" ["cs"; "de"] {[ "target" := true ]} indexed_store = (Ok pks, st') ∧
    pks = search_union "hallo" ["cs"; "de"] ({[ "target" := true ]} ∪ defaults)
            indexed_store.
Proof.
  assert (Hacc : accepted "hallo" (parsed_fields ["cs"; "de"] {[ "target" := true ]}))
    by by apply sample_accepted.
  split_and!; [exact indexed_store_readable|exact Hacc|].
  destruct (proj1 (search_returns_union "hallo" ["cs"; "de"] {[ "target" := true ]}
                     indexed_store indexed_store_readable) Hacc)
    as (pks & st' & Hrun & Hpks & _).
  exists pks, st'. split; assumption.
Defined.

Lemma search_no_field_witness :
  (∀ field, field ∈ (source_fields ++ target_fields)%list →
            ({[ "source" := false ]} : gmap string bool) !! field ≠ Some true) ∧
  search "hello" ["cs"; "de"] {[ "source" := false ]} indexed_store
  = (Ok ∅, indexed_store).
Proof.
  assert (Hoff : ∀ field, field ∈ (source_fields ++ target_fields)%list →
            ({[ "source" := false ]} : gmap string bool) !! field ≠ Some true).
  { intros field _. destruct (decide (field = "source")) as [->|Hne].
    - by rewrite lookup_singleton_eq.
    - by rewrite lookup_singleton_ne. }
  split; [exact Hoff|].
  apply (search_no_field "hello" ["cs"; "de"] {[ "source" := false ]}
           indexed_store Hoff).
Defined.

Lemma more_like_filters_witness :
  ("source" ∉ unreadable indexed_store) ∧
  (∀ q d, (0 <? scoring q d)%float = true) ∧
  similar_hits (docs_of indexed_store "source") "hello" 5 ≠ [] ∧
  ∃ max_score similar,
    py_max (similar_hits (docs_of indexed_store "source") "hello" 5).*2 = Ok max_score ∧
    (more_like 1 "hello" 5 indexed_store).1 = Ok similar ∧
    1%Z ∉ similar.
Proof.
  assert (Hne : similar_hits (docs_of indexed_store "source") "hello" 5 ≠ []).
  { by rewrite sample_similar_hits. }
  split_and!; [exact indexed_source_readable|exact sample_scoring_pos|exact Hne|].
  destruct (more_like_filters 1 "hello" 5 indexed_store indexed_source_readable
              sample_scoring_pos Hne)
    as (max_score & scores & similar & Hmax & _ & _ & _ & _ & Hrun & _ & Hself).
  exists max_score, similar. split_and!; assumption.
Defined.

Lemma more_like_no_key_terms_witness :
  ("source" ∉ unreadable indexed_store) ∧ 5%nat ≠ 0%nat ∧
  key_terms_from_text (docs_of indexed_store "source") "source" "" 10 = [] ∧
  (more_like 1 "" 5 indexed_store).1 = Ok [].
Proof.
  split_and!; [exact indexed_source_readable|done|reflexivity|].
  apply (more_like_no_key_terms 1 "" 5 indexed_store indexed_source_readable);
    [done|reflexivity].
Defined.

Lemma more_like_keeps_top_witness :
  ("source" ∉ unreadable indexed_store) ∧
  (∀ q d, positive_finite (scoring q d)) ∧
  (3%Z, 5%float) ∈ similar_hits (docs_of indexed_store "source") "hello" 5 ∧
  (∀ h, h ∈ similar_hits (docs_of indexed_store "source") "hello" 5
        → (h.2 <=? 5)%float = true) ∧
  ∃ similar, (more_like 1 "hello" 5 indexed_store).1 = Ok similar
             ∧ 3%Z ∈ similar ∧ similar ≠ [].
Proof.
  assert (Hin : (3%Z, 5%float)
                ∈ similar_hits (docs_of indexed_store "source") "hello" 5).
  { rewrite sample_similar_hits. by left. }
  assert (Hbest : ∀ h, h ∈ similar_hits (docs_of indexed_store "source") "hello" 5
                       → (h.2 <=? 5)%float = true).
  { intros h. rewrite sample_similar_hits. intros Hh.
    repeat (apply elem_of_cons in Hh as [->|Hh]; [reflexivity|]).
    by apply elem_of_nil in Hh. }
  split_and!; [exact indexed_source_readable|exact sample_scoring_finite
              |exact Hin|exact Hbest|].
  destruct (more_like_keeps_top 1 "hello" 5 indexed_store (3%Z, 5%float)
              indexed_source_readable sample_scoring_finite Hin Hbest)
    as (max_score & scores & _ & _ & _ & _ & _ & Hkept).
  apply Hkept. done.
Defined.

Lemma search_langs_as_set_witness :
  (∀ lang, lang ∈ ["cs"; "de"] ↔ lang ∈ ["de"; "cs"; "de"]) ∧
  accepted "hallo" (enabled ({[ "target" := true ]} ∪ defaults) target_fields) ∧
  (search "hallo" ["cs"; "de"] {[ "target" := true ]} indexed_store).1
  = (search "hallo" ["de"; "cs"; "de"] {[ "target" := true ]} indexed_store).1.
Proof.
  assert (Hsame : ∀ lang, lang ∈ ["cs"; "de"] ↔ lang ∈ ["de"; "cs"; "de"]).
  { intros lang. rewrite !elem_of_cons. naive_solver. }
  assert (Hacc : accepted "hallo"
                   (enabled ({[ "target" := true ]} ∪ defaults) target_fields))
    by by apply sample_accepted.
  split_and!; [exact Hsame|exact Hacc|].
  by apply (proj1 (search_langs_as_set "hallo" {[ "target" := true ]} indexed_store)
              ["cs"; "de"] ["de"; "cs"; "de"] Hsame).
Defined.
End Samples.

Section Rounding.
#[local] Existing Instance rounding_engine.

(** C9, as stated, fails on floats: the best hit of these three has the
    raw score 11.021095351624243, and its normalized score, as the code
    computes it, is 100.00000000000001, not 100.  (The two other hits are
    at exactly half of the best and normalize to 50.000000000000007, so
    they are returned as well.) *)
Lemma best_hit_not_exactly_100 :
  similar_hits (docs_of indexed_store "source") "hello" 5
  = [(3%Z, 0x1.60acd028aa5c2p+3%float); (1%Z, 0x1.60acd028aa5c2p+2%float);
     (2%Z, 0x1.60acd028aa5c2p+2%float)] ∧
  py_max (similar_hits (docs_of indexed_store "source") "hello" 5).*2
  = Ok 0x1.60acd028aa5c2p+3%float ∧
  (∃ scores,
     normalize (similar_hits (docs_of indexed_store "source") "hello" 5)
       0x1.60acd028aa5c2p+3%float = Ok scores ∧
     scores !! 3%Z = Some 0x1.9000000000001p+6%float) ∧
  (0x1.9000000000001p+6 =? 100)%float = false ∧
  (100 <? 0x1.9000000000001p+6)%float = true ∧
  (more_like 7 "hello" 5 indexed_store).1 = Ok [3%Z; 1%Z; 2%Z].
Proof.
  split_and!; [by vm_compute|by vm_compute| |by vm_compute..].
  eexists. split; by vm_compute.
Qed.
End Rounding.
(** * Further properties *)

(** ** The update path *)

Lemma filter_none {A} (P : A → Prop) `{!∀ x, Decision (P x)} (l : list A) :
  (∀ x, x ∈ l → ¬ P x) → filter P l = [].
Proof.
  intros Hnone. destruct (filter P l) as [|y f] eqn:Hf; [done|].
  assert (y ∈ filter P l) as [? ?]%list_elem_of_filter by (rewrite Hf; by left).
  by destruct (Hnone y).
Qed.

Lemma update_index_nil languages st : update_index languages [] st = (Ok tt, st).
Proof.
  rewrite update_index_unfold. unfold bind, target_items, written_languages.
  rewrite bool_decide_false by (by intros ?).
  rewrite filter_none; [done|]. by intros lang _ ?.
Qed.

(** What any attempt of a loop of writer scopes leaves behind: the scopes
    of a prefix of the items, all of them when it succeeds. *)
Lemma loop_prefix schema kind items st r st' :
  for_each items (λ it, open_write schema kind it.1 it.2) st = (r, st') →
  ∃ finished, finished `prefix_of` items ∧ (r = Ok tt → finished = items) ∧
    ∀ n, docs_of st' n = scope_docs n finished (docs_of st n).
Proof.
  revert st. induction items as [|it items IH]; intros st H.
  - inversion H; subst. exists []. by split_and!.
  - cbn [for_each] in H. unfold bind in H.
    destruct (open_write _ _ _ _ st) as [[[]|e] st1] eqn:H1.
    + apply open_write_ok in H1 as (_ & _ & _ & Hdocs).
      destruct (IH st1 H) as (finished & Hpre & Hall & Hfin).
      exists (it :: finished). split_and!.
      * by apply prefix_cons.
      * intros Hr. by rewrite (Hall Hr).
      * intros n. rewrite Hfin, Hdocs. unfold scope_docs. cbn [foldl].
        by case_decide; subst.
    + inversion H; subst. apply open_write_raise in H1 as (_ & Hdocs & _).
      exists []. split_and!; [apply prefix_nil|done|done].
Qed.

(** What any attempt of an update flush leaves behind. *)
Lemma update_index_any languages units st r st' :
  update_index languages units st = (r, st') →
  unreadable st' = unreadable st ∧ locked st' = locked st ∧
  ∃ written finished,
    (written = source_ops units ∨ written = []) ∧
    finished `prefix_of` target_items languages units ∧
    ∀ n, docs_of st' n
         = scope_docs n finished
             (if decide (n = "source") then commit written (docs_of st n)
              else docs_of st n).
Proof.
  rewrite update_index_unfold. unfold bind. intros H.
  case_bool_decide as Hunits.
  - destruct (open_write _ _ _ _ st) as [[[]|e] st1] eqn:H1.
    + pose proof (open_write_frame _ _ _ _ _ _ _ H1) as [Hu1 Hl1].
      apply open_write_ok in H1 as (_ & _ & _ & Hdocs).
      pose proof (loop_frame _ _ _ _ _ _ H) as [Hu Hl].
      destruct (loop_prefix _ _ _ _ _ _ H) as (finished & Hpre & _ & Hfin).
      split_and!; [congruence..|].
      exists (source_ops units), finished. split_and!; [by left|done|].
      intros n. rewrite Hfin, Hdocs. by case_decide; subst.
    + inversion H; subst.
      pose proof (open_write_frame _ _ _ _ _ _ _ H1) as [Hu1 Hl1].
      apply open_write_raise in H1 as (_ & Hdocs & _).
      split_and!; [done..|]. exists [], []. split_and!; [by right|apply prefix_nil|].
      intros n. rewrite Hdocs. unfold scope_docs. cbn [foldl]. by case_decide.
  - unfold ret in H.
    pose proof (loop_frame _ _ _ _ _ _ H) as [Hu Hl].
    destruct (loop_prefix _ _ _ _ _ _ H) as (finished & Hpre & _ & Hfin).
    split_and!; [done..|]. exists [], finished. split_and!; [by right|done|].
    intros n. rewrite Hfin. by case_decide.
Qed.

Lemma target_items_elem languages units it :
  it ∈ target_items languages units →
  ∃ lang, lang ∈ languages ∧ language_units units lang ≠ [] ∧
          it = (target_name (code lang), target_ops (language_units units lang)).
Proof.
  unfold target_items, written_languages.
  intros (lang & -> & [Hne Hin]%list_elem_of_filter)%list_elem_of_fmap. by exists lang.
Qed.

Lemma prefix_elem {A} (l1 l2 : list A) x : l1 `prefix_of` l2 → x ∈ l1 → x ∈ l2.
Proof. intros [k ->] Hx. apply elem_of_app. by left. Qed.

(** X1: a batch whose ids match no unit is a successful flush that opens no
    index and leaves the store as it is, locks held by others or not. *)
Theorem update_fulltext_no_matching_unit Unit_objects languages self st :
  (∀ u, u ∈ Unit_objects → unit_pk u ∉ args self) →
  update_fulltext Unit_objects languages self st = (Success, st).
Proof.
  intros Hnone. unfold update_fulltext, extract_batch_args.
  rewrite filter_none by done. by rewrite update_index_nil.
Qed.

(** The shards an update flush does not write keep their documents. *)
Lemma update_index_other_shards languages units st r st' n :
  update_index languages units st = (r, st') →
  n ≠ "source" →
  (∀ lang, lang ∈ languages → language_units units lang ≠ [] →
           n ≠ target_name (code lang)) →
  docs_of st' n = docs_of st n.
Proof.
  intros (Hu & Hl & written & finished & _ & Hpre & Hdocs)%update_index_any Hsrc Hn.
  rewrite Hdocs, decide_False by done.
  apply scope_docs_notin. intros (it & -> & Hit)%list_elem_of_fmap.
  apply (prefix_elem _ _ _ Hpre), target_items_elem in Hit as (lang & Hin & Hne & ->).
  by apply (Hn lang).
Qed.

(** X3: whatever its outcome, an update flush changes neither the locks nor
    the accessibility, and it leaves alone every shard other than the source
    shard and the target shards of the languages it has units to write for:
    units translated to one language never touch another language's shard. *)
Theorem update_index_touches_only_its_shards languages units st r st' n :
  update_index languages units st = (r, st') →
  n ≠ "source" →
  (∀ lang, lang ∈ languages → language_units units lang ≠ [] →
           n ≠ target_name (code lang)) →
  docs_of st' n = docs_of st n
  ∧ unreadable st' = unreadable st ∧ locked st' = locked st.
Proof.
  intros Hrun Hsrc Hn. split.
  - by apply (update_index_other_shards languages units st r).
  - by apply update_index_any in Hrun as (? & ? & _).
Qed.

Lemma commit_updates_keeps (doc : Unit → Doc) units (sh : Shard) p :
  is_Some (sh !! p) →
  is_Some (commit ((λ u, UpdateDocument (unit_pk u) (doc u)) <$> units) sh !! p).
Proof. intros Hp. rewrite commit_updates_lookup. by destruct (last _). Qed.

Lemma scope_docs_keeps n items (sh : Shard) p :
  (∀ it, it ∈ items → ∃ units, it.2 = target_ops units) →
  is_Some (sh !! p) → is_Some (scope_docs n items sh !! p).
Proof.
  unfold scope_docs. revert sh. induction items as [|it items IH]; intros sh Hops Hp;
    [done|].
  cbn [foldl]. apply IH; [intros it' Hit'; apply Hops; by right|].
  case_decide; [|done]. destruct (Hops it) as [units ->]; [by left|].
  by apply commit_updates_keeps.
Qed.

(** X4: an update flush never removes a document, whatever its outcome: a
    key present in a shard before is present after.  In particular the target
    document of a unit whose target has become empty stays in the index. *)
Theorem update_index_never_removes languages units st r st' n p :
  update_index languages units st = (r, st') →
  is_Some (docs_of st n !! p) → is_Some (docs_of st' n !! p).
Proof.
  intros (_ & _ & written & finished & Hwritten & Hpre & Hdocs)%update_index_any Hp.
  rewrite Hdocs. apply scope_docs_keeps.
  - intros it Hit.
    apply (prefix_elem _ _ _ Hpre), target_items_elem in Hit as (lang & _ & _ & ->).
    by eexists.
  - case_decide; [|done]. destruct Hwritten as [->| ->]; [|done].
    by apply commit_updates_keeps.
Qed.

Lemma update_index_frame languages units st r st' :
  update_index languages units st = (r, st') →
  unreadable st' = unreadable st ∧ locked st' = locked st.
Proof. by intros (? & ? & _)%update_index_any. Qed.

(** When an update flush succeeds, the shards it wrote could be opened and
    locked. *)
Lemma update_index_ok_healthy languages units st st' :
  update_index languages units st = (Ok tt, st') →
  (units ≠ [] → ("source" ∉ unreadable st) ∧ ("source" ∉ locked st)) ∧
  ∀ it, it ∈ target_items languages units →
        (it.1 ∉ unreadable st) ∧ (it.1 ∉ locked st).
Proof.
  rewrite update_index_unfold. unfold bind. intros H.
  case_bool_decide as Hunits.
  - destruct (open_write _ _ _ _ st) as [[[]|e] st1] eqn:H1; [|done].
    pose proof (open_write_frame _ _ _ _ _ _ _ H1) as [Hu1 Hl1].
    apply open_write_ok in H1 as (Hu & Hl & _).
    apply loop_ok in H as (Hitems & _). split; [done|].
    intros it Hit. rewrite <- Hu1, <- Hl1. by apply Hitems.
  - unfold ret in H. apply loop_ok in H as (Hitems & _). split; [done|].
    intros it Hit. by apply Hitems.
Qed.

Lemma update_index_runs languages units st :
  (units ≠ [] → ("source" ∉ unreadable st) ∧ ("source" ∉ locked st)) →
  (∀ it, it ∈ target_items languages units →
         (it.1 ∉ unreadable st) ∧ (it.1 ∉ locked st)) →
  ∃ st', update_index languages units st = (Ok tt, st').
Proof.
  intros Hsrc Hitems. rewrite update_index_unfold. unfold bind.
  case_bool_decide as Hunits.
  - destruct (Hsrc Hunits) as [Hu Hl].
    destruct (open_write_healthy SourceSchema BufferedWriter "source"
                (source_ops units) st Hu Hl) as [st1 H1].
    rewrite H1. apply open_write_frame in H1 as [Hu1 Hl1].
    apply loop_healthy. intros it Hit. rewrite Hu1, Hl1. by apply Hitems.
  - unfold ret. by apply loop_healthy.
Qed.

(** X2: an update flush is idempotent: after a successful flush, flushing
    the same units again succeeds and leaves every shard with the same
    documents. *)
Theorem update_index_idempotent languages units st st1 :
  update_index languages units st = (Ok tt, st1) →
  ∃ st2, update_index languages units st1 = (Ok tt, st2)
         ∧ ∀ n, docs_of st2 n = docs_of st1 n.
Proof.
  intros H1.
  pose proof (update_index_frame _ _ _ _ _ H1) as [Hu Hl].
  pose proof (update_index_ok_healthy _ _ _ _ H1) as [Hsrc Hitems].
  destruct (update_index_runs languages units st1) as [st2 H2].
  { by rewrite Hu, Hl. } { intros it Hit. rewrite Hu, Hl. by apply Hitems. }
  exists st2. split; [done|]. intros n.
  pose proof (update_index_ok _ _ _ _ H1) as (_ & Hs1 & Ht1).
  pose proof (update_index_ok _ _ _ _ H2) as (_ & Hs2 & Ht2).
  destruct (decide (n = "source")) as [->|Hn].
  { rewrite Hs2, Hs1. apply commit_updates_idemp. }
  destruct (decide (n ∈ (target_items languages units).*1)) as [Hin|Hnotin].
  - apply list_elem_of_fmap in Hin as (it & -> & Hit).
    apply target_items_elem in Hit as (lang & Hlang & _ & ->). cbn [fst].
    rewrite Ht2, Ht1, !decide_True by done. apply commit_updates_idemp.
  - apply (update_index_other_shards _ _ _ _ _ n H2); [done|].
    intros lang Hlang Hne ->. apply Hnotin. rewrite target_items_names.
    apply list_elem_of_fmap. exists lang. split; [done|].
    by apply list_elem_of_filter.
Qed.

(** X5: an I/O error of the update flush is not retried: when the source
    index cannot be opened and the batch matches a unit, the job fails at once
    with the I/O error, whatever its retry counter, and the store is as it
    was. *)
Theorem update_fulltext_io_error_not_retried Unit_objects languages self st :
  filter (λ unit, unit_pk unit ∈ args self) Unit_objects ≠ [] →
  "source" ∈ unreadable st →
  update_fulltext Unit_objects languages self st = (Failure IOError, st).
Proof.
  intros Hunits Hu. unfold update_fulltext, extract_batch_args.
  rewrite update_index_unfold. unfold bind, open_write, open_index.
  rewrite bool_decide_true by done. unfold bind. by rewrite decide_True.
Qed.

(** ** The delete path *)

(** X6: the grouping of a delete batch depends on the pending pairs only
    as a set: their order in the batch and their repetitions change neither
    the set of unit ids nor the per-language sets. *)
Theorem group_ids_order_irrelevant ids1 ids2 :
  (∀ id, id ∈ ids1 ↔ id ∈ ids2) → group_ids ids1 = group_ids ids2.
Proof.
  intros Hsame.
  pose proof (group_ids_grouped ids1) as (Hu1 & Hd1 & Hl1).
  pose proof (group_ids_grouped ids2) as (Hu2 & Hd2 & Hl2).
  destruct (group_ids ids1) as [units1 languages1].
  destruct (group_ids ids2) as [units2 languages2]. cbn [fst snd] in *.
  f_equal.
  - apply set_eq. intros u. rewrite Hu1, Hu2. by setoid_rewrite Hsame.
  - apply map_eq. intros l.
    destruct (languages1 !! l) as [us1|] eqn:H1, (languages2 !! l) as [us2|] eqn:H2.
    + f_equal. apply set_eq. intros u.
      rewrite (Hl1 l us1 H1), (Hl2 l us2 H2). apply Hsame.
    + assert (is_Some (languages2 !! l)) as [? ?]; [|congruence].
      apply Hd2. destruct (proj1 (Hd1 l)) as [u Hu]; [by eexists|].
      exists u. by apply Hsame.
    + assert (is_Some (languages1 !! l)) as [? ?]; [|congruence].
      apply Hd1. destruct (proj1 (Hd2 l)) as [u Hu]; [by eexists|].
      exists u. by apply Hsame.
    + done.
Qed.

(** X7: in the grouping of a delete batch no language is mapped to the
    empty set, every language's set is part of the set of all unit ids, and
    that set is the union of the languages' sets. *)
Theorem group_ids_sets ids units languages :
  group_ids ids = (units, languages) →
  (∀ l us, languages !! l = Some us → us ≠ ∅ ∧ us ⊆ units) ∧
  (∀ u, u ∈ units ↔ ∃ l us, languages !! l = Some us ∧ u ∈ us).
Proof.
  intros Hg. pose proof (group_ids_grouped ids) as (Hu & Hd & Hl).
  rewrite Hg in Hu, Hd, Hl. cbn [fst snd] in *. split.
  - intros l us Hus. split.
    + destruct (proj1 (Hd l)) as [u Hin]; [by eexists|].
      apply (Hl l us Hus) in Hin. set_solver.
    + intros u Hin. apply Hu. exists l. by apply (Hl l us Hus).
  - intros u. rewrite Hu. split.
    + intros [l Hin]. destruct (proj2 (Hd l)) as [us Hus]; [by exists u|].
      exists l, us. split; [done|]. by apply (Hl l us Hus).
    + intros (l & us & Hus & Hin). exists l. by apply (Hl l us Hus).
Qed.

(** What any attempt of a delete flush leaves behind. *)
Lemma delete_search_units_any source_units languages st r st' :
  delete_search_units source_units languages st = (r, st') →
  unreadable st' = unreadable st ∧ locked st' = locked st ∧
  ∃ written finished,
    (written = delete_ops source_units ∨ written = []) ∧
    finished `prefix_of` delete_items languages ∧
    ∀ n, docs_of st' n
         = scope_docs n finished
             (if decide (n = "source") then commit written (docs_of st n)
              else docs_of st n).
Proof.
  rewrite delete_search_units_unfold. unfold bind. intros H.
  destruct (open_write _ _ _ _ st) as [[[]|e] st1] eqn:H1.
  - pose proof (open_write_frame _ _ _ _ _ _ _ H1) as [Hu1 Hl1].
    apply open_write_ok in H1 as (_ & _ & _ & Hdocs).
    pose proof (loop_frame _ _ _ _ _ _ H) as [Hu Hl].
    destruct (loop_prefix _ _ _ _ _ _ H) as (finished & Hpre & _ & Hfin).
    split_and!; [congruence..|].
    exists (delete_ops source_units), finished. split_and!; [by left|done|].
    intros n. rewrite Hfin, Hdocs. by case_decide; subst.
  - inversion H; subst.
    pose proof (open_write_frame _ _ _ _ _ _ _ H1) as [Hu1 Hl1].
    apply open_write_raise in H1 as (_ & Hdocs & _).
    split_and!; [done..|]. exists [], []. split_and!; [by right|apply prefix_nil|].
    intros n. rewrite Hdocs. unfold scope_docs. cbn [foldl]. by case_decide.
Qed.

Lemma delete_items_elem languages it :
  it ∈ delete_items languages →
  ∃ lang units, languages !! lang = Some units
                ∧ it = (target_name lang, delete_ops units).
Proof.
  unfold delete_items. intros ([lang units] & -> & Hin)%list_elem_of_fmap.
  apply elem_of_map_to_list in Hin. by exists lang, units.
Qed.

Lemma commit_deletes_adds_nothing pks (sh : Shard) p :
  is_Some (commit (delete_ops pks) sh !! p) → is_Some (sh !! p).
Proof. rewrite delete_ops_lookup. case_decide; [by intros [? ?]|done]. Qed.

Lemma scope_docs_adds_nothing n items (sh : Shard) p :
  (∀ it, it ∈ items → ∃ pks, it.2 = delete_ops pks) →
  is_Some (scope_docs n items sh !! p) → is_Some (sh !! p).
Proof.
  unfold scope_docs. revert sh. induction items as [|it items IH]; intros sh Hops Hp;
    [done|].
  cbn [foldl] in Hp. apply IH in Hp; [|intros it' Hit'; apply Hops; by right].
  case_decide; [|done]. destruct (Hops it) as [pks Hpks]; [by left|].
  rewrite Hpks in Hp. by apply commit_deletes_adds_nothing in Hp.
Qed.

(** X10: a delete flush never adds a document and never touches the locks
    or the accessibility, whatever its outcome: a key present in a shard after
    the flush was present before. *)
Theorem delete_search_units_never_adds source_units languages st r st' n p :
  delete_search_units source_units languages st = (r, st') →
  (is_Some (docs_of st' n !! p) → is_Some (docs_of st n !! p))
  ∧ unreadable st' = unreadable st ∧ locked st' = locked st.
Proof.
  intros (Hu & Hl & written & finished & Hwritten & Hpre & Hdocs)%delete_search_units_any.
  split_and!; [|done..]. rewrite Hdocs. intros Hp.
  apply scope_docs_adds_nothing in Hp.
  - case_decide; [|done]. destruct Hwritten as [->| ->]; [|done].
    by apply commit_deletes_adds_nothing in Hp.
  - intros it Hit.
    apply (prefix_elem _ _ _ Hpre), delete_items_elem in Hit as (lang & us & _ & ->).
    by eexists.
Qed.

Lemma commit_deletes_idemp pks (sh : Shard) :
  commit (delete_ops pks) (commit (delete_ops pks) sh) = commit (delete_ops pks) sh.
Proof. apply map_eq. intros p. rewrite !delete_ops_lookup. by case_decide. Qed.

Lemma delete_search_units_ok_healthy source_units languages st st' :
  delete_search_units source_units languages st = (Ok tt, st') →
  ("source" ∉ unreadable st) ∧ ("source" ∉ locked st) ∧
  ∀ it, it ∈ delete_items languages → (it.1 ∉ unreadable st) ∧ (it.1 ∉ locked st).
Proof.
  rewrite delete_search_units_unfold. unfold bind. intros H.
  destruct (open_write _ _ _ _ st) as [[[]|e] st1] eqn:H1; [|done].
  pose proof (open_write_frame _ _ _ _ _ _ _ H1) as [Hu1 Hl1].
  apply open_write_ok in H1 as (Hu & Hl & _).
  apply loop_ok in H as (Hitems & _). split_and!; [done..|].
  intros it Hit. rewrite <- Hu1, <- Hl1. by apply Hitems.
Qed.

Lemma delete_search_units_runs source_units languages st :
  "source" ∉ unreadable st → "source" ∉ locked st →
  (∀ it, it ∈ delete_items languages → (it.1 ∉ unreadable st) ∧ (it.1 ∉ locked st)) →
  ∃ st', delete_search_units source_units languages st = (Ok tt, st').
Proof.
  intros Hu Hl Hitems. rewrite delete_search_units_unfold. unfold bind.
  destruct (open_write_healthy SourceSchema IndexWriter "source"
              (delete_ops source_units) st Hu Hl) as [st1 H1].
  rewrite H1. apply open_write_frame in H1 as [Hu1 Hl1].
  apply loop_healthy. intros it Hit. rewrite Hu1, Hl1. by apply Hitems.
Qed.

(** The documents of every shard after a successful delete flush. *)
Lemma delete_search_units_docs source_units languages st st' n :
  delete_search_units source_units languages st = (Ok tt, st') →
  docs_of st' n
  = scope_docs n (delete_items languages)
      (if decide (n = "source") then commit (delete_ops source_units) (docs_of st n)
       else docs_of st n).
Proof.
  rewrite delete_search_units_unfold. unfold bind. intros H.
  destruct (open_write _ _ _ _ st) as [[[]|e] st1] eqn:H1; [|done].
  apply open_write_ok in H1 as (_ & _ & _ & Hdocs).
  apply loop_ok in H as (_ & _ & Hfin). rewrite Hfin, Hdocs. by case_decide; subst.
Qed.

(** X9: a delete flush is idempotent: after a successful flush, the same
    flush again succeeds and leaves every shard with the same documents. *)
Theorem delete_search_units_idempotent source_units languages st st1 :
  delete_search_units source_units languages st = (Ok tt, st1) →
  ∃ st2, delete_search_units source_units languages st1 = (Ok tt, st2)
         ∧ ∀ n, docs_of st2 n = docs_of st1 n.
Proof.
  intros H1.
  pose proof (delete_search_units_any _ _ _ _ _ H1) as (Hu & Hl & _).
  pose proof (delete_search_units_ok_healthy _ _ _ _ H1) as (Hsu & Hsl & Hitems).
  destruct (delete_search_units_runs source_units languages st1) as [st2 H2].
  { by rewrite Hu. } { by rewrite Hl. }
  { intros it Hit. rewrite Hu, Hl. by apply Hitems. }
  exists st2. split; [done|]. intros n.
  rewrite (delete_search_units_docs _ _ _ _ n H2),
    (delete_search_units_docs _ _ _ _ n H1).
  destruct (decide (n = "source")) as [->|Hn].
  - assert (Hnotin : "source" ∉ (delete_items languages).*1).
    { rewrite delete_items_names. intros (l & Hl' & _)%list_elem_of_fmap.
      by eapply target_name_not_source. }
    rewrite !scope_docs_notin by done. apply commit_deletes_idemp.
  - destruct (decide (n ∈ (delete_items languages).*1)) as [Hin|Hnotin].
    + apply list_elem_of_fmap in Hin as (it & -> & Hit).
      pose proof Hit as (lang & us & _ & ->)%delete_items_elem. cbn [fst].
      rewrite !(scope_docs_in _ (delete_ops us)) by (done || apply delete_items_NoDup).
      apply commit_deletes_idemp.
    + by rewrite !scope_docs_notin.
Qed.

(** X8: a delete flush with nothing to delete still opens the source index
    and takes its writer: it fails with the lock error when the lock is held,
    and otherwise commits one writer scope without operations and changes no
    document. *)
Theorem delete_search_units_empty_batch st :
  "source" ∉ unreadable st →
  ("source" ∈ locked st → (delete_search_units ∅ ∅ st).1 = Raise LockError) ∧
  ("source" ∉ locked st →
   ∃ st', delete_search_units ∅ ∅ st = (Ok tt, st') ∧
          log st' = (log st ++ [WriterScope IndexWriter "source" []])%list ∧
          ∀ n, docs_of st' n = docs_of st n).
Proof.
  intros Hu. split.
  - intros Hl. rewrite delete_search_units_unfold. unfold bind.
    destruct (open_write _ _ _ _ st) as [[[]|e] st1] eqn:H1.
    + by apply open_write_ok in H1 as (_ & ? & _).
    + by apply open_write_raise in H1 as (_ & _ & [[_ ?]|[-> _]]).
  - intros Hl.
    destruct (delete_search_units_runs ∅ ∅ st Hu Hl) as [st' Hrun].
    { intros it Hit. unfold delete_items in Hit. rewrite map_to_list_empty in Hit.
      by apply elem_of_nil in Hit. }
    exists st'. split; [done|].
    pose proof (delete_search_units_ok _ _ _ _ Hrun) as (Hlog & _).
    split.
    + rewrite Hlog. unfold delete_ops. by rewrite elements_empty, map_to_list_empty.
    + intros n. rewrite (delete_search_units_docs _ _ _ _ n Hrun).
      unfold delete_items. rewrite map_to_list_empty. unfold scope_docs. cbn [fmap list_fmap foldl].
      case_decide; [|done]. subst. unfold delete_ops. by rewrite elements_empty.
Qed.

(** X11: the delete flush writes the source shard first: when a language's
    target index cannot be opened (and no lock is held), the I/O error leaves
    the flush with the source documents of the batch already deleted. *)
Theorem delete_search_units_unreadable_target source_units languages st lang units :
  "source" ∉ unreadable st → locked st = ∅ →
  languages !! lang = Some units → target_name lang ∈ unreadable st →
  ∃ st', delete_search_units source_units languages st = (Raise IOError, st')
         ∧ ∀ p, p ∈ source_units → docs_of st' "source" !! p = None.
Proof.
  intros Hu Hl Hlang Hbad.
  destruct (delete_search_units source_units languages st) as [r st'] eqn:Hrun.
  exists st'.
  assert (Hsrc : ∀ p, p ∈ source_units → docs_of st' "source" !! p = None).
  { revert Hrun. rewrite delete_search_units_unfold. unfold bind. intros H.
    destruct (open_write _ _ _ _ st) as [[[]|e] st1] eqn:H1.
    - apply open_write_ok in H1 as (_ & _ & _ & Hdocs). intros p Hp.
      rewrite (loop_docs_notin _ _ _ _ _ _ "source" H).
      + rewrite Hdocs, decide_True, delete_ops_lookup by done. by rewrite decide_True.
      + rewrite delete_items_names. intros (l & Hl' & _)%list_elem_of_fmap.
        by eapply target_name_not_source.
    - apply open_write_raise in H1 as (_ & _ & [[_ ?]|(_ & _ & Hin)]); [done|].
      rewrite Hl in Hin. set_solver. }
  split; [|done]. f_equal.
  revert Hrun. rewrite delete_search_units_unfold. unfold bind. intros H.
  destruct (open_write _ _ _ _ st) as [[[]|e] st1] eqn:H1.
  - pose proof (open_write_frame _ _ _ _ _ _ _ H1) as [Hu1 Hl1].
    destruct r as [[]|e].
    + apply loop_ok in H as (Hitems & _).
      destruct (Hitems (target_name lang, delete_ops units)) as [Hgood _].
      { unfold delete_items. apply list_elem_of_fmap. exists (lang, units).
        split; [done|]. by apply elem_of_map_to_list. }
      exfalso. apply Hgood. cbn [fst]. by rewrite Hu1.
    + apply loop_raise in H as (it & _ & [[-> _]|[_ Hin]]); [done|].
      rewrite Hl1, Hl in Hin. set_solver.
  - apply open_write_raise in H1 as (_ & _ & [[_ ?]|(_ & _ & Hin)]); [done|].
    rewrite Hl in Hin. set_solver.
Qed.

(** ** Deleting a single unit *)

Lemma open_index_locked schema name st r st' :
  open_index schema name st = (r, st') → locked st' = locked st.
Proof.
  unfold open_index. case_decide; [by intros [= _ <-]|].
  destruct (shards st !! name); by intros [= _ <-].
Qed.

Lemma with_async_writer_run index body st :
  ∃ st', with_async_writer index body st = (Ok tt, st') ∧
    unreadable st' = unreadable st ∧ locked st' = locked st ∧
    ∀ n, docs_of st' n
         = (if decide (n = index_name index ∧ index_name index ∉ locked st)
            then commit (body []) (docs_of st n) else docs_of st n).
Proof.
  unfold with_async_writer. cbv zeta. case_decide as Hl.
  - eexists. split_and!; [done..|]. intros n. rewrite docs_of_add_log.
    rewrite decide_False; [done|]. by intros [_ ?].
  - eexists. split_and!; [done..|]. intros n.
    rewrite docs_of_add_log, docs_of_insert.
    destruct (decide (n = index_name index)) as [->|Hn].
    + by rewrite decide_True.
    + rewrite decide_False; [done|]. by intros [? _].
Qed.

(** The run of [delete_search_unit], case by case. *)
Lemma delete_search_unit_run pk lang st :
  ∃ st', delete_search_unit pk lang st = (Ok tt, st') ∧
    unreadable st' = unreadable st ∧ locked st' = locked st ∧
    (("source" ∈ unreadable st ∨ target_name lang ∈ unreadable st) →
     log st' = log st ∧ ∀ n, docs_of st' n = docs_of st n) ∧
    ("source" ∉ unreadable st → target_name lang ∉ unreadable st →
     ∀ n, docs_of st' n
          = (if decide ((n = "source" ∨ n = target_name lang) ∧ n ∉ locked st)
             then commit [DeleteByTerm "pk" pk] (docs_of st n) else docs_of st n)).
Proof.
  unfold delete_search_unit, try_except, get_source_index, get_target_index, bind.
  cbv zeta.
  destruct (open_index_run SourceSchema "source" st) as (st1 & H1 & [Hu1 Hd1] & Hlog1).
  pose proof (open_index_locked _ _ _ _ _ H1) as Hl1. rewrite H1.
  destruct (decide ("source" ∈ unreadable st)) as [Hsu|Hsu].
  { rewrite decide_True by done. exists st1. unfold ret.
    split_and!; [done..| |done]. by intros _. }
  destruct (open_index_run TargetSchema (target_name lang) st1)
    as (st2 & H2 & [Hu2 Hd2] & Hlog2).
  pose proof (open_index_locked _ _ _ _ _ H2) as Hl2. rewrite H2, Hu1.
  destruct (decide (target_name lang ∈ unreadable st)) as [Htu|Htu].
  { rewrite decide_True by done. exists st2. unfold ret.
    split_and!; [congruence..| |done].
    intros _. split; [congruence|]. intros n. by rewrite Hd2, Hd1. }
  cbn [for_each]. unfold bind.
  destruct (with_async_writer_run {| index_name := "source"; index_schema := SourceSchema |}
              (λ writer, delete_by_term writer "pk" pk) st2) as (st3 & -> & Hu3 & Hl3 & Hd3).
  destruct (with_async_writer_run
              {| index_name := target_name lang; index_schema := TargetSchema |}
              (λ writer, delete_by_term writer "pk" pk) st3) as (st4 & -> & Hu4 & Hl4 & Hd4).
  exists st4. unfold ret. split_and!; [done|congruence|congruence| |].
  - by intros [?|?].
  - intros _ _ n. rewrite Hd4, Hd3. cbn [index_name]. rewrite Hl3, Hl2, Hl1, Hd2, Hd1.
    destruct (decide (n = "source")) as [->|Hn].
    + rewrite (decide_False (P := "source" = target_name lang ∧ _)).
      2:{ intros [Heq _]. by eapply target_name_not_source. }
      destruct (decide ("source" ∈ locked st)) as [Hl|Hl].
      * rewrite !decide_False; [done|by intros [_ ?]..].
      * rewrite !decide_True; [done|split; [by left|done]|by split].
    + rewrite (decide_False (P := n = "source" ∧ _)) by (by intros [? _]).
      destruct (decide (n = target_name lang)) as [->|Hn'].
      * destruct (decide (target_name lang ∈ locked st)) as [Hl|Hl].
        -- rewrite !decide_False; [done|by intros [_ ?]..].
        -- rewrite !decide_True; [done|split; [by right|done]|by split].
      * rewrite !decide_False; [done|by intros [[?|?] _]|by intros [? _]].
Qed.

(** X12: [delete_search_unit] never raises: an index that cannot be opened
    is answered by returning, and a held write lock does not fail the
    asynchronous writer.  It changes neither the locks nor the
    accessibility. *)
Theorem delete_search_unit_never_raises pk lang st :
  ∃ st', delete_search_unit pk lang st = (Ok tt, st')
         ∧ unreadable st' = unreadable st ∧ locked st' = locked st.
Proof.
  destruct (delete_search_unit_run pk lang st) as (st' & Hrun & Hu & Hl & _).
  by exists st'.
Qed.

(** X13: [delete_search_unit] opens both indices before it writes: when
    the source index or the language's target index cannot be opened, nothing
    is deleted from either, and no writer scope is logged. *)
Theorem delete_search_unit_all_or_nothing pk lang st :
  "source" ∈ unreadable st ∨ target_name lang ∈ unreadable st →
  ∃ st', delete_search_unit pk lang st = (Ok tt, st')
         ∧ log st' = log st ∧ ∀ n, docs_of st' n = docs_of st n.
Proof.
  intros Hbad.
  destruct (delete_search_unit_run pk lang st) as (st' & Hrun & _ & _ & Hnone & _).
  exists st'. split; [done|]. by apply Hnone.
Qed.

Lemma commit_delete_one pk (sh : Shard) p :
  commit [DeleteByTerm "pk" pk] sh !! p = (if decide (p = pk) then None else sh !! p).
Proof.
  unfold commit. cbn. case_decide as Hp.
  - subst. apply lookup_delete_eq.
  - by rewrite lookup_delete_ne.
Qed.

(** X14: without held locks and unreadable indices, the batched delete of
    the single pair (pk, lang) and [delete_search_unit pk lang] leave the same
    documents: the key is gone from the source shard and from the language's
    target shard, and nothing else has changed. *)
Theorem delete_search_unit_agrees_with_batch pk lang k st :
  unreadable st = ∅ → locked st = ∅ →
  ∃ st1 st2,
    delete_search_unit pk lang st = (Ok tt, st1) ∧
    delete_fulltext {| args := [(pk, lang)]; retries := k |} st = (Success, st2) ∧
    (∀ n, docs_of st1 n = docs_of st2 n) ∧
    (∀ n p, docs_of st1 n !! p
            = (if decide ((n = "source" ∨ n = target_name lang) ∧ p = pk)
               then None else docs_of st n !! p)).
Proof.
  intros Hu Hl.
  destruct (delete_search_unit_run pk lang st) as (st1 & Hrun1 & _ & _ & _ & Hd1).
  assert (Hdocs1 : ∀ n p, docs_of st1 n !! p
            = (if decide ((n = "source" ∨ n = target_name lang) ∧ p = pk)
               then None else docs_of st n !! p)).
  { intros n p. rewrite Hd1 by (rewrite Hu; set_solver).
    destruct (decide (n = "source" ∨ n = target_name lang)) as [Hn|Hn].
    - rewrite decide_True by (split; [done|rewrite Hl; set_solver]).
      rewrite commit_delete_one. destruct (decide (p = pk)) as [->|Hp].
      + by rewrite decide_True.
      + rewrite decide_False; [done|]. by intros [_ ?].
    - rewrite !decide_False; [done|by intros [? _]..]. }
  destruct (group_ids [(pk, lang)]) as [units languages] eqn:Hg.
  pose proof (group_ids_grouped [(pk, lang)]) as (Hunits & Hdom & Hlang).
  rewrite Hg in Hunits, Hdom, Hlang. cbn [fst snd] in *.
  destruct (delete_search_units_healthy units languages st Hu Hl) as [st2 Hrun2].
  exists st1, st2. split_and!; [done| | |done].
  { unfold delete_fulltext, extract_batch_args. cbn [args]. by rewrite Hg, Hrun2. }
  intros n. apply map_eq. intros p. rewrite Hdocs1.
  pose proof (delete_search_units_ok _ _ _ _ Hrun2) as (_ & Hsrc & Htgt).
  destruct (decide (n = "source")) as [->|Hn].
  { rewrite Hsrc. destruct (decide (p = pk)) as [->|Hp].
    - rewrite !decide_True; [done| |split; [by left|done]].
      apply Hunits. exists lang. by left.
    - rewrite !decide_False; [done| |by intros [_ ?]].
      intros [l Hin%list_elem_of_singleton]%Hunits. congruence. }
  destruct (decide (n = target_name lang)) as [->|Hn'].
  { rewrite Htgt. destruct (proj2 (Hdom lang)) as [us Hus]; [exists pk; by left|].
    rewrite Hus. destruct (decide (p = pk)) as [->|Hp].
    - rewrite !decide_True; [done| |split; [by right|done]].
      apply (Hlang lang us Hus). by left.
    - rewrite !decide_False; [done| |by intros [_ ?]].
      intros Hin%(Hlang lang us Hus)%list_elem_of_singleton. congruence. }
  rewrite decide_False by (by intros [[?|?] _]).
  rewrite (delete_search_units_docs _ _ _ _ n Hrun2), decide_False by done.
  rewrite scope_docs_notin; [done|]. rewrite delete_items_names.
  intros (l & -> & Hin)%list_elem_of_fmap.
  apply list_elem_of_fmap in Hin as ([l' us] & -> & Hin). cbn [fst] in *.
  apply elem_of_map_to_list in Hin.
  destruct (proj1 (Hdom l')) as [u Hu']; [by eexists|].
  apply list_elem_of_singleton in Hu'. by inversion Hu'; subst.
Qed.

(** ** Reading never writes *)

Lemma read_step_refl st : read_step st st.
Proof.
  split_and!; [done..|]. exists []. split; [by rewrite app_nil_r|by apply Forall_nil].
Qed.

Lemma read_step_trans st1 st2 st3 :
  read_step st1 st2 → read_step st2 st3 → read_step st1 st3.
Proof.
  intros (Hu1 & Hl1 & Hd1 & ev1 & Hlog1 & Hev1) (Hu2 & Hl2 & Hd2 & ev2 & Hlog2 & Hev2).
  split_and!; [congruence..| |].
  - intros n. by rewrite Hd2, Hd1.
  - exists (ev1 ++ ev2)%list. split.
    + by rewrite Hlog2, Hlog1, <- app_assoc.
    + by apply Forall_app.
Qed.

Lemma reads_only_ret {A} (a : A) : reads_only (ret a).
Proof. intros st r st' [= _ <-]. apply read_step_refl. Qed.

Lemma reads_only_lift {A} (r : result A) : reads_only (lift r).
Proof. intros st r' st' [= _ <-]. apply read_step_refl. Qed.

Lemma reads_only_bind {A B} (m : M A) (k : A → M B) :
  reads_only m → (∀ a, reads_only (k a)) → reads_only (bind m k).
Proof.
  intros Hm Hk st r st'. unfold bind.
  destruct (m st) as [[a|e] st1] eqn:H1.
  - intros H2. eapply read_step_trans; [by eapply Hm|by eapply Hk].
  - intros [= _ <-]. by eapply Hm.
Qed.

Lemma reads_only_for_fold {A B} (l : list A) (acc : B) (body : B → A → M B) :
  (∀ acc x, reads_only (body acc x)) → reads_only (for_fold l acc body).
Proof.
  intros Hbody. revert acc. induction l as [|x l IH]; intros acc; cbn [for_fold].
  - apply reads_only_ret.
  - apply reads_only_bind; [apply Hbody|]. intros acc'. apply IH.
Qed.

Lemma reads_only_open_index schema name : reads_only (open_index schema name).
Proof.
  intros st r st' H. pose proof (open_index_locked _ _ _ _ _ H) as Hl.
  destruct (open_index_run schema name st) as (st1 & H1 & [Hu Hd] & Hlog).
  rewrite H in H1. inversion H1; subst.
  split_and!; [done..|]. exists []. split; [by rewrite app_nil_r|by apply Forall_nil].
Qed.

Lemma reads_only_index_searcher index : reads_only (index_searcher index).
Proof. intros st r st' [= _ <-]. apply read_step_refl. Qed.

Section ReadsOnly.
Context `{!Engine}.

Lemma reads_only_searcher_search searcher q limit :
  reads_only (searcher_search searcher q limit).
Proof.
  intros st r st'. unfold searcher_search.
  destruct limit as [[|n]|]; intros [= _ <-]; try apply read_step_refl.
  all: split_and!; [done..|]; eexists [_]; split; [done|];
    by apply Forall_singleton.
Qed.

Lemma reads_only_base_search index query params search schema :
  reads_only (base_search index query params search schema).
Proof.
  unfold base_search.
  apply reads_only_bind; [apply reads_only_index_searcher|]. intros searcher.
  apply reads_only_bind.
  { apply reads_only_for_fold. intros queries param.
    destruct (getitem search param); [|apply reads_only_ret].
    apply reads_only_bind; [apply reads_only_lift|]. intros parsed.
    apply reads_only_ret. }
  intros queries.
  apply reads_only_bind; [apply reads_only_lift|]. intros terms.
  apply reads_only_bind; [apply reads_only_searcher_search|]. intros results.
  apply reads_only_ret.
Qed.

Lemma reads_only_search query langs params : reads_only (search query langs params).
Proof.
  unfold search. cbv zeta.
  apply reads_only_bind.
  { destruct (_ || _).
    - apply reads_only_bind; [apply reads_only_open_index|]. intros index.
      apply reads_only_bind; [apply reads_only_base_search|]. intros found.
      apply reads_only_ret.
    - apply reads_only_ret. }
  intros pks. apply reads_only_bind; [|intros; apply reads_only_ret].
  destruct (_ || _); [|apply reads_only_ret].
  apply reads_only_for_fold. intros acc lang.
  apply reads_only_bind; [apply reads_only_open_index|]. intros index.
  apply reads_only_bind; [apply reads_only_base_search|]. intros found.
  apply reads_only_ret.
Qed.

Lemma reads_only_more_like pk source top : reads_only (more_like pk source top).
Proof.
  unfold more_like.
  apply reads_only_bind; [apply reads_only_open_index|]. intros index.
  apply reads_only_bind; [apply reads_only_index_searcher|]. intros searcher.
  cbv zeta.
  apply reads_only_bind; [apply reads_only_searcher_search|]. intros results.
  case_bool_decide; [apply reads_only_ret|].
  apply reads_only_bind; [apply reads_only_lift|]. intros max_score.
  apply reads_only_bind; [apply reads_only_lift|]. intros scores.
  apply reads_only_ret.
Qed.

(** X15: [search] only reads: whatever it returns or raises, every shard
    keeps its documents, the locks and the accessibility are as before, and
    the log gains searches only, never a writer scope. *)
Theorem search_reads_only query langs params st r st' :
  search query langs params st = (r, st') →
  (∀ n, docs_of st' n = docs_of st n) ∧
  unreadable st' = unreadable st ∧ locked st' = locked st ∧
  ∃ events, log st' = (log st ++ events)%list ∧
    ∀ e, e ∈ events → ∃ name q limit, e = Searched name q limit.
Proof.
  intros (Hu & Hl & Hd & events & Hlog & Hev)%reads_only_search.
  split_and!; [done..|]. exists events. split; [done|].
  intros e He. rewrite Forall_forall in Hev. specialize (Hev e He).
  destruct e; try done. by eexists _, _, _.
Qed.

(** X21: [more_like] only reads: whatever it returns or raises, every
    shard keeps its documents, the locks and the accessibility are as
    before, and the log gains at most searches. *)
Theorem more_like_reads_only pk source top st r st' :
  more_like pk source top st = (r, st') →
  (∀ n, docs_of st' n = docs_of st n) ∧
  unreadable st' = unreadable st ∧ locked st' = locked st ∧
  ∃ events, log st' = (log st ++ events)%list ∧
    ∀ e, e ∈ events → ∃ name q limit, e = Searched name q limit.
Proof.
  intros (Hu & Hl & Hd & events & Hlog & Hev)%reads_only_more_like.
  split_and!; [done..|]. exists events. split; [done|].
  intros e He. rewrite Forall_forall in Hev. specialize (Hev e He).
  destruct e; try done. by eexists _, _, _.
Qed.
End ReadsOnly.

(** ** More on searching *)

Section SearchMore.
Context `{!Engine}.




(** X17: enabling more fields never loses a result: when every field
    that one mapping enables is enabled by another, what [search] returns
    for the first is part of what it returns for the second. *)
Theorem search_monotone_fields query langs (params1 params2 : gmap string bool)
    st pks1 pks2 :
  (∀ field, params1 !! field = Some true → params2 !! field = Some true) →
  (search query langs params1 st).1 = Ok pks1 →
  (search query langs params2 st).1 = Ok pks2 →
  pks1 ⊆ pks2.
Proof.
  intros Hmore ->%search_Ok ->%search_Ok p. rewrite !elem_of_search_union.
  intros [(field & d & ? & ?%Hmore & ? & ?)
         |(lang & field & d & ? & ? & ?%Hmore & ? & ?)].
  - left. by exists field, d.
  - right. by exists lang, field, d.
Qed.

(** X18: consulting more languages never loses a result. *)
Theorem search_monotone_langs query langs1 langs2 params st pks1 pks2 :
  (∀ lang, lang ∈ langs1 → lang ∈ langs2) →
  (search query langs1 params st).1 = Ok pks1 →
  (search query langs2 params st).1 = Ok pks2 →
  pks1 ⊆ pks2.
Proof.
  intros Hmore ->%search_Ok ->%search_Ok p. rewrite !elem_of_search_union.
  intros [?|(lang & field & d & ?%Hmore & ? & ? & ? & ?)]; [by left|].
  right. by exists lang, field, d.
Qed.

Lemma update_index_own_source languages units st st' u :
  update_index languages units st = (Ok tt, st') →
  NoDup (unit_pk <$> units) → u ∈ units →
  docs_of st' "source" !! unit_pk u = Some (source_doc u).
Proof.
  intros (_ & Hsrc & _)%update_index_ok Hnd Hu.
  rewrite Hsrc. unfold source_ops. rewrite commit_updates_lookup.
  destruct (last_filter_elem (λ u', unit_pk u' = unit_pk u) units u Hu eq_refl)
    as (u' & -> & Hu' & Hpk).
  by rewrite (NoDup_key_inj unit_pk units u' u Hnd Hu' Hu Hpk).
Qed.

Lemma update_index_own_target languages units st st' u :
  update_index languages units st = (Ok tt, st') →
  NoDup (unit_pk <$> units) → u ∈ units →
  unit_target u ≠ "" → unit_language u ∈ languages →
  docs_of st' (target_name (code (unit_language u))) !! unit_pk u
  = Some (target_doc u).
Proof.
  intros (_ & _ & Htgt)%update_index_ok Hnd Hu Ht Hl.
  rewrite Htgt, decide_True by done.
  unfold target_ops. rewrite commit_updates_lookup.
  destruct (last_filter_elem (λ u', unit_pk u' = unit_pk u)
              (language_units units (unit_language u)) u) as (u' & -> & Hu' & Hpk);
    [by apply list_elem_of_filter|done|].
  apply list_elem_of_filter in Hu' as [_ Hu'].
  by rewrite (NoDup_key_inj unit_pk units u' u Hnd Hu' Hu Hpk).
Qed.

(** X19: what an update flush indexes can be found: after a successful
    flush of units with distinct keys, a search with the source field
    enabled returns a unit of the batch whenever the query matches its source
    document, and a search with the target field enabled over a collection
    containing the unit's language returns it whenever its target is not
    empty, its language has translations and the query matches its target
    document. *)
Theorem search_after_update languages units st st1 u query langs params pks :
  update_index languages units st = (Ok tt, st1) →
  NoDup (unit_pk <$> units) → u ∈ units →
  (search query langs params st1).1 = Ok pks →
  (params !! "source" = Some true →
   parsed_matches "source" query (source_doc u) = true → unit_pk u ∈ pks) ∧
  (params !! "target" = Some true → unit_target u ≠ "" →
   unit_language u ∈ languages → code (unit_language u) ∈ langs →
   parsed_matches "target" query (target_doc u) = true → unit_pk u ∈ pks).
Proof.
  intros Hrun Hnd Hu ->%search_Ok. split.
  - intros Hon Hm. apply elem_of_search_union. left.
    exists "source", (source_doc u). split_and!; [by left|done| |done].
    by apply (update_index_own_source languages units st).
  - intros Hon Ht Hl Hlang Hm. apply elem_of_search_union. right.
    exists (code (unit_language u)), "target", (target_doc u).
    split_and!; [done|by left|done| |done].
    by apply (update_index_own_target languages units st).
Qed.

(** X20: what a delete flush removes cannot be found: after a successful
    flush of a batch that names the unit id with every language of the
    collection (and with at least one language), no search over that
    collection returns the id, whatever the query and the fields. *)
Theorem search_after_delete self st st1 p query langs params pks :
  delete_fulltext self st = (Success, st1) →
  (∃ lang, (p, lang) ∈ args self) →
  (∀ lang, lang ∈ langs → (p, lang) ∈ args self) →
  (search query langs params st1).1 = Ok pks →
  p ∉ pks.
Proof.
  unfold delete_fulltext, extract_batch_args.
  destruct (group_ids (args self)) as [units languages] eqn:Hg.
  pose proof (group_ids_grouped (args self)) as (Hunits & Hdom & Hlang).
  rewrite Hg in Hunits, Hdom, Hlang. cbn [fst snd] in *.
  destruct (delete_search_units units languages st) as [[[]|exc] st2] eqn:Hrun.
  2:{ case_decide; [|done]. unfold retry. by case_decide. }
  intros [= <-] Hsome Hall ->%search_Ok.
  apply delete_search_units_ok in Hrun as (_ & Hsrc & Htgt).
  rewrite elem_of_search_union.
  intros [(field & d & _ & _ & Hd & _)|(lang & field & d & Hin & _ & _ & Hd & _)].
  - rewrite Hsrc, decide_True in Hd; [done|]. by apply Hunits.
  - rewrite Htgt in Hd.
    destruct (proj2 (Hdom lang)) as [us Hus]; [exists p; by apply Hall|].
    rewrite Hus, decide_True in Hd; [done|].
    apply (Hlang lang us Hus). by apply Hall.
Qed.
End SearchMore.

(** ** More on similar units *)

Section SimilarityMore.
Context `{!Engine}.

Lemma similar_hits_keys sh source top p :
  p ∈ (similar_hits sh source top).*1 → is_Some (sh !! p).
Proof.
  unfold similar_hits. rewrite fmap_take. intros Hp%subseteq_take.
  apply elem_of_hits_keys, elem_of_matching in Hp as (d & Hd & _). by eexists.
Qed.

(** Whatever [more_like] returns is a selection of the keys of the hits,
    in their order, without the querying key. *)
Lemma more_like_Ok pk source top st similar :
  (more_like pk source top st).1 = Ok similar →
  similar `sublist_of` (similar_hits (docs_of st "source") source top).*1
  ∧ pk ∉ similar.
Proof.
  destruct (decide ("source" ∈ unreadable st)) as [Hu|Hu].
  { unfold more_like, get_source_index, bind, open_index. by rewrite decide_True. }
  destruct (decide (top = 0%nat)) as [->|Htop].
  { unfold more_like, get_source_index, bind.
    destruct (open_index_run SourceSchema "source" st) as (st1 & -> & _).
    by rewrite decide_False. }
  rewrite more_like_run by done. cbv zeta.
  case_bool_decide as Hnil.
  { intros [= <-]. split; [apply sublist_nil_l|]. by intros ?%elem_of_nil. }
  destruct (py_max _) as [max_score|e]; [|done].
  destruct (normalize _ _) as [scores|e]; [|done].
  intros [= <-]. split.
  - apply fmap_sublist, sublist_filter.
  - intros (h & -> & [[_ Hpk] _]%list_elem_of_filter)%list_elem_of_fmap. done.
Qed.

(** X22: whatever [more_like] returns has at most [top] keys, no key
    twice, never the querying key, and only keys of documents of the source
    shard. *)
Theorem more_like_result_bounds pk source top st similar :
  (more_like pk source top st).1 = Ok similar →
  (length similar ≤ top)%nat ∧ NoDup similar ∧ (pk ∉ similar) ∧
  ∀ p, p ∈ similar → is_Some (docs_of st "source" !! p).
Proof.
  intros [Hsub Hpk]%more_like_Ok. split_and!; [| |done|].
  - apply sublist_length in Hsub. rewrite length_fmap in Hsub.
    unfold similar_hits in Hsub. rewrite length_take in Hsub. lia.
  - eapply sublist_NoDup; [apply NoDup_similar_hits|done].
  - intros p Hp. eapply similar_hits_keys, elem_of_sublist; done.
Qed.

(** X24: the normalization divides by the best raw score: when the hits
    are not empty and all their raw scores are zero, [more_like] raises
    ZeroDivisionError. *)
Theorem more_like_zero_scores pk source top st :
  "source" ∉ unreadable st →
  similar_hits (docs_of st "source") source top ≠ [] →
  (∀ h, h ∈ similar_hits (docs_of st "source") source top
        → (h.2 =? 0)%float = true) →
  (more_like pk source top st).1 = Raise ZeroDivisionError.
Proof.
  intros Hu Hne Hzero.
  assert (Htop : top ≠ 0%nat).
  { intros ->. by apply Hne. }
  rewrite more_like_run by done. cbv zeta. rewrite bool_decide_false by done.
  destruct (py_max_in (similar_hits (docs_of st "source") source top).*2)
    as (max_score & -> & Hin).
  { intros Hnil. apply Hne. by apply fmap_nil_inv in Hnil. }
  apply list_elem_of_fmap in Hin as (h & -> & Hh).
  unfold normalize.
  destruct (similar_hits (docs_of st "source") source top) as [|h0 rest] eqn:Hhits;
    [done|].
  rewrite <- Hhits in Hzero. rewrite Hzero; [done|]. by rewrite Hhits.
Qed.
End SimilarityMore.

(** ** The further properties on the sample data *)

Lemma sample_update_runs :
  update_index [cs; de] [hello_cs; hello_de; world_de] empty_store
  = (Ok tt, indexed_store).
Proof. vm_compute. reflexivity. Qed.

Lemma indexed_store_unlocked : locked indexed_store = ∅.
Proof. vm_compute. reflexivity. Qed.

Lemma sample_keys_distinct : NoDup (unit_pk <$> [hello_cs; hello_de; world_de]).
Proof. cbn. repeat constructor; set_solver. Qed.

Lemma update_fulltext_no_matching_unit_witness :
  (∀ u, u ∈ [hello_cs] → unit_pk u ∉ [7%Z]) ∧
  update_fulltext [hello_cs] [cs] {| args := [7%Z]; retries := 0 |} contended_store
  = (Success, contended_store).
Proof.
  assert (Hnone : ∀ u, u ∈ [hello_cs] → unit_pk u ∉ [7%Z]).
  { intros u ->%list_elem_of_singleton. cbn. set_solver. }
  split; [exact Hnone|].
  apply (update_fulltext_no_matching_unit [hello_cs] [cs]
           {| args := [7%Z]; retries := 0 |} contended_store Hnone).
Defined.

Lemma update_index_idempotent_witness :
  update_index [cs; de] [hello_cs; hello_de; world_de] empty_store
  = (Ok tt, indexed_store) ∧
  ∃ st2, update_index [cs; de] [hello_cs; hello_de; world_de] indexed_store = (Ok tt, st2)
         ∧ ∀ n, docs_of st2 n = docs_of indexed_store n.
Proof.
  split; [exact sample_update_runs|].
  apply (update_index_idempotent _ _ empty_store), sample_update_runs.
Defined.

Lemma update_index_touches_only_its_shards_witness :
  update_index [cs; de] [hello_cs] indexed_store
  = (Ok tt, (update_index [cs; de] [hello_cs] indexed_store).2) ∧
  "target-de" ≠ "source" ∧
  (∀ lang, lang ∈ [cs; de] → language_units [hello_cs] lang ≠ [] →
           "target-de" ≠ target_name (code lang)) ∧
  docs_of (update_index [cs; de] [hello_cs] indexed_store).2 "target-de"
  = docs_of indexed_store "target-de".
Proof.
  assert (Hother : ∀ lang, lang ∈ [cs; de] → language_units [hello_cs] lang ≠ [] →
                           "target-de" ≠ target_name (code lang)).
  { intros lang Hin Hne.
    repeat (apply elem_of_cons in Hin as [->|Hin]); [done|by destruct Hne|].
    by apply elem_of_nil in Hin. }
  assert (Hsrc : "target-de" ≠ "source") by done.
  assert (Hrun : update_index [cs; de] [hello_cs] indexed_store
                 = (Ok tt, (update_index [cs; de] [hello_cs] indexed_store).2)).
  { vm_compute. reflexivity. }
  split_and!; [exact Hrun|exact Hsrc|exact Hother|].
  apply (update_index_touches_only_its_shards [cs; de] [hello_cs] indexed_store
           (Ok tt) _ "target-de" Hrun); [exact Hsrc|exact Hother].
Defined.

Lemma update_index_never_removes_witness :
  update_index [cs; de] [hello_de] indexed_store
  = (Ok tt, (update_index [cs; de] [hello_de] indexed_store).2) ∧
  is_Some (docs_of indexed_store "target-de" !! 3%Z) ∧
  is_Some (docs_of (update_index [cs; de] [hello_de] indexed_store).2
             "target-de" !! 3%Z).
Proof.
  assert (Hrun : update_index [cs; de] [hello_de] indexed_store
                 = (Ok tt, (update_index [cs; de] [hello_de] indexed_store).2)).
  { vm_compute. reflexivity. }
  assert (Hin : is_Some (docs_of indexed_store "target-de" !! 3%Z)).
  { by eexists. }
  split_and!; [exact Hrun|exact Hin|].
  apply (update_index_never_removes [cs; de] [hello_de] indexed_store (Ok tt) _
           "target-de" 3%Z Hrun Hin).
Defined.

Lemma update_fulltext_io_error_not_retried_witness :
  filter (λ unit, unit_pk unit ∈ [1%Z]) [hello_cs] ≠ [] ∧
  "source" ∈ unreadable unreadable_store ∧
  update_fulltext [hello_cs] [cs] {| args := [1%Z]; retries := 3 |} unreadable_store
  = (Failure IOError, unreadable_store).
Proof.
  assert (Hunits : filter (λ unit, unit_pk unit ∈ [1%Z]) [hello_cs] ≠ []).
  { rewrite filter_cons, decide_True; [done|]. cbn. set_solver. }
  assert (Hu : "source" ∈ unreadable unreadable_store).
  { unfold unreadable_store; cbn [unreadable]; set_solver. }
  split_and!; [exact Hunits|exact Hu|].
  apply (update_fulltext_io_error_not_retried [hello_cs] [cs]
           {| args := [1%Z]; retries := 3 |} unreadable_store Hunits Hu).
Defined.

Lemma group_ids_order_irrelevant_witness :
  (∀ id, id ∈ [(1%Z, "cs"); (3%Z, "de")] ↔ id ∈ [(3%Z, "de"); (1%Z, "cs"); (1%Z, "cs")]) ∧
  group_ids [(1%Z, "cs"); (3%Z, "de")] = group_ids [(3%Z, "de"); (1%Z, "cs"); (1%Z, "cs")].
Proof.
  assert (Hsame : ∀ id, id ∈ [(1%Z, "cs"); (3%Z, "de")]
                        ↔ id ∈ [(3%Z, "de"); (1%Z, "cs"); (1%Z, "cs")]).
  { intros id. rewrite !elem_of_cons. naive_solver. }
  split; [exact Hsame|]. apply (group_ids_order_irrelevant _ _ Hsame).
Defined.

Lemma group_ids_sets_witness :
  group_ids [(1%Z, "cs"); (3%Z, "de"); (1%Z, "de")]
  = ((group_ids [(1%Z, "cs"); (3%Z, "de"); (1%Z, "de")]).1,
     (group_ids [(1%Z, "cs"); (3%Z, "de"); (1%Z, "de")]).2) ∧
  ∀ l us, (group_ids [(1%Z, "cs"); (3%Z, "de"); (1%Z, "de")]).2 !! l = Some us →
          us ≠ ∅ ∧ us ⊆ (group_ids [(1%Z, "cs"); (3%Z, "de"); (1%Z, "de")]).1.
Proof.
  assert (Hg : group_ids [(1%Z, "cs"); (3%Z, "de"); (1%Z, "de")]
               = ((group_ids [(1%Z, "cs"); (3%Z, "de"); (1%Z, "de")]).1,
                  (group_ids [(1%Z, "cs"); (3%Z, "de"); (1%Z, "de")]).2)).
  { by destruct (group_ids _). }
  split; [exact Hg|]. apply (group_ids_sets _ _ _ Hg).
Defined.

Lemma delete_search_units_empty_batch_witness :
  ("source" ∉ unreadable source_locked_store) ∧
  "source" ∈ locked source_locked_store ∧
  (delete_search_units ∅ ∅ source_locked_store).1 = Raise LockError.
Proof.
  assert (Hu : "source" ∉ unreadable source_locked_store).
  { unfold source_locked_store; cbn [unreadable]; set_solver. }
  assert (Hl : "source" ∈ locked source_locked_store).
  { unfold source_locked_store; cbn [locked]; set_solver. }
  split_and!; [exact Hu|exact Hl|].
  apply (delete_search_units_empty_batch source_locked_store Hu), Hl.
Defined.

Lemma sample_delete_runs :
  delete_search_units {[3%Z]} {[ "de" := {[3%Z]} ]} indexed_store
  = (Ok tt, (delete_search_units {[3%Z]} {[ "de" := {[3%Z]} ]} indexed_store).2).
Proof. vm_compute. reflexivity. Qed.

Lemma delete_search_units_idempotent_witness :
  delete_search_units {[3%Z]} {[ "de" := {[3%Z]} ]} indexed_store
  = (Ok tt, (delete_search_units {[3%Z]} {[ "de" := {[3%Z]} ]} indexed_store).2) ∧
  ∃ st2,
    delete_search_units {[3%Z]} {[ "de" := {[3%Z]} ]}
      (delete_search_units {[3%Z]} {[ "de" := {[3%Z]} ]} indexed_store).2 = (Ok tt, st2)
    ∧ ∀ n, docs_of st2 n
           = docs_of (delete_search_units {[3%Z]} {[ "de" := {[3%Z]} ]} indexed_store).2 n.
Proof.
  split; [exact sample_delete_runs|].
  apply (delete_search_units_idempotent _ _ indexed_store), sample_delete_runs.
Defined.

Lemma delete_search_units_never_adds_witness :
  delete_search_units {[3%Z]} {[ "de" := {[3%Z]} ]} indexed_store
  = (Ok tt, (delete_search_units {[3%Z]} {[ "de" := {[3%Z]} ]} indexed_store).2) ∧
  (is_Some (docs_of (delete_search_units {[3%Z]} {[ "de" := {[3%Z]} ]} indexed_store).2
              "source" !! 1%Z)
   → is_Some (docs_of indexed_store "source" !! 1%Z)).
Proof.
  split; [exact sample_delete_runs|].
  apply (delete_search_units_never_adds _ _ indexed_store (Ok tt) _ "source" 1%Z
           sample_delete_runs).
Defined.

Lemma delete_search_units_unreadable_target_witness :
  ("source" ∉ unreadable unreadable_target_store) ∧
  locked unreadable_target_store = ∅ ∧
  ({[ "de" := {[3%Z]} ]} : gmap string (gset Z)) !! "de" = Some {[3%Z]} ∧
  target_name "de" ∈ unreadable unreadable_target_store ∧
  ∃ st', delete_search_units {[3%Z]} {[ "de" := {[3%Z]} ]} unreadable_target_store
         = (Raise IOError, st')
         ∧ ∀ p, p ∈ ({[3%Z]} : gset Z) → docs_of st' "source" !! p = None.
Proof.
  assert (Hu : "source" ∉ unreadable unreadable_target_store).
  { unfold unreadable_target_store; cbn [unreadable]; set_solver. }
  assert (Hbad : target_name "de" ∈ unreadable unreadable_target_store).
  { unfold unreadable_target_store; cbn [unreadable]; set_solver. }
  assert (Hlang : ({[ "de" := {[3%Z]} ]} : gmap string (gset Z)) !! "de"
                  = Some {[3%Z]}).
  { apply lookup_singleton_eq. }
  split_and!; [exact Hu|reflexivity|exact Hlang|exact Hbad|].
  apply (delete_search_units_unreadable_target {[3%Z]} {[ "de" := {[3%Z]} ]}
           unreadable_target_store "de" {[3%Z]} Hu eq_refl Hlang Hbad).
Defined.

Lemma delete_search_unit_all_or_nothing_witness :
  ("source" ∈ unreadable unreadable_target_store
   ∨ target_name "de" ∈ unreadable unreadable_target_store) ∧
  ∃ st', delete_search_unit 3 "de" unreadable_target_store = (Ok tt, st')
         ∧ log st' = log unreadable_target_store
         ∧ ∀ n, docs_of st' n = docs_of unreadable_target_store n.
Proof.
  assert (Hbad : "source" ∈ unreadable unreadable_target_store
                 ∨ target_name "de" ∈ unreadable unreadable_target_store).
  { right. unfold unreadable_target_store; cbn [unreadable]; set_solver. }
  split; [exact Hbad|].
  apply (delete_search_unit_all_or_nothing 3 "de" unreadable_target_store Hbad).
Defined.

Lemma delete_search_unit_agrees_with_batch_witness :
  unreadable indexed_store = ∅ ∧ locked indexed_store = ∅ ∧
  ∃ st1 st2,
    delete_search_unit 3 "de" indexed_store = (Ok tt, st1) ∧
    delete_fulltext {| args := [(3%Z, "de")]; retries := 0 |} indexed_store
    = (Success, st2) ∧
    ∀ n, docs_of st1 n = docs_of st2 n.
Proof.
  split_and!; [exact indexed_store_readable|exact indexed_store_unlocked|].
  destruct (delete_search_unit_agrees_with_batch 3 "de" 0 indexed_store
              indexed_store_readable indexed_store_unlocked)
    as (st1 & st2 & H1 & H2 & Hsame & _).
  exists st1, st2. split_and!; assumption.
Defined.

Section MoreSamples.
#[local] Existing Instance sample_engine.

Lemma search_reads_only_witness :
  search "hallo" ["cs"; "de"] {[ "target" := true ]} indexed_store
  = ((search "hallo" ["cs"; "de"] {[ "target" := true ]} indexed_store).1,
     (search "hallo" ["cs"; "de"] {[ "target" := true ]} indexed_store).2) ∧
  ∀ n, docs_of (search "hallo" ["cs"; "de"] {[ "target" := true ]} indexed_store).2 n
       = docs_of indexed_store n.
Proof.
  assert (Hrun : search "hallo" ["cs"; "de"] {[ "target" := true ]} indexed_store
    = ((search "hallo" ["cs"; "de"] {[ "target" := true ]} indexed_store).1,
       (search "hallo" ["cs"; "de"] {[ "target" := true ]} indexed_store).2)).
  { by destruct (search _ _ _ _). }
  split; [exact Hrun|].
  apply (search_reads_only "hallo" ["cs"; "de"] {[ "target" := true ]} indexed_store
           _ _ Hrun).
Defined.

Lemma search_monotone_fields_witness :
  ∃ pks1 pks2,
    (∀ field, ({[ "target" := true ]} : gmap string bool) !! field = Some true →
              ({[ "target" := true; "source" := true ]} : gmap string bool) !! field
              = Some true) ∧
    (search "hallo" ["de"] {[ "target" := true ]} indexed_store).1 = Ok pks1 ∧
    (search "hallo" ["de"] {[ "target" := true; "source" := true ]} indexed_store).1
    = Ok pks2 ∧
    pks1 ⊆ pks2.
Proof.
  assert (Hmore : ∀ field,
    ({[ "target" := true ]} : gmap string bool) !! field = Some true →
    ({[ "target" := true; "source" := true ]} : gmap string bool) !! field = Some true).
  { intros field [<- _]%lookup_singleton_Some. apply lookup_insert_eq. }
  pose proof (search_readable "hallo" ["de"] {[ "target" := true ]} indexed_store
                indexed_store_readable (sample_accepted "hallo" _ ltac:(done))) as Ho1.
  pose proof (search_readable "hallo" ["de"] {[ "target" := true; "source" := true ]}
                indexed_store indexed_store_readable
                (sample_accepted "hallo" _ ltac:(done))) as Ho2.
  eexists _, _. split; [exact Hmore|].
  split; [exact Ho1|]. split; [exact Ho2|].
  apply (search_monotone_fields "hallo" ["de"] _ _ indexed_store _ _ Hmore Ho1 Ho2).
Defined.

Lemma search_monotone_langs_witness :
  ∃ pks1 pks2,
    (∀ lang, lang ∈ ["de"] → lang ∈ ["cs"; "de"]) ∧
    (search "hallo" ["de"] {[ "target" := true ]} indexed_store).1 = Ok pks1 ∧
    (search "hallo" ["cs"; "de"] {[ "target" := true ]} indexed_store).1 = Ok pks2 ∧
    pks1 ⊆ pks2.
Proof.
  assert (Hmore : ∀ lang, lang ∈ ["de"] → lang ∈ ["cs"; "de"]).
  { intros lang ->%list_elem_of_singleton. set_solver. }
  pose proof (search_readable "hallo" ["de"] {[ "target" := true ]} indexed_store
                indexed_store_readable (sample_accepted "hallo" _ ltac:(done))) as Ho1.
  pose proof (search_readable "hallo" ["cs"; "de"] {[ "target" := true ]}
                indexed_store indexed_store_readable
                (sample_accepted "hallo" _ ltac:(done))) as Ho2.
  eexists _, _. split; [exact Hmore|]. split; [exact Ho1|]. split; [exact Ho2|].
  apply (search_monotone_langs "hallo" ["de"] ["cs"; "de"] _ indexed_store _ _
           Hmore Ho1 Ho2).
Defined.

Lemma search_after_update_witness :
  ∃ pks,
    update_index [cs; de] [hello_cs; hello_de; world_de] empty_store
    = (Ok tt, indexed_store) ∧
    NoDup (unit_pk <$> [hello_cs; hello_de; world_de]) ∧
    world_de ∈ [hello_cs; hello_de; world_de] ∧
    (search "hallo" ["de"] {[ "target" := true ]} indexed_store).1 = Ok pks ∧
    3%Z ∈ pks.
Proof.
  assert (Hin : world_de ∈ [hello_cs; hello_de; world_de]) by set_solver.
  assert (Hlang : unit_language world_de ∈ [cs; de]) by set_solver.
  assert (Hcode : code (unit_language world_de) ∈ ["de"]) by set_solver.
  assert (Htext : unit_target world_de ≠ "") by done.
  pose proof (search_readable "hallo" ["de"] {[ "target" := true ]} indexed_store
                indexed_store_readable (sample_accepted "hallo" _ ltac:(done))) as Ho.
  eexists. split_and!; [exact sample_update_runs|exact sample_keys_distinct
                       |exact Hin|exact Ho|].
  destruct (search_after_update [cs; de] [hello_cs; hello_de; world_de] empty_store
              indexed_store world_de "hallo" ["de"] {[ "target" := true ]} _
              sample_update_runs sample_keys_distinct Hin Ho) as [_ Htarget].
  apply Htarget; [apply lookup_singleton_eq|exact Htext|exact Hlang|exact Hcode
                 |reflexivity].
Defined.

Lemma sample_delete_flush :
  delete_fulltext {| args := [(3%Z, "de")]; retries := 0 |} indexed_store
  = (Success,
     (delete_fulltext {| args := [(3%Z, "de")]; retries := 0 |} indexed_store).2).
Proof. vm_compute. reflexivity. Qed.

Lemma search_after_delete_witness :
  ∃ pks,
    delete_fulltext {| args := [(3%Z, "de")]; retries := 0 |} indexed_store
    = (Success,
       (delete_fulltext {| args := [(3%Z, "de")]; retries := 0 |} indexed_store).2) ∧
    (∃ lang, (3%Z, lang) ∈ [(3%Z, "de")]) ∧
    (∀ lang, lang ∈ ["de"] → (3%Z, lang) ∈ [(3%Z, "de")]) ∧
    (search "hallo" ["de"] {[ "target" := true; "source" := true ]}
       (delete_fulltext {| args := [(3%Z, "de")]; retries := 0 |} indexed_store).2).1
    = Ok pks ∧
    3%Z ∉ pks.
Proof.
  assert (Hsome : ∃ lang, (3%Z, lang) ∈ [(3%Z, "de")]).
  { exists "de". by left. }
  assert (Hall : ∀ lang, lang ∈ ["de"] → (3%Z, lang) ∈ [(3%Z, "de")]).
  { intros lang ->%list_elem_of_singleton. by left. }
  assert (Ho : (search "hallo" ["de"] {[ "target" := true; "source" := true ]}
       (delete_fulltext {| args := [(3%Z, "de")]; retries := 0 |} indexed_store).2).1
    = Ok (search_union "hallo" ["de"]
            ({[ "target" := true; "source" := true ]} ∪ defaults)
            (delete_fulltext {| args := [(3%Z, "de")]; retries := 0 |}
               indexed_store).2)).
  { apply search_readable; [vm_compute; reflexivity|by apply sample_accepted]. }
  eexists. split_and!; [exact sample_delete_flush|exact Hsome|exact Hall|exact Ho|].
  apply (search_after_delete {| args := [(3%Z, "de")]; retries := 0 |} indexed_store
           _ 3%Z "hallo" ["de"] {[ "target" := true; "source" := true ]} _
           sample_delete_flush Hsome Hall Ho).
Defined.

Lemma more_like_reads_only_witness :
  more_like 1 "hello" 5 indexed_store
  = ((more_like 1 "hello" 5 indexed_store).1, (more_like 1 "hello" 5 indexed_store).2) ∧
  ∀ n, docs_of (more_like 1 "hello" 5 indexed_store).2 n = docs_of indexed_store n.
Proof.
  assert (Hrun : more_like 1 "hello" 5 indexed_store
    = ((more_like 1 "hello" 5 indexed_store).1,
       (more_like 1 "hello" 5 indexed_store).2)).
  { by destruct (more_like _ _ _ _). }
  split; [exact Hrun|].
  apply (more_like_reads_only 1 "hello" 5 indexed_store _ _ Hrun).
Defined.

Lemma sample_more_like : (more_like 1 "hello" 5 indexed_store).1 = Ok [3%Z].
Proof. vm_compute. reflexivity. Qed.

Lemma more_like_result_bounds_witness :
  (more_like 1 "hello" 5 indexed_store).1 = Ok [3%Z] ∧
  (length [3%Z] ≤ 5)%nat ∧ NoDup [3%Z] ∧ (1%Z ∉ [3%Z]) ∧
  ∀ p, p ∈ [3%Z] → is_Some (docs_of indexed_store "source" !! p).
Proof.
  split; [exact sample_more_like|].
  apply (more_like_result_bounds 1 "hello" 5 indexed_store [3%Z] sample_more_like).
Defined.
End MoreSamples.

Section ZeroScores.
#[local] Existing Instance zero_engine.

Lemma zero_similar_hits :
  similar_hits (docs_of indexed_store "source") "hello" 5
  = [(1%Z, 0%float); (3%Z, 0%float); (2%Z, 0%float)].
Proof. vm_compute. reflexivity. Qed.

Lemma more_like_zero_scores_witness :
  ("source" ∉ unreadable indexed_store) ∧
  similar_hits (docs_of indexed_store "source") "hello" 5 ≠ [] ∧
  (∀ h, h ∈ similar_hits (docs_of indexed_store "source") "hello" 5
        → (h.2 =? 0)%float = true) ∧
  (more_like 1 "hello" 5 indexed_store).1 = Raise ZeroDivisionError.
Proof.
  assert (Hne : similar_hits (docs_of indexed_store "source") "hello" 5 ≠ []).
  { by rewrite zero_similar_hits. }
  assert (Hzero : ∀ h, h ∈ similar_hits (docs_of indexed_store "source") "hello" 5
                       → (h.2 =? 0)%float = true).
  { intros h. rewrite zero_similar_hits. intros Hh.
    repeat (apply elem_of_cons in Hh as [->|Hh]; [reflexivity|]).
    by apply elem_of_nil in Hh. }
  split_and!; [exact indexed_source_readable|exact Hne|exact Hzero|].
  apply (more_like_zero_scores 1 "hello" 5 indexed_store indexed_source_readable
           Hne Hzero).
Defined.
End ZeroScores.

Section SearchErrors.
#[local] Existing Instance sample_engine.

End SearchErrors.
